(** * d2tree: an adaptive point quadtree (src/mod.ts)

    A shallow embedding of the [D2Tree] class.  The object graph of the
    TypeScript program (nodes with a [parent] back-reference, a [children]
    array, and one [itemToTreeMap] shared by every node) is modelled as an
    explicit store: nodes live in an arena addressed by allocation order and
    every method is a computation over that store.

    Numbers.  JavaScript numbers are IEEE doubles; here coordinates are exact
    rationals ([Q]) and bounds are rationals extended with the two infinities
    the constructor uses as defaults.  Rounding, overflow and NaN are outside
    this model.  [density] is an integer, [thrash] a rational.

    Items are compared by identity in the source ([Map] keys, [indexOf]); an
    item is modelled by a natural number naming the object.  Its position is
    read through [getItemPosition], which the caller supplies; an item is a
    mutable object, so the accessor may answer differently as time passes:
    every method takes the accessor it runs with as part of a [Props] value,
    and a move of an item is a change from one [Props] to the next.

    Loops and recursion take a fuel argument and answer [OutOfFuel] when it
    is used up; that a method completes is stated as: from some amount of
    fuel on, the run returns, with one and the same result. *)

From Stdlib Require Import QArith Lqa ZArith Lia String Sorting.Sorted Permutation.
From stdpp Require Import base option list gmap.

Local Open Scope Q_scope.

(** ** Numbers *)

Inductive num : Type :=
| NegInfinity
| Fin (q : Q)
| Infinity.

Definition Qltb (a b : Q) : bool := negb (Qle_bool b a).

(** [a <= b] and [a < b] on numbers that may be infinite. *)
Definition num_leb (a b : num) : bool :=
  match a, b with
  | NegInfinity, _ => true
  | _, Infinity => true
  | Fin x, Fin y => Qle_bool x y
  | _, _ => false
  end.

Definition num_ltb (a b : num) : bool :=
  match a, b with
  | Fin x, Fin y => Qltb x y
  | NegInfinity, NegInfinity => false
  | Infinity, _ => false
  | _, NegInfinity => false
  | _, _ => true
  end.

Definition point : Type := Q * Q.
Definition bound : Type := num * num.

(** ** Nodes and the store *)

(** References to nodes (allocation order) and to items (object identity). *)
Abbreviation loc := nat.
Abbreviation Item := nat.

Record D2Tree : Type := mkD2Tree {
  parent : option loc;
  items : list Item;
  children : option (list loc);
  max : bound;
  min : bound;
  center : point
}.

Record Store : Type := mkStore {
  heap : list D2Tree;
  itemToTreeMap : gmap Item loc
}.

(** The fields every node of one tree shares by value. *)
Record Props : Type := mkProps {
  getItemPosition : Item -> point;
  density : Z;
  thrash : Q
}.

(** ** Computations over the store *)

Inductive error : Type :=
| Error (msg : string)
| TypeError.

Inductive outcome (A : Type) : Type :=
| Done (a : A) (s : Store)
| Throw (e : error)
| OutOfFuel.
Arguments Done {A} a s.
Arguments Throw {A} e.
Arguments OutOfFuel {A}.

Definition M (A : Type) : Type := Store -> outcome A.

Definition ret {A} (a : A) : M A := fun s => Done a s.

Definition bind {A B} (m : M A) (k : A -> M B) : M B :=
  fun s => match m s with
           | Done a s' => k a s'
           | Throw e => Throw e
           | OutOfFuel => OutOfFuel
           end.

Definition throw {A} (e : error) : M A := fun _ => Throw e.
Definition out_of_fuel {A} : M A := fun _ => OutOfFuel.

Declare Scope m_scope.
Delimit Scope m_scope with M.
Notation "x <- m ;; k" := (bind m (fun x => k))
  (at level 100, m at next level, right associativity) : m_scope.
Notation "m ;;; k" := (bind m (fun _ => k))
  (at level 100, right associativity) : m_scope.
Local Open Scope m_scope.

(** Reading a field of an object; a reference that names no object has no
    counterpart in the source and is reported as a [TypeError]. *)
Definition get_node (l : loc) : M D2Tree :=
  fun s => match heap s !! l with
           | Some n => Done n s
           | None => Throw TypeError
           end.

Definition set_node (l : loc) (n : D2Tree) : M unit :=
  fun s => Done tt (mkStore (<[l := n]> (heap s)) (itemToTreeMap s)).

Definition alloc (n : D2Tree) : M loc :=
  fun s => Done (length (heap s)) (mkStore (heap s ++ [n]) (itemToTreeMap s)).

Definition map_get (i : Item) : M (option loc) :=
  fun s => Done (itemToTreeMap s !! i) s.

Definition map_set (i : Item) (l : loc) : M unit :=
  fun s => Done tt (mkStore (heap s) (<[i := l]> (itemToTreeMap s))).

(** [arr[i]] on an array of references. *)
Definition index {A} (xs : list A) (i : nat) : M A :=
  match xs !! i with
  | Some x => ret x
  | None => throw TypeError
  end.

Definition update_node (l : loc) (f : D2Tree -> D2Tree) : M unit :=
  n <- get_node l ;; set_node l (f n).

Definition with_items (its : list Item) (n : D2Tree) : D2Tree :=
  mkD2Tree (parent n) its (children n) (max n) (min n) (center n).
Definition with_children (cs : option (list loc)) (n : D2Tree) : D2Tree :=
  mkD2Tree (parent n) (items n) cs (max n) (min n) (center n).
Definition with_center (c : point) (n : D2Tree) : D2Tree :=
  mkD2Tree (parent n) (items n) (children n) (max n) (min n) c.

(** ** Pure helpers *)

(** [items.indexOf(item)]: the first position holding [item]. *)
Fixpoint indexOf (item : Item) (its : list Item) : option nat :=
  match its with
  | [] => None
  | i :: rest => if Nat.eqb i item then Some O else S <$> indexOf item rest
  end.

(** Which of the four children a point belongs to, as [drill] decides it. *)
Definition quadrant (c : point) (x y : Q) : nat :=
  if Qltb x (fst c)
  then (if Qltb y (snd c) then 0 else 1)%nat
  else (if Qltb y (snd c) then 2 else 3)%nat.

(** Inclusive overlap of the query rectangle with a node's bounds. *)
Definition overlaps (minX minY maxX maxY : Q) (n : D2Tree) : bool :=
  num_leb (Fin minX) (fst (max n)) && num_leb (fst (min n)) (Fin maxX) &&
  num_leb (snd (min n)) (Fin maxY) && num_leb (Fin minY) (snd (max n)).

Definition in_box (minX minY maxX maxY : Q) (pos : point) : bool :=
  Qle_bool minX (fst pos) && Qle_bool minY (snd pos) &&
  Qle_bool (fst pos) maxX && Qle_bool (snd pos) maxY.

Definition in_circle (x y radius : Q) (pos : point) : bool :=
  Qle_bool ((x - fst pos) ^ 2 + (y - snd pos) ^ 2) (radius ^ 2).

(** The half-open containment test of [update]. *)
Definition within (n : D2Tree) (pos : point) : bool :=
  num_leb (fst (min n)) (Fin (fst pos)) && num_ltb (Fin (fst pos)) (fst (max n)) &&
  num_leb (snd (min n)) (Fin (snd pos)) && num_ltb (Fin (snd pos)) (snd (max n)).

(** [Array.prototype.sort] with the comparator [key a - key b]: the stable
    ascending arrangement, computed here by insertion. *)
Fixpoint insert_by (key : Item -> Q) (a : Item) (l : list Item) : list Item :=
  match l with
  | [] => [a]
  | b :: r => if Qle_bool (key a) (key b) then a :: b :: r
              else b :: insert_by key a r
  end.

Definition sort_by (key : Item -> Q) (l : list Item) : list Item :=
  foldr (insert_by key) [] l.

Section Methods.

Variable props : Props.

Local Abbreviation pos := (getItemPosition props).

(** *** constructor *)
Definition constructor (_parent : option loc) (_max _min : option bound) : M loc :=
  if (density props <=? 1)%Z
  then throw (Error "density must be 2 or more")
  else alloc (mkD2Tree _parent [] None
                (default (Infinity, Infinity) _max)
                (default (NegInfinity, NegInfinity) _min)
                (0, 0)).

(** *** shouldSplit *)
Definition shouldSplit_items (its : list Item) : bool :=
  if (Z.of_nat (length its) <? density props)%Z then false
  else match its with
       | [] => false
       | i0 :: rest =>
           existsb (fun i => negb (Qeq_bool (fst (pos i0)) (fst (pos i))) ||
                             negb (Qeq_bool (snd (pos i0)) (snd (pos i)))) rest
       end.

Definition shouldSplit (this : loc) : M bool :=
  n <- get_node this ;; ret (shouldSplit_items (items n)).

(** *** drill *)
Fixpoint drill (fuel : nat) (this : loc) (x y : Q) : M loc :=
  match fuel with
  | O => out_of_fuel
  | S fuel' =>
      n <- get_node this ;;
      match children n with
      | None => ret this
      | Some cs =>
          c <- index cs (quadrant (center n) x y) ;;
          drill fuel' c x y
      end
  end.

(** *** split *)
Definition centroid (its : list Item) : point :=
  let x := fold_left (fun acc i => acc + fst (pos i)) its 0 in
  let y := fold_left (fun acc i => acc + snd (pos i)) its 0 in
  let len := inject_Z (Z.of_nat (length its)) in
  (x / len, y / len).

(** [for (let i = 0; i < this.items.length; i++) this.add(this.items[i])];
    the array is read again at every turn, as in the source. *)
Fixpoint readd_items (add : loc -> Item -> M unit) (fuel : nat)
    (this : loc) (i : nat) : M unit :=
  match fuel with
  | O => out_of_fuel
  | S fuel' =>
      n <- get_node this ;;
      match items n !! i with
      | None => ret tt
      | Some item => add this item ;;; readd_items add fuel' this (S i)
      end
  end.

Definition split (add : loc -> Item -> M unit) (fuel : nat) (this : loc) : M unit :=
  n <- get_node this ;;
  let c := centroid (items n) in
  let x := Fin (fst c) in
  let y := Fin (snd c) in
  update_node this (with_center c) ;;;
  c0 <- constructor (Some this) (Some (x, y)) (Some (min n)) ;;
  c1 <- constructor (Some this) (Some (x, snd (max n))) (Some (fst (min n), y)) ;;
  c2 <- constructor (Some this) (Some (fst (max n), y)) (Some (x, snd (min n))) ;;
  c3 <- constructor (Some this) (Some (max n)) (Some (x, y)) ;;
  update_node this (with_children (Some [c0; c1; c2; c3])) ;;;
  readd_items add fuel this O ;;;
  update_node this (with_items []).

(** *** add *)
Fixpoint add (fuel : nat) (this : loc) (item : Item) : M unit :=
  match fuel with
  | O => out_of_fuel
  | S fuel' =>
      cell <- drill fuel' this (fst (pos item)) (snd (pos item)) ;;
      should <- shouldSplit cell ;;
      if should
      then split (add fuel') fuel' cell ;;; add fuel' cell item
      else
        update_node cell (fun n => with_items (items n ++ [item]) n) ;;;
        map_set item cell
  end.

(** *** collapse *)
Fixpoint flatMap_items (cs : list loc) : M (list Item) :=
  match cs with
  | [] => ret []
  | c :: rest =>
      n <- get_node c ;;
      more <- flatMap_items rest ;;
      ret (items n ++ more)
  end.

Fixpoint repoint (its : list Item) (this : loc) : M unit :=
  match its with
  | [] => ret tt
  | i :: rest => map_set i this ;;; repoint rest this
  end.

Definition collapse (this : loc) : M unit :=
  n <- get_node this ;;
  moved <- match children n with
           | Some cs => flatMap_items cs
           | None => ret []
           end ;;
  update_node this (fun n => with_items (items n ++ moved) n) ;;;
  n' <- get_node this ;;
  repoint (items n') this ;;;
  update_node this (with_children None).

(** *** remove *)
Fixpoint every_leaf (cs : list loc) : M bool :=
  match cs with
  | [] => ret true
  | c :: rest =>
      n <- get_node c ;;
      match children n with
      | None => every_leaf rest
      | Some _ => ret false
      end
  end.

Fixpoint sum_lengths (cs : list loc) (sum : nat) : M nat :=
  match cs with
  | [] => ret sum
  | c :: rest => n <- get_node c ;; sum_lengths rest (sum + length (items n))%nat
  end.

Definition below_threshold (sum : nat) : bool :=
  Qltb (inject_Z (Z.of_nat sum) * thrash props) (inject_Z (density props)).

(** [this] only supplies [itemToTreeMap], [thrash] and [density], which all
    nodes share. *)
Definition remove (this : loc) (item : Item) : M unit :=
  container <- map_get item ;;
  match container with
  | None => ret tt
  | Some container =>
      nc <- get_node container ;;
      match indexOf item (items nc) with
      | None => ret tt
      | Some idx =>
          update_node container (fun n => with_items (delete idx (items n)) n) ;;;
          match parent nc with
          | None => ret tt
          | Some par =>
              np <- get_node par ;;
              match children np with
              | None => ret tt
              | Some cs =>
                  leaves <- every_leaf cs ;;
                  if leaves
                  then
                    sum <- sum_lengths cs O ;;
                    if below_threshold sum then collapse par else ret tt
                  else ret tt
              end
          end
      end
  end.

(** *** update *)
Definition update (fuel : nat) (this : loc) (item : Item) : M unit :=
  container <- map_get item ;;
  match container with
  | None => add fuel this item
  | Some container =>
      nc <- get_node container ;;
      if within nc (pos item) then ret tt
      else remove container item ;;; add fuel this item
  end.

End Methods.

(** ** Queries *)

Section Queries.

Variable props : Props.

Local Abbreviation pos := (getItemPosition props).

(** Work lists ([remaining], [cells]) are JavaScript arrays used as stacks;
    here the head of the list is the top of the stack, so
    [remaining.push(...children)] puts the reversed children in front. *)

(** *** [Symbol.iterator] *)
Fixpoint iterate_loop (fuel : nat) (remaining : list loc) : M (list Item) :=
  match fuel with
  | O => out_of_fuel
  | S fuel' =>
      match remaining with
      | [] => ret []
      | current :: rest =>
          n <- get_node current ;;
          match children n with
          | Some cs => iterate_loop fuel' (rev cs ++ rest)
          | None =>
              more <- iterate_loop fuel' rest ;;
              ret (items n ++ more)
          end
      end
  end.

Definition iterator (fuel : nat) (this : loc) : M (list Item) :=
  iterate_loop fuel [this].

(** *** iterateBox, box *)
Fixpoint push_overlapping (minX minY maxX maxY : Q) (cs : list loc)
    (cells : list loc) : M (list loc) :=
  match cs with
  | [] => ret cells
  | c :: rest =>
      n <- get_node c ;;
      push_overlapping minX minY maxX maxY rest
        (if overlaps minX minY maxX maxY n then c :: cells else cells)
  end.

Fixpoint iterateBox_loop (fuel : nat) (minX minY maxX maxY : Q)
    (cells : list loc) : M (list Item) :=
  match fuel with
  | O => out_of_fuel
  | S fuel' =>
      match cells with
      | [] => ret []
      | cell :: rest =>
          n <- get_node cell ;;
          match children n with
          | Some cs =>
              cells' <- push_overlapping minX minY maxX maxY cs rest ;;
              iterateBox_loop fuel' minX minY maxX maxY cells'
          | None =>
              more <- iterateBox_loop fuel' minX minY maxX maxY rest ;;
              ret (filter (fun i => in_box minX minY maxX maxY (pos i)) (items n) ++ more)
          end
      end
  end.

Definition iterateBox (fuel : nat) (this : loc) (minX minY maxX maxY : Q) : M (list Item) :=
  iterateBox_loop fuel minX minY maxX maxY [this].

Definition box (fuel : nat) (this : loc) (minX minY maxX maxY : Q) : M (list Item) :=
  iterateBox fuel this minX minY maxX maxY.

(** *** iterateRadius, radius *)
Definition iterateRadius (fuel : nat) (this : loc) (x y radius : Q) : M (list Item) :=
  found <- iterateBox fuel this (x - radius) (y - radius) (x + radius) (y + radius) ;;
  ret (filter (fun i => in_circle x y radius (pos i)) found).

Definition radius (fuel : nat) (this : loc) (x y r : Q) : M (list Item) :=
  iterateRadius fuel this x y r.

(** *** iterateTrees (with its default [leaves = true]) *)
Fixpoint iterateTrees_loop (fuel : nat) (leaves : bool) (remaining : list loc) : M (list loc) :=
  match fuel with
  | O => out_of_fuel
  | S fuel' =>
      match remaining with
      | [] => ret []
      | current :: rest =>
          n <- get_node current ;;
          match children n with
          | Some cs =>
              more <- iterateTrees_loop fuel' leaves (rev cs ++ rest) ;;
              ret (if leaves then more else current :: more)
          | None =>
              more <- iterateTrees_loop fuel' leaves rest ;;
              ret (current :: more)
          end
      end
  end.

Definition iterateTrees (fuel : nat) (this : loc) (leaves : bool) : M (list loc) :=
  iterateTrees_loop fuel leaves [this].

(** *** iterateNearest, nearest *)

(** [(itemX - x) ** 2 + (itemY - y) ** 2]; the source caches the value per
    item for the duration of one call. *)
Definition distanceSquared (x y : Q) (item : Item) : Q :=
  (fst (pos item) - x) ^ 2 + (snd (pos item) - y) ^ 2.

(** The [filter] callback: keep a tree not yet in [closed], and close it. *)
Fixpoint filter_closed (trees : list loc) (closed : gset loc) : list loc * gset loc :=
  match trees with
  | [] => ([], closed)
  | t :: rest =>
      if decide (t ∈ closed) then filter_closed rest closed
      else let '(kept, closed') := filter_closed rest ({[t]} ∪ closed) in
           (t :: kept, closed')
  end.

(** [cur.parent?.parent ?? cur.parent ?? cur] *)
Definition start_scope (cur : loc) : M loc :=
  n <- get_node cur ;;
  match parent n with
  | None => ret cur
  | Some par =>
      np <- get_node par ;;
      match parent np with
      | None => ret par
      | Some grand => ret grand
      end
  end.

(** One turn of [while (cur)]: the batch yielded, the next [cur]. *)
Definition ring (fuel : nat) (x y : Q) (cur : loc) (closed : gset loc)
    : M (list Item * gset loc * option loc) :=
  trees <- iterateTrees fuel cur true ;;
  let '(fresh, closed') := filter_closed trees closed in
  its <- flatMap_items fresh ;;
  n <- get_node cur ;;
  ret (sort_by (distanceSquared x y) its, closed', parent n).

(** The batches of [iterateNearest], one per turn of its loop. *)
Fixpoint rings_loop (fuel : nat) (x y : Q) (cur : option loc) (closed : gset loc)
    : M (list (list Item)) :=
  match fuel with
  | O => out_of_fuel
  | S fuel' =>
      match cur with
      | None => ret []
      | Some c =>
          r <- ring fuel' x y c closed ;;
          let '(batch, closed', next) := r in
          more <- rings_loop fuel' x y next closed' ;;
          ret (batch :: more)
      end
  end.

Definition iterateNearest_rings (fuel : nat) (this : loc) (x y : Q) : M (list (list Item)) :=
  leaf <- drill fuel this x y ;;
  cur <- start_scope leaf ;;
  rings_loop fuel x y (Some cur) ∅.

Definition iterateNearest (fuel : nat) (this : loc) (x y : Q) : M (list Item) :=
  batches <- iterateNearest_rings fuel this x y ;;
  ret (concat batches).

(** [nearest] pulls items until it has [count] of them or the generator is
    exhausted; an item is an object, hence never falsy. *)
Definition nearest (fuel : nat) (this : loc) (x y : Q) (count : nat) : M (list Item) :=
  all <- iterateNearest fuel this x y ;;
  ret (take count all).

End Queries.

(** * The earlier revision (src/unnamed/part_000) *)

Module Part000.

(** [add] of the earlier revision walks down through the children itself:
    [if (!this.children) { if (this.shouldSplit) this.split(); else { push;
    set; return } }  if (this.children) { ...this.children[k].add(item) }]. *)
Fixpoint add (props : Props) (fuel : nat) (this : loc) (item : Item) : M unit :=
  match fuel with
  | O => out_of_fuel
  | S fuel' =>
      let route :=
        n <- get_node this ;;
        match children n with
        | None => ret tt
        | Some cs =>
            c <- index cs (quadrant (center n)
                             (fst (getItemPosition props item))
                             (snd (getItemPosition props item))) ;;
            add props fuel' c item
        end in
      n <- get_node this ;;
      match children n with
      | Some _ => route
      | None =>
          should <- shouldSplit props this ;;
          if should
          then split props (add props fuel') fuel' this ;;; route
          else
            update_node this (fun n => with_items (items n ++ [item]) n) ;;;
            map_set item this
      end
  end.

(** [let cur = this; while (this.children) { ... cur = this.children[k] ... }]:
    the loop tests and reads [this], which it never changes. *)
Fixpoint descend (fuel : nat) (this cur : loc) (x y : Q) : M loc :=
  match fuel with
  | O => out_of_fuel
  | S fuel' =>
      n <- get_node this ;;
      match children n with
      | None => ret cur
      | Some cs =>
          c <- index cs (quadrant (center n) x y) ;;
          descend fuel' this c x y
      end
  end.

Definition iterateNearest_rings (props : Props) (fuel : nat) (this : loc) (x y : Q)
    : M (list (list Item)) :=
  leaf <- descend fuel this this x y ;;
  cur <- start_scope leaf ;;
  rings_loop props fuel x y (Some cur) ∅.

Definition iterateNearest (props : Props) (fuel : nat) (this : loc) (x y : Q) : M (list Item) :=
  batches <- iterateNearest_rings props fuel this x y ;;
  ret (concat batches).

Definition nearest (props : Props) (fuel : nat) (this : loc) (x y : Q) (count : nat)
    : M (list Item) :=
  all <- iterateNearest props fuel this x y ;;
  ret (take count all).

End Part000.

(** * Vocabulary of the specification *)

(** ** Outcomes and orders *)

(** A computation that never writes to the store. *)
Definition readonly {A} (m : M A) : Prop :=
  forall s a s1, m s = Done a s1 -> s1 = s.

(** Post-processing the value a computation returns. *)
Definition omap {A B} (f : A -> B) (o : outcome A) : outcome B :=
  match o with
  | Done a s => Done (f a) s
  | Throw e => Throw e
  | OutOfFuel => OutOfFuel
  end.

(** Order on possibly infinite numbers, as propositions. *)
Definition num_le (a b : num) : Prop := num_leb a b = true.
Definition num_lt (a b : num) : Prop := num_ltb a b = true.

(** ** Invariants of the arena *)

(** The (min, max) bounds [split] hands to child number [k]. *)
Definition quadrant_bounds (n : D2Tree) (k : nat) : bound * bound :=
  let x := Fin (fst (center n)) in
  let y := Fin (snd (center n)) in
  match k with
  | 0%nat => (min n, (x, y))
  | 1%nat => ((fst (min n), y), (x, snd (max n)))
  | 2%nat => ((x, snd (min n)), (fst (max n), y))
  | _ => ((x, y), max n)
  end.

Definition center_in_bounds (n : D2Tree) : Prop :=
  num_le (fst (min n)) (Fin (fst (center n))) /\
  num_le (Fin (fst (center n))) (fst (max n)) /\
  num_le (snd (min n)) (Fin (snd (center n))) /\
  num_le (Fin (snd (center n))) (snd (max n)).

Definition child_ok (h : list D2Tree) (l : loc) (n : D2Tree) (k : nat) (c : loc) : Prop :=
  (l < c)%nat /\
  exists nc, h !! c = Some nc /\ parent nc = Some l /\
             min nc = fst (quadrant_bounds n k) /\
             max nc = snd (quadrant_bounds n k).

(** What every object of the arena satisfies, whether the tree still holds
    it or a collapse has discarded it. *)
Definition node_wf (h : list D2Tree) (l : loc) (n : D2Tree) : Prop :=
  (forall p, parent n = Some p -> (p < l)%nat) /\
  (forall cs, children n = Some cs ->
     length cs = 4%nat /\ NoDup cs /\ center_in_bounds n /\
     forall k c, cs !! k = Some c -> child_ok h l n k c).

Definition Shape (h : list D2Tree) : Prop :=
  forall l n, h !! l = Some n -> node_wf h l n.

Definition items_within (props : Props) (n : D2Tree) : Prop :=
  forall i, i ∈ items n -> within n (getItemPosition props i) = true.

(** An internal node keeps no items of its own. *)
Definition internal_empty_at (h : list D2Tree) (l : loc) : Prop :=
  forall n, h !! l = Some n -> children n <> None -> items n = [].

Definition internal_empty (h : list D2Tree) : Prop :=
  forall l, internal_empty_at h l.

Definition is_root (h : list D2Tree) (root : loc) : Prop :=
  exists r, h !! root = Some r /\ parent r = None /\
            min r = (NegInfinity, NegInfinity) /\ max r = (Infinity, Infinity).

(** [parent], [min] and [max] are [readonly] in the source, and objects are
    never freed. *)
Definition keeps_readonly (h h' : list D2Tree) : Prop :=
  forall l n, h !! l = Some n ->
    exists n', h' !! l = Some n' /\ parent n' = parent n /\
               min n' = min n /\ max n' = max n.

(** How [add] moves the arena: besides keeping the readonly fields, it
    leaves every node that already had children exactly as it was. *)
Definition grows (h h' : list D2Tree) : Prop :=
  forall l n, h !! l = Some n ->
    exists n', h' !! l = Some n' /\ parent n' = parent n /\
               min n' = min n /\ max n' = max n /\
               (children n <> None -> n' = n).

(** A node is attached when it is the root or its parent lists it among its
    children; the nodes a collapse discards stay in the arena, detached. *)
Definition attached (h : list D2Tree) (l : loc) (n : D2Tree) : Prop :=
  match parent n with
  | None => True
  | Some p => exists np cs, h !! p = Some np /\ children np = Some cs /\ l ∈ cs
  end.

Definition live_leaf (h : list D2Tree) (l : loc) (n : D2Tree) : Prop :=
  h !! l = Some n /\ attached h l n /\ children n = None.

(** The item is held by a leaf of the tree. *)
Definition holds (h : list D2Tree) (i : Item) : Prop :=
  exists l n, live_leaf h l n /\ i ∈ items n.

Definition root : loc := O.

(** The part of the invariant that only concerns how nodes are linked. *)
Record Links (h : list D2Tree) : Prop := mkLinks {
  links_shape : Shape h;
  links_internal : forall l n,
    h !! l = Some n -> children n <> None -> attached h l n;
  links_root : is_root h root;
  links_orphan : forall l n, h !! l = Some n -> parent n = None -> l = root
}.

(** What holds between any two public operations, whatever the positions of
    the items are: the nodes are well linked, the index names the leaf that
    holds an item, no leaf holds an item twice, and an index entry never
    names a discarded node that still holds the item. *)
Record Inv (s : Store) : Prop := mkInv {
  inv_links : Links (heap s);
  inv_index : forall l n i,
    live_leaf (heap s) l n -> i ∈ items n -> itemToTreeMap s !! i = Some l;
  inv_nodup : forall l n, live_leaf (heap s) l n -> NoDup (items n);
  inv_sound : forall i c nc,
    itemToTreeMap s !! i = Some c -> heap s !! c = Some nc -> i ∈ items nc ->
    attached (heap s) c nc;
  inv_valid : forall i c,
    itemToTreeMap s !! i = Some c -> (c < length (heap s))%nat
}.

(** Every item a leaf of the tree holds lies within the leaf's bounds,
    except the items [moved] singles out: an item whose position has just
    changed and on which [update] has not run yet. *)
Definition Within (moved : Item -> Prop) (props : Props) (h : list D2Tree) : Prop :=
  forall l n i, live_leaf h l n -> i ∈ items n -> ~ moved i ->
                within n (getItemPosition props i) = true.

Definition nobody : Item -> Prop := fun _ => False.

(** The nodes a list of references names. *)
Definition nodes_at (h : list D2Tree) (cs : list loc) (ns : list D2Tree) : Prop :=
  Forall2 (fun c n => h !! c = Some n) cs ns.



Definition same_position (p q : point) : Prop :=
  fst p == fst q /\ snd p == snd q.

(** All the items of a list sit at one position. *)
Definition coincident (props : Props) (its : list Item) : Prop :=
  forall i j, i ∈ its -> j ∈ its ->
    same_position (getItemPosition props i) (getItemPosition props j).

(** ** split, collapse and remove in closed form *)

(** The arena right after [split] has created the four children and before
    it re-adds the items. *)
Definition child_node (this : loc) (mn mx : bound) : D2Tree :=
  mkD2Tree (Some this) [] None mx mn (0, 0).

Definition split_children (this : loc) (n : D2Tree) (c : point) : list D2Tree :=
  [ child_node this (min n) (Fin (fst c), Fin (snd c));
    child_node this (fst (min n), Fin (snd c)) (Fin (fst c), snd (max n));
    child_node this (Fin (fst c), snd (min n)) (fst (max n), Fin (snd c));
    child_node this (Fin (fst c), Fin (snd c)) (max n) ].

Definition split_node (props : Props) (n : D2Tree) (len : nat) : D2Tree :=
  mkD2Tree (parent n) (items n) (Some [len; S len; S (S len); S (S (S len))])
           (max n) (min n) (centroid props (items n)).

Definition split_heap (props : Props) (h : list D2Tree) (this : loc) (n : D2Tree) : list D2Tree :=
  <[this := split_node props n (length h)]> h ++
  split_children this n (centroid props (items n)).

(** The index after [collapse] has re-pointed a list of items. *)
Definition repointed (its : list Item) (this : loc) (m : gmap Item loc) : gmap Item loc :=
  foldl (fun m i => <[i := this]> m) m its.

(** The node [collapse] leaves behind. *)
Definition collapsed_node (n : D2Tree) (moved : list Item) : D2Tree :=
  mkD2Tree (parent n) (items n ++ moved) None (max n) (min n) (center n).

Definition leaf_at (h : list D2Tree) (c : loc) : bool :=
  match h !! c with
  | Some n => match children n with None => true | Some _ => false end
  | None => false
  end.

Definition count_at (h : list D2Tree) (c : loc) : nat :=
  match h !! c with
  | Some n => length (items n)
  | None => O
  end.

Definition items_at (h : list D2Tree) (c : loc) : list Item :=
  match h !! c with
  | Some n => items n
  | None => []
  end.

(** The collapse rule in the words of the specification: the parent exists,
    all of its children are leaves, and the sum of their item counts times
    [thrash] is below [density]. *)
Definition eligible (props : Props) (h : list D2Tree) (par : option loc) : bool :=
  match par with
  | None => false
  | Some p =>
      match h !! p with
      | None => false
      | Some np =>
          match children np with
          | None => false
          | Some cs =>
              forallb (leaf_at h) cs &&
              Qltb (inject_Z (Z.of_nat (sum_list (count_at h <$> cs))) * thrash props)
                   (inject_Z (density props))
          end
      end
  end.

(** The store after the parent [p] has absorbed its children. *)
Definition collapse_store (s : Store) (p : loc) : Store :=
  match heap s !! p with
  | None => s
  | Some np =>
      let moved := concat (items_at (heap s) <$> default [] (children np)) in
      mkStore (<[p := collapsed_node np moved]> (heap s))
              (repointed (items np ++ moved) p (itemToTreeMap s))
  end.

(** The store after [items.splice(index, 1)] on the container. *)
Definition splice_store (s : Store) (c : loc) (nc : D2Tree) (idx : nat) : Store :=
  mkStore (<[c := with_items (delete idx (items nc)) nc]> (heap s)) (itemToTreeMap s).

Definition remove_store (props : Props) (s : Store) (c : loc) (nc : D2Tree) (idx : nat) : Store :=
  let s1 := splice_store s c nc idx in
  if eligible props (heap s1) (parent nc)
  then collapse_store s1 (default O (parent nc))
  else s1.

(** ** The tree a store holds *)

(** The nodes reachable from a reference, read off the arena. *)
Inductive tree : Type :=
| Leaf (l : loc) (n : D2Tree)
| Branch (l : loc) (n : D2Tree) (t0 t1 t2 t3 : tree).

Definition tree_loc (t : tree) : loc :=
  match t with Leaf l _ => l | Branch l _ _ _ _ _ => l end.

Definition tree_node (t : tree) : D2Tree :=
  match t with Leaf _ n => n | Branch _ n _ _ _ _ => n end.

Inductive rep (h : list D2Tree) : loc -> tree -> Prop :=
| rep_leaf l n :
    h !! l = Some n -> children n = None -> rep h l (Leaf l n)
| rep_branch l n c0 c1 c2 c3 t0 t1 t2 t3 :
    h !! l = Some n -> children n = Some [c0; c1; c2; c3] ->
    rep h c0 t0 -> rep h c1 t1 -> rep h c2 t2 -> rep h c3 t3 ->
    rep h l (Branch l n t0 t1 t2 t3).

(** Items and leaves in the order the stack-driven traversals meet them:
    the last child first. *)
Fixpoint tree_items (t : tree) : list Item :=
  match t with
  | Leaf _ n => items n
  | Branch _ _ t0 t1 t2 t3 =>
      tree_items t3 ++ tree_items t2 ++ tree_items t1 ++ tree_items t0
  end.

Fixpoint tree_leaves (t : tree) : list loc :=
  match t with
  | Leaf l _ => [l]
  | Branch _ _ t0 t1 t2 t3 =>
      tree_leaves t3 ++ tree_leaves t2 ++ tree_leaves t1 ++ tree_leaves t0
  end.

Fixpoint tree_size (t : tree) : nat :=
  match t with
  | Leaf _ _ => 1
  | Branch _ _ t0 t1 t2 t3 =>
      S (tree_size t3 + (tree_size t2 + (tree_size t1 + tree_size t0)))
  end.

(** The nodes of a tree in the order the stack-driven traversal meets them:
    a node before its descendants, the last child first. *)
Fixpoint tree_nodes (t : tree) : list loc :=
  match t with
  | Leaf l _ => [l]
  | Branch l _ t0 t1 t2 t3 =>
      l :: tree_nodes t3 ++ tree_nodes t2 ++ tree_nodes t1 ++ tree_nodes t0
  end.

Section BoxItems.

Variable props : Props.
Variables minX minY maxX maxY : Q.

Local Abbreviation pos := (getItemPosition props).
Local Abbreviation hit := (fun i : Item => in_box minX minY maxX maxY (pos i)).
Local Abbreviation ov := (overlaps minX minY maxX maxY).



End BoxItems.

(** The batch one turn of the loop yields. *)
Definition ring_batch (props : Props) (h : list D2Tree) (x y : Q) (t : tree)
    (closed : gset loc) : list Item :=
  sort_by (distanceSquared props x y)
          (concat (items_at h <$> (filter_closed (tree_leaves t) closed).1)).

Definition kids (t : tree) : list tree :=
  match t with
  | Leaf _ _ => []
  | Branch _ _ t0 t1 t2 t3 => [t0; t1; t2; t3]
  end.

Inductive subtree : tree -> tree -> Prop :=
| subtree_refl t : subtree t t
| subtree_kid t' t k : k ∈ kids t -> subtree t' k -> subtree t' t.

(** [a] lies on the chain of [parent] references that starts at [x]. *)
Inductive under (h : list D2Tree) (a : loc) : loc -> Prop :=
| under_self : under h a a
| under_parent x nx p :
    h !! x = Some nx -> parent nx = Some p -> under h a p -> under h a x.

(** ** The public interface and the stores it reaches *)

(** [new D2Tree({ getItemPosition, density, thrash })]: a fresh store whose
    only node, the root, is at reference [0]. *)
Definition new_D2Tree (props : Props) : outcome loc :=
  constructor props None None None (mkStore [] ∅).

Definition root_node : D2Tree :=
  mkD2Tree None [] None (Infinity, Infinity) (NegInfinity, NegInfinity) (0, 0).

(** The item is among those the default iteration yields. *)
Definition is_stored (s : Store) (i : Item) : Prop :=
  exists fuel all, iterator fuel root s = Done all s /\ i ∈ all.

Definition same_settings (props props' : Props) : Prop :=
  density props' = density props /\ thrash props' = thrash props.

(** The stores a caller can obtain by using the tree as it is meant to be
    used: construction followed by completed calls on the root of [add] for
    an item that is not stored, of [remove], and of [update]; the position
    of an item may change while it is not stored, and the position of a
    stored item changes only right before [update] is called on it.  The
    first index is what the position accessor currently answers. *)
Inductive reachable : Props -> Store -> Prop :=
| reachable_new props s :
    new_D2Tree props = Done root s -> reachable props s
| reachable_add props s fuel item s' :
    reachable props s -> ~ is_stored s item ->
    add props fuel root item s = Done tt s' ->
    reachable props s'
| reachable_remove props s item s' :
    reachable props s -> remove props root item s = Done tt s' ->
    reachable props s'
| reachable_update props props' s fuel item s' :
    reachable props s -> same_settings props props' ->
    (forall i, is_stored s i -> i <> item ->
               getItemPosition props' i = getItemPosition props i) ->
    update props' fuel root item s = Done tt s' ->
    reachable props' s'
| reachable_moved_outside props props' s :
    reachable props s -> same_settings props props' ->
    (forall i, is_stored s i ->
               getItemPosition props' i = getItemPosition props i) ->
    reachable props' s.

(** [add] called for each item of a list in turn. *)
Fixpoint add_all (props : Props) (fuel : nat) (this : loc) (its : list Item) : M unit :=
  match its with
  | [] => ret tt
  | item :: rest => add props fuel this item ;;; add_all props fuel this rest
  end.

(** ** What the proofs ask of a call of add *)

(** What the proofs below need to know about a call of [add]: given an
    attached node whose bounds contain the item's position and an item no
    leaf holds yet, the invariants survive, nodes that already had children
    are left alone, and no other item appears in or disappears from the
    leaves. *)
Definition add_spec (props : Props) (addf : loc -> Item -> M unit) : Prop :=
  forall this item s u s' n,
    Inv s -> Within nobody props (heap s) ->
    heap s !! this = Some n -> attached (heap s) this n ->
    within n (getItemPosition props item) = true ->
    ~ holds (heap s) item ->
    addf this item s = Done u s' ->
    Inv s' /\ Within nobody props (heap s') /\ grows (heap s) (heap s') /\
    (forall l, internal_empty_at (heap s) l -> internal_empty_at (heap s') l) /\
    (forall j, holds (heap s') j -> j = item \/ holds (heap s) j).



(** ** The store of the repository's tests *)

(** Four items at (1,1), (1,-1), (-1,1), (-1,-1), [density = 3],
    [thrash = 1.25]. *)
Definition example_position (i : Item) : point :=
  match i with
  | 0%nat => (1, 1)
  | 1%nat => (1, -1)
  | 2%nat => (-1, 1)
  | _ => (-1, -1)
  end.

Definition example_props : Props := mkProps example_position 3 (5 # 4).

Definition example_leaf (its : list Item) : Store :=
  mkStore [with_items its root_node] (list_to_map ((fun i => (i, root)) <$> its)).

(** The store after adding items 0, 1, 2 and 3 in this order. *)
Definition example_split : Store :=
  mkStore
    [ mkD2Tree None [] (Some [1; 2; 3; 4]%nat) (Infinity, Infinity)
        (NegInfinity, NegInfinity) (1 # 3, 1 # 3);
      mkD2Tree (Some root) [3%nat] None (Fin (1 # 3), Fin (1 # 3))
        (NegInfinity, NegInfinity) (0, 0);
      mkD2Tree (Some root) [2%nat] None (Fin (1 # 3), Infinity)
        (NegInfinity, Fin (1 # 3)) (0, 0);
      mkD2Tree (Some root) [1%nat] None (Infinity, Fin (1 # 3))
        (Fin (1 # 3), NegInfinity) (0, 0);
      mkD2Tree (Some root) [0%nat] None (Infinity, Infinity)
        (Fin (1 # 3), Fin (1 # 3)) (0, 0) ]
    (list_to_map [(0, 4); (1, 3); (2, 2); (3, 1)]%nat).

(** The example after [remove(item 0)]: item counts 1, 1, 1, 0, and
    3 * 1.25 is not below 3, so nothing collapses. *)
Definition example_removed : Store :=
  splice_store example_split 4
    (mkD2Tree (Some root) [0%nat] None (Infinity, Infinity)
       (Fin (1 # 3), Fin (1 # 3)) (0, 0)) 0.




(** * Reasoning about computations *)

Lemma bind_Done {A B} (m : M A) (k : A -> M B) s b s2 :
  bind m k s = Done b s2 <-> exists a s1, m s = Done a s1 /\ k a s1 = Done b s2.
Proof.
  unfold bind. split.
  - destruct (m s) as [a s1| |]; try discriminate. eauto.
  - intros (a & s1 & -> & H). exact H.
Qed.

Lemma get_node_Done l s n s1 :
  get_node l s = Done n s1 <-> heap s !! l = Some n /\ s1 = s.
Proof.
  unfold get_node. destruct (heap s !! l); split.
  - intros [= -> ->]. auto.
  - intros [[= ->] ->]. reflexivity.
  - discriminate.
  - intros [[=] _].
Qed.

Lemma update_node_Done l f s u s1 :
  update_node l f s = Done u s1 <->
  exists n, heap s !! l = Some n /\
            s1 = mkStore (<[l := f n]> (heap s)) (itemToTreeMap s).
Proof.
  unfold update_node. rewrite bind_Done. split.
  - intros (n & s0 & Hg & Hs). apply get_node_Done in Hg as [Hn ->].
    unfold set_node in Hs. injection Hs as _ <-. eauto.
  - intros (n & Hn & ->). exists n, s. split.
    + apply get_node_Done. auto.
    + destruct u. reflexivity.
Qed.

Lemma index_Done {A} (xs : list A) i s x s1 :
  index xs i s = Done x s1 <-> xs !! i = Some x /\ s1 = s.
Proof.
  unfold index. destruct (xs !! i); split.
  - intros [= -> ->]. auto.
  - intros [[= ->] ->]. reflexivity.
  - discriminate.
  - intros [[=] _].
Qed.

(** Peel the first step off a hypothesis [(x <- m ;; k) s = Done _ _]. *)
Ltac mstep H :=
  let a := fresh "a" in
  let s := fresh "s" in
  let H1 := fresh "Hstep" in
  apply bind_Done in H as (a & s & H1 & H).

Lemma readonly_ret {A} (a : A) : readonly (ret a).
Proof. intros s b s1 [= _ ->]. reflexivity. Qed.

Lemma readonly_bind {A B} (m : M A) (k : A -> M B) :
  readonly m -> (forall a, readonly (k a)) -> readonly (bind m k).
Proof.
  intros Hm Hk s b s2 H. mstep H.
  apply Hm in Hstep as ->. eapply Hk, H.
Qed.

Lemma readonly_get_node l : readonly (get_node l).
Proof. intros s n s1 H. apply get_node_Done in H. tauto. Qed.

Lemma readonly_index {A} (xs : list A) i : readonly (index xs i).
Proof. intros s n s1 H. apply index_Done in H. tauto. Qed.

Lemma readonly_map_get i : readonly (map_get i).
Proof. intros s n s1 [= _ ->]. reflexivity. Qed.

Create HintDb readonly.
#[local] Hint Resolve readonly_ret readonly_get_node readonly_index
  readonly_map_get : readonly.

(** ** Comparisons *)

Lemma Qltb_lt a b : Qltb a b = true <-> a < b.
Proof.
  unfold Qltb. rewrite negb_true_iff. split.
  - intros H. apply Qnot_le_lt. intros Hle.
    apply Qle_bool_iff in Hle. congruence.
  - intros H. destruct (Qle_bool b a) eqn:E; [|reflexivity].
    apply Qle_bool_iff in E. lra.
Qed.

Lemma Qltb_ge a b : Qltb a b = false <-> b <= a.
Proof.
  unfold Qltb. rewrite negb_false_iff. apply Qle_bool_iff.
Qed.

Lemma Qle_bool_false a b : Qle_bool a b = false <-> b < a.
Proof.
  rewrite <- Qltb_lt. unfold Qltb. rewrite negb_true_iff. reflexivity.
Qed.

Lemma num_le_fin a b : num_le (Fin a) (Fin b) <-> a <= b.
Proof. unfold num_le. simpl. apply Qle_bool_iff. Qed.

Lemma num_lt_fin a b : num_lt (Fin a) (Fin b) <-> a < b.
Proof. unfold num_lt. simpl. apply Qltb_lt. Qed.

Lemma num_le_trans a b c : num_le a b -> num_le b c -> num_le a c.
Proof.
  unfold num_le. destruct a, b, c; simpl; try congruence.
  rewrite !Qle_bool_iff. lra.
Qed.

Lemma num_lt_le_trans a b c : num_lt a b -> num_le b c -> num_lt a c.
Proof.
  unfold num_le, num_lt. destruct a, b, c; simpl; try congruence.
  rewrite !Qltb_lt, Qle_bool_iff. lra.
Qed.



Lemma within_spec n p :
  within n p = true <->
  num_le (fst (min n)) (Fin (fst p)) /\ num_lt (Fin (fst p)) (fst (max n)) /\
  num_le (snd (min n)) (Fin (snd p)) /\ num_lt (Fin (snd p)) (snd (max n)).
Proof.
  unfold within, num_le, num_lt. rewrite !andb_true_iff. tauto.
Qed.

(** * Invariants of the arena *)

Lemma grows_refl h : grows h h.
Proof. intros l n H. exists n. auto. Qed.

Lemma grows_trans h1 h2 h3 : grows h1 h2 -> grows h2 h3 -> grows h1 h3.
Proof.
  intros H12 H23 l n H.
  destruct (H12 l n H) as (n2 & H2 & Hp & Hmi & Hma & Hc).
  destruct (H23 l n2 H2) as (n3 & H3 & Hp' & Hmi' & Hma' & Hc').
  exists n3. split_and!; try congruence.
  intros Hn. specialize (Hc Hn). subst n2. auto.
Qed.

Lemma grows_keeps h h' : grows h h' -> keeps_readonly h h'.
Proof.
  intros H l n Hl. destruct (H l n Hl) as (n' & ? & ? & ? & ? & _). eauto.
Qed.

Lemma keeps_readonly_insert h l n n' :
  h !! l = Some n -> parent n' = parent n -> min n' = min n -> max n' = max n ->
  keeps_readonly h (<[l := n']> h).
Proof.
  intros Hl Hp Hmi Hma l0 n0 H0. destruct (decide (l0 = l)) as [E|Hne]; [subst l0|].
  - exists n'. rewrite list_lookup_insert_eq by (eapply lookup_lt_Some; eauto).
    rewrite Hl in H0. injection H0 as <-. auto.
  - exists n0. rewrite list_lookup_insert_ne by done. auto.
Qed.

Lemma child_ok_mono h h' l n k c :
  keeps_readonly h h' -> child_ok h l n k c -> child_ok h' l n k c.
Proof.
  intros Hk (Hlt & nc & Hc & Hp & Hmi & Hma).
  destruct (Hk c nc Hc) as (nc' & Hc' & Hp' & Hmi' & Hma').
  split; [exact Hlt|]. exists nc'.
  rewrite Hp', Hmi', Hma'. auto.
Qed.

Lemma node_wf_mono h h' l n :
  keeps_readonly h h' -> node_wf h l n -> node_wf h' l n.
Proof.
  intros Hk [Hp Hc]. split; [exact Hp|].
  intros cs Hcs. destruct (Hc cs Hcs) as (Hlen & Hnd & Hcen & Hch).
  split_and!; auto. intros k c Hkc. eapply child_ok_mono; eauto.
Qed.

Lemma node_wf_leaf h l n :
  (forall p, parent n = Some p -> (p < l)%nat) -> children n = None -> node_wf h l n.
Proof. intros Hp Hc. split; [exact Hp|]. intros cs Hcs. congruence. Qed.

(** Overwriting one node, its readonly fields untouched. *)
Lemma Shape_insert h l n n' :
  Shape h -> h !! l = Some n ->
  parent n' = parent n -> min n' = min n -> max n' = max n ->
  node_wf (<[l := n']> h) l n' ->
  Shape (<[l := n']> h).
Proof.
  intros HS Hl Hp Hmi Hma Hwf l0 n0 H0.
  destruct (decide (l0 = l)) as [E|Hne]; [subst l0|].
  - rewrite list_lookup_insert_eq in H0 by (eapply lookup_lt_Some; eauto).
    injection H0 as <-. auto.
  - rewrite list_lookup_insert_ne in H0 by done.
    eapply node_wf_mono; [|exact (HS l0 n0 H0)].
    eapply keeps_readonly_insert; eauto.
Qed.

Lemma Shape_set_items h l n its :
  Shape h -> h !! l = Some n -> Shape (<[l := with_items its n]> h).
Proof.
  intros HS Hl.
  apply (Shape_insert h l n (with_items its n)); try done.
  eapply node_wf_mono; [eapply keeps_readonly_insert; eauto|].
  exact (HS l n Hl).
Qed.

Lemma Shape_children_exist h p np cs :
  Shape h -> h !! p = Some np -> children np = Some cs ->
  forall c, c ∈ cs -> exists nc, h !! c = Some nc /\ parent nc = Some p /\ (p < c)%nat.
Proof.
  intros HS Hp Hcs c Hc. destruct (HS _ _ Hp) as [_ Hwf].
  destruct (Hwf _ Hcs) as (_ & _ & _ & Hch).
  apply list_elem_of_lookup in Hc as [k Hk].
  destruct (Hch _ _ Hk) as (Hlt & nc & Hnc & Hpar & _). eauto.
Qed.

Lemma Shape_parent_exists h c nc p :
  Shape h -> h !! c = Some nc -> parent nc = Some p ->
  exists np, h !! p = Some np.
Proof.
  intros HS Hc Hp. destruct (HS _ _ Hc) as [Hpar _].
  specialize (Hpar _ Hp). pose proof (lookup_lt_Some _ _ _ Hc).
  apply lookup_lt_is_Some_2. lia.
Qed.

(** ** drill *)

Lemma readonly_drill fuel : forall this x y, readonly (drill fuel this x y).
Proof.
  induction fuel as [|fuel IH]; intros this x y; simpl.
  - intros s a s1 H. discriminate.
  - apply readonly_bind; [auto with readonly|]. intros n.
    destruct (children n); [|auto with readonly].
    apply readonly_bind; auto with readonly.
Qed.

(** The child [drill] descends into contains the point whenever the node
    does. *)
Lemma quadrant_within h l n cs c x y :
  node_wf h l n -> children n = Some cs ->
  cs !! quadrant (center n) x y = Some c ->
  within n (x, y) = true ->
  exists nc, h !! c = Some nc /\ parent nc = Some l /\ within nc (x, y) = true.
Proof.
  intros [_ Hwf] Hcs Hc Hin.
  destruct (Hwf cs Hcs) as (_ & _ & Hcen & Hch).
  destruct (Hch _ _ Hc) as (_ & nc & Hnc & Hpar & Hmi & Hma).
  exists nc. split; [exact Hnc|]. split; [exact Hpar|].
  apply within_spec in Hin as (H1 & H2 & H3 & H4). simpl in *.
  apply within_spec. rewrite Hmi, Hma. revert Hc. unfold quadrant.
  destruct (Qltb x (fst (center n))) eqn:Ex, (Qltb y (snd (center n))) eqn:Ey;
    intros _; simpl; split_and!; auto;
    first [ apply num_lt_fin, Qltb_lt; assumption
          | apply num_le_fin, Qltb_ge; assumption ].
Qed.

Lemma drill_spec fuel : forall this x y s cell s1 n,
  Shape (heap s) -> heap s !! this = Some n -> attached (heap s) this n ->
  within n (x, y) = true ->
  drill fuel this x y s = Done cell s1 ->
  exists nc, live_leaf (heap s) cell nc /\ within nc (x, y) = true.
Proof.
  induction fuel as [|fuel IH]; intros this x y s cell s1 n HS Hthis Hatt Hin H;
    simpl in H.
  - discriminate.
  - mstep H. apply get_node_Done in Hstep as [Hn ->].
    rewrite Hthis in Hn. injection Hn as <-.
    destruct (children n) as [cs|] eqn:Ecs.
    + mstep H. apply index_Done in Hstep as [Hc ->].
      destruct (quadrant_within _ _ _ _ _ _ _ (HS _ _ Hthis) Ecs Hc Hin)
        as (nc & Hnc & Hpar & Hwin).
      eapply IH; eauto. unfold attached. rewrite Hpar.
      exists n, cs. split_and!; auto. eapply list_elem_of_lookup_2, Hc.
    + injection H as <- <-. exists n. split; [|exact Hin]. split_and!; auto.
Qed.

(** ** The centroid lies within the bounds of the items it averages *)

Lemma fold_sum_ge (f : Item -> Q) (a : Q) (its : list Item) : forall acc,
  (forall i, i ∈ its -> a <= f i) ->
  acc + inject_Z (Z.of_nat (length its)) * a <=
  fold_left (fun acc i => acc + f i) its acc.
Proof.
  induction its as [|i its IH]; intros acc H.
  - cbn [fold_left]. change (inject_Z (Z.of_nat (length []))) with 0. lra.
  - cbn [fold_left length]. rewrite Nat2Z.inj_succ. unfold Z.succ.
    rewrite inject_Z_plus.
    assert (a <= f i) by (apply H; left).
    assert (Hrest : forall j, j ∈ its -> a <= f j) by (intros j Hj; apply H; right; exact Hj).
    specialize (IH (acc + f i) Hrest). change (inject_Z 1) with 1. lra.
Qed.

Lemma fold_sum_le (f : Item -> Q) (b : Q) (its : list Item) : forall acc,
  (forall i, i ∈ its -> f i <= b) ->
  fold_left (fun acc i => acc + f i) its acc <=
  acc + inject_Z (Z.of_nat (length its)) * b.
Proof.
  induction its as [|i its IH]; intros acc H.
  - cbn [fold_left]. change (inject_Z (Z.of_nat (length []))) with 0. lra.
  - cbn [fold_left length]. rewrite Nat2Z.inj_succ. unfold Z.succ.
    rewrite inject_Z_plus.
    assert (f i <= b) by (apply H; left).
    assert (Hrest : forall j, j ∈ its -> f j <= b) by (intros j Hj; apply H; right; exact Hj).
    specialize (IH (acc + f i) Hrest). change (inject_Z 1) with 1. lra.
Qed.

Lemma length_pos_Q (its : list Item) :
  its <> [] -> 0 < inject_Z (Z.of_nat (length its)).
Proof.
  intros H. destruct its as [|i its]; [congruence|].
  change 0 with (inject_Z 0). rewrite <- Zlt_Qlt. simpl length. lia.
Qed.

Lemma mean_ge (f : Item -> Q) (a : Q) (its : list Item) :
  its <> [] -> (forall i, i ∈ its -> a <= f i) ->
  a <= fold_left (fun acc i => acc + f i) its 0 / inject_Z (Z.of_nat (length its)).
Proof.
  intros Hne H. apply Qle_shift_div_l; [apply length_pos_Q, Hne|].
  pose proof (fold_sum_ge f a its 0 H). lra.
Qed.

Lemma mean_le (f : Item -> Q) (b : Q) (its : list Item) :
  its <> [] -> (forall i, i ∈ its -> f i <= b) ->
  fold_left (fun acc i => acc + f i) its 0 / inject_Z (Z.of_nat (length its)) <= b.
Proof.
  intros Hne H. apply Qle_shift_div_r; [apply length_pos_Q, Hne|].
  pose proof (fold_sum_le f b its 0 H). lra.
Qed.

Lemma centroid_in_bounds props n :
  items n <> [] -> items_within props n ->
  center_in_bounds (with_center (centroid props (items n)) n).
Proof.
  intros Hne Hin.
  assert (Hall : forall i, i ∈ items n ->
      num_le (fst (min n)) (Fin (fst (getItemPosition props i))) /\
      num_lt (Fin (fst (getItemPosition props i))) (fst (max n)) /\
      num_le (snd (min n)) (Fin (snd (getItemPosition props i))) /\
      num_lt (Fin (snd (getItemPosition props i))) (snd (max n))).
  { intros i Hi. apply within_spec, Hin, Hi. }
  destruct (items n) as [|i0 rest] eqn:Eits; [congruence|].
  pose proof (Hall i0 ltac:(left)) as (W1 & W2 & W3 & W4).
  unfold center_in_bounds, centroid. cbn [center with_center min max fst snd].
  split_and!.
  - destruct (fst (min n)) as [| a |]; [reflexivity| |discriminate W1].
    apply num_le_fin, mean_ge; [discriminate|].
    intros i Hi. apply num_le_fin, (Hall i Hi).
  - destruct (fst (max n)) as [| b |]; [discriminate W2| |reflexivity].
    apply num_le_fin, mean_le; [discriminate|].
    intros i Hi. apply Qlt_le_weak, num_lt_fin, (Hall i Hi).
  - destruct (snd (min n)) as [| a |]; [reflexivity| |discriminate W3].
    apply num_le_fin, mean_ge; [discriminate|].
    intros i Hi. apply num_le_fin, (Hall i Hi).
  - destruct (snd (max n)) as [| b |]; [discriminate W4| |reflexivity].
    apply num_le_fin, mean_le; [discriminate|].
    intros i Hi. apply Qlt_le_weak, num_lt_fin, (Hall i Hi).
Qed.

(** ** Changing the items of one node *)

Lemma is_root_keeps h h' r :
  keeps_readonly h h' -> is_root h r -> is_root h' r.
Proof.
  intros Hk (n & Hr & Hp & Hmi & Hma).
  destruct (Hk _ _ Hr) as (n' & Hr' & Hp' & Hmi' & Hma').
  exists n'. split_and!; congruence.
Qed.

Section SetItems.

Variables (h : list D2Tree) (c : loc) (nc : D2Tree) (its : list Item).
Hypothesis Hc : h !! c = Some nc.

Local Abbreviation h' := (<[c := with_items its nc]> h).

Lemma set_items_lookup_eq : h' !! c = Some (with_items its nc).
Proof. apply list_lookup_insert_eq. eapply lookup_lt_Some, Hc. Qed.

Lemma set_items_lookup_ne l : l <> c -> h' !! l = h !! l.
Proof. intros Hne. apply list_lookup_insert_ne. congruence. Qed.

Lemma set_items_inv l n' :
  h' !! l = Some n' ->
  exists n, h !! l = Some n /\ parent n' = parent n /\ children n' = children n /\
            min n' = min n /\ max n' = max n /\ center n' = center n /\
            (l <> c -> n' = n) /\ (l = c -> n = nc /\ n' = with_items its nc).
Proof.
  intros H. destruct (decide (l = c)) as [E|Hne]; [subst l|].
  - rewrite set_items_lookup_eq in H. injection H as <-.
    exists nc. split_and!; auto. congruence.
  - rewrite set_items_lookup_ne in H by exact Hne.
    exists n'. split_and!; auto. congruence.
Qed.

Lemma set_items_fwd l n :
  h !! l = Some n ->
  exists n', h' !! l = Some n' /\ parent n' = parent n /\ children n' = children n /\
             min n' = min n /\ max n' = max n.
Proof.
  intros H. destruct (decide (l = c)) as [E|Hne]; [subst l|].
  - rewrite Hc in H. injection H as <-. exists (with_items its nc).
    split; [apply set_items_lookup_eq|auto].
  - exists n. rewrite set_items_lookup_ne by exact Hne. auto.
Qed.

Lemma attached_set_items l n n' :
  parent n' = parent n -> attached h' l n' <-> attached h l n.
Proof.
  intros Hp. unfold attached. rewrite Hp. destruct (parent n) as [p|]; [|tauto].
  split.
  - intros (np' & cs & Hnp' & Hcs & Hl).
    destruct (set_items_inv _ _ Hnp') as (np & Hnp & _ & Hch & _).
    exists np, cs. split_and!; auto. congruence.
  - intros (np & cs & Hnp & Hcs & Hl).
    destruct (set_items_fwd _ _ Hnp) as (np' & Hnp' & _ & Hch & _).
    exists np', cs. split_and!; auto. congruence.
Qed.

Lemma Links_set_items : Links h -> Links h'.
Proof.
  intros [HS Hint Hroot Horph]. split.
  - apply Shape_set_items; auto.
  - intros l n' Hl Hch. destruct (set_items_inv _ _ Hl) as (n & Hn & Hp & Hch' & _).
    apply (attached_set_items l n n' Hp). apply (Hint _ _ Hn). congruence.
  - eapply is_root_keeps; [|exact Hroot].
    eapply keeps_readonly_insert; eauto.
  - intros l n' Hl Hp. destruct (set_items_inv _ _ Hl) as (n & Hn & Hp' & _).
    apply (Horph _ _ Hn). congruence.
Qed.

Lemma live_leaf_set_items l n' :
  live_leaf h' l n' <->
  (l = c /\ n' = with_items its nc /\ live_leaf h c nc) \/
  (l <> c /\ live_leaf h l n').
Proof.
  unfold live_leaf. split.
  - intros (Hl & Hatt & Hleaf).
    destruct (set_items_inv _ _ Hl) as (n & Hn & Hp & Hch & _ & _ & _ & Hne & Heq).
    apply (attached_set_items l n n' Hp) in Hatt.
    destruct (decide (l = c)) as [E|Hneq].
    + destruct (Heq E) as [-> ->]. subst l. left. split_and!; auto.
    + right. rewrite (Hne Hneq) in *. split_and!; auto.
  - intros [(-> & -> & Hl & Hatt & Hleaf)|(Hne & Hl & Hatt & Hleaf)].
    + split_and!; [apply set_items_lookup_eq| |exact Hleaf].
      apply (attached_set_items c nc (with_items its nc) eq_refl), Hatt.
    + split_and!; [rewrite set_items_lookup_ne by exact Hne; exact Hl| |exact Hleaf].
      apply (attached_set_items l n' n' eq_refl), Hatt.
Qed.

End SetItems.

(** *** Taking items away *)

Section Shrink.

Variables (s : Store) (c : loc) (nc : D2Tree) (its : list Item).
Hypothesis Hc : heap s !! c = Some nc.
Hypothesis Hsub : forall i, i ∈ its -> i ∈ items nc.
Hypothesis Hnd : NoDup (items nc) -> NoDup its.

Local Abbreviation s' :=
  (mkStore (<[c := with_items its nc]> (heap s)) (itemToTreeMap s)).

Lemma Inv_shrink : Inv s -> Inv s'.
Proof.
  intros [HL Hidx Hnod Hsound Hvalid]. split; cbn [heap itemToTreeMap].
  - apply Links_set_items; auto.
  - intros l n' i Hlive Hi.
    apply (live_leaf_set_items _ _ _ its Hc) in Hlive
      as [(-> & -> & Hlive)|(Hne & Hlive)].
    + eapply Hidx; eauto.
    + eapply Hidx; eauto.
  - intros l n' Hlive.
    apply (live_leaf_set_items _ _ _ its Hc) in Hlive
      as [(-> & -> & Hlive)|(Hne & Hlive)].
    + apply Hnd. eapply Hnod; eauto.
    + eapply Hnod; eauto.
  - intros i c' nc' Hm Hc' Hi.
    destruct (set_items_inv _ _ _ its Hc _ _ Hc')
      as (n & Hn & Hp & _ & _ & _ & _ & Hne & Heq).
    apply (attached_set_items _ _ _ its Hc c' n nc' Hp).
    eapply Hsound; eauto.
    destruct (decide (c' = c)) as [E|Hneq].
    + destruct (Heq E) as [-> ->]. apply Hsub, Hi.
    + rewrite <- (Hne Hneq). exact Hi.
  - intros i c' Hm. rewrite length_insert. eauto.
Qed.

Lemma holds_shrink j : holds (heap s') j -> holds (heap s) j.
Proof.
  intros (l & n' & Hlive & Hj). cbn [heap] in Hlive.
  apply (live_leaf_set_items _ _ _ its Hc) in Hlive
    as [(-> & -> & Hlive)|(Hne & Hlive)].
  - exists c, nc. split; [exact Hlive|]. apply Hsub, Hj.
  - exists l, n'. auto.
Qed.

Lemma Within_shrink moved props :
  Within moved props (heap s) -> Within moved props (heap s').
Proof.
  intros HW l n' i Hlive Hi Hm. cbn [heap] in Hlive.
  apply (live_leaf_set_items _ _ _ its Hc) in Hlive
    as [(-> & -> & Hlive)|(Hne & Hlive)].
  - apply (HW c nc i Hlive); auto.
  - apply (HW l n' i Hlive); auto.
Qed.

Lemma internal_empty_shrink :
  internal_empty (heap s) -> internal_empty (heap s').
Proof.
  intros He l n' Hl Hch. cbn [heap] in Hl.
  destruct (set_items_inv _ _ _ its Hc _ _ Hl)
    as (n & Hn & _ & Hch' & _ & _ & _ & Hne & Heq).
  destruct (decide (l = c)) as [E|Hneq].
  - destruct (Heq E) as [-> ->]. cbn [items with_items].
    assert (Hemp : items nc = []) by (eapply He; eauto; congruence).
    destruct its as [|i its0]; [reflexivity|].
    specialize (Hsub i ltac:(left)). rewrite Hemp in Hsub. inversion Hsub.
  - rewrite (Hne Hneq). eapply He; eauto. rewrite <- (Hne Hneq). exact Hch.
Qed.

End Shrink.

(** *** Appending an item to a leaf of the tree *)

Section Push.

Variables (s : Store) (c : loc) (nc : D2Tree) (item : Item).
Hypothesis Hlive : live_leaf (heap s) c nc.
Hypothesis Hfresh : ~ holds (heap s) item.

Local Abbreviation s' :=
  (mkStore (<[c := with_items (items nc ++ [item]) nc]> (heap s))
           (<[item := c]> (itemToTreeMap s))).

Lemma Inv_push : Inv s -> Inv s'.
Proof.
  pose proof (proj1 Hlive) as Hc.
  intros [HL Hidx Hnod Hsound Hvalid]. split; cbn [heap itemToTreeMap].
  - apply Links_set_items; auto.
  - intros l n' i Hl Hi.
    apply (live_leaf_set_items _ _ _ _ Hc) in Hl as [(-> & -> & Hl)|(Hne & Hl)].
    + cbn [items with_items] in Hi. apply elem_of_app in Hi as [Hi|Hi].
      * rewrite lookup_insert_ne; [eapply Hidx; eauto|].
        intros ->. apply Hfresh. exists c, nc. auto.
      * apply list_elem_of_singleton in Hi as ->. apply lookup_insert_eq.
    + rewrite lookup_insert_ne; [eapply Hidx; eauto|].
      intros ->. apply Hfresh. exists l, n'. auto.
  - intros l n' Hl.
    apply (live_leaf_set_items _ _ _ _ Hc) in Hl as [(-> & -> & Hl)|(Hne & Hl)].
    + cbn [items with_items]. apply NoDup_app. split_and!.
      * eapply Hnod; eauto.
      * intros i Hi Hi'. apply list_elem_of_singleton in Hi' as ->.
        apply Hfresh. exists c, nc. auto.
      * apply NoDup_singleton.
    + eapply Hnod; eauto.
  - intros i c' nc' Hm Hc' Hi.
    destruct (set_items_inv _ _ _ _ Hc _ _ Hc')
      as (n & Hn & Hp & _ & _ & _ & _ & Hne & Heq).
    apply (attached_set_items _ _ _ _ Hc c' n nc' Hp).
    destruct (decide (c' = c)) as [E|Hneq].
    + destruct (Heq E) as [-> ->]. subst c'. apply Hlive.
    + rewrite (Hne Hneq) in *. destruct (decide (i = item)) as [->|Hi'].
      * rewrite lookup_insert_eq in Hm. congruence.
      * rewrite lookup_insert_ne in Hm by done. eapply Hsound; eauto.
  - intros i c' Hm. rewrite length_insert.
    destruct (decide (i = item)) as [->|Hi'].
    + rewrite lookup_insert_eq in Hm. injection Hm as <-.
      eapply lookup_lt_Some, Hc.
    + rewrite lookup_insert_ne in Hm by done. eauto.
Qed.

Lemma holds_push j : holds (heap s') j -> j = item \/ holds (heap s) j.
Proof.
  pose proof (proj1 Hlive) as Hc.
  intros (l & n' & Hl & Hj). cbn [heap] in Hl.
  apply (live_leaf_set_items _ _ _ _ Hc) in Hl as [(-> & -> & Hl)|(Hne & Hl)].
  - cbn [items with_items] in Hj. apply elem_of_app in Hj as [Hj|Hj].
    + right. exists c, nc. auto.
    + left. apply list_elem_of_singleton, Hj.
  - right. exists l, n'. auto.
Qed.

Lemma Within_push moved props :
  (~ moved item -> within nc (getItemPosition props item) = true) ->
  Within moved props (heap s) -> Within moved props (heap s').
Proof.
  pose proof (proj1 Hlive) as Hc.
  intros Hin HW l n' i Hl Hi Hm. cbn [heap] in Hl.
  apply (live_leaf_set_items _ _ _ _ Hc) in Hl as [(-> & -> & Hl)|(Hne & Hl)].
  - cbn [items with_items] in Hi. apply elem_of_app in Hi as [Hi|Hi].
    + apply (HW c nc i Hl); auto.
    + apply list_elem_of_singleton in Hi as ->. apply Hin, Hm.
  - apply (HW l n' i Hl); auto.
Qed.

End Push.

(** ** split *)

Lemma constructor_Done props par mx mn s c s1 :
  constructor props par mx mn s = Done c s1 <->
  (1 < density props)%Z /\ c = length (heap s) /\
  s1 = mkStore (heap s ++ [mkD2Tree par [] None
                             (default (Infinity, Infinity) mx)
                             (default (NegInfinity, NegInfinity) mn) (0, 0)])
               (itemToTreeMap s).
Proof.
  unfold constructor, alloc, throw.
  destruct (density props <=? 1)%Z eqn:E.
  - split; [discriminate|]. intros [H _]. apply Z.leb_le in E. lia.
  - apply Z.leb_gt in E. split.
    + intros [= <- <-]. auto.
    + intros (_ & -> & ->). reflexivity.
Qed.

Lemma shouldSplit_Done props this s b s1 :
  shouldSplit props this s = Done b s1 <->
  exists n, heap s !! this = Some n /\ b = shouldSplit_items props (items n) /\ s1 = s.
Proof.
  unfold shouldSplit. rewrite bind_Done. split.
  - intros (n & s0 & Hn & Hr). apply get_node_Done in Hn as [Hn ->].
    injection Hr as <- <-. eauto.
  - intros (n & Hn & -> & ->). exists n, s. split; [|reflexivity].
    apply get_node_Done. auto.
Qed.

Lemma shouldSplit_items_nonempty props its :
  shouldSplit_items props its = true -> its <> [].
Proof.
  unfold shouldSplit_items. destruct its; [|discriminate].
  destruct (Z.of_nat (length []) <? density props)%Z; discriminate.
Qed.

Lemma split_unfold props addf fuel this s u s' :
  split props addf fuel this s = Done u s' ->
  exists n, heap s !! this = Some n /\ (1 < density props)%Z /\
    (readd_items addf fuel this O ;;; update_node this (with_items []))
      (mkStore (split_heap props (heap s) this n) (itemToTreeMap s)) = Done u s'.
Proof.
  intros H. unfold split in H.
  mstep H. apply get_node_Done in Hstep as [Hn ->]. rename a into n.
  mstep H. apply update_node_Done in Hstep as (n0 & Hn0 & ->).
  rewrite Hn in Hn0. injection Hn0 as <-.
  mstep H. apply constructor_Done in Hstep as (Hd & -> & ->).
  mstep H. apply constructor_Done in Hstep as (_ & -> & ->).
  mstep H. apply constructor_Done in Hstep as (_ & -> & ->).
  mstep H. apply constructor_Done in Hstep as (_ & -> & ->).
  mstep H. apply update_node_Done in Hstep as (n1 & Hn1 & ->).
  cbn [heap itemToTreeMap from_option id] in *.
  pose proof (lookup_lt_Some _ _ _ Hn) as Hlt.
  rewrite !length_app, !length_insert in H. cbn [length] in H.
  replace (length (heap s) + 1)%nat with (S (length (heap s))) in H by lia.
  replace (S (length (heap s)) + 1)%nat with (S (S (length (heap s)))) in H by lia.
  replace (S (S (length (heap s))) + 1)%nat with (S (S (S (length (heap s))))) in H by lia.
  rewrite <- !app_assoc in Hn1, H. cbn [app] in Hn1, H.
  rewrite lookup_app_l in Hn1 by (rewrite length_insert; exact Hlt).
  rewrite list_lookup_insert_eq in Hn1 by exact Hlt. injection Hn1 as <-.
  rewrite insert_app_l in H by (rewrite length_insert; exact Hlt).
  rewrite list_insert_insert_eq in H.
  exists n. split_and!; [exact Hn|exact Hd|exact H].
Qed.

Lemma split_heap_lookup_old props h this n l :
  h !! this = Some n -> l <> this -> (l < length h)%nat ->
  split_heap props h this n !! l = h !! l.
Proof.
  intros Hn Hne Hlt. unfold split_heap.
  rewrite lookup_app_l by (rewrite length_insert; exact Hlt).
  apply list_lookup_insert_ne. congruence.
Qed.

Lemma split_heap_lookup_this props h this n :
  h !! this = Some n ->
  split_heap props h this n !! this = Some (split_node props n (length h)).
Proof.
  intros Hn. pose proof (lookup_lt_Some _ _ _ Hn) as Hlt. unfold split_heap.
  rewrite lookup_app_l by (rewrite length_insert; exact Hlt).
  apply list_lookup_insert_eq, Hlt.
Qed.

Lemma split_heap_lookup_new props h this n k :
  split_heap props h this n !! (length h + k)%nat =
  split_children this n (centroid props (items n)) !! k.
Proof.
  unfold split_heap. rewrite lookup_app_r by (rewrite length_insert; lia).
  rewrite length_insert. f_equal. lia.
Qed.

Lemma split_heap_length props h this n :
  length (split_heap props h this n) = (length h + 4)%nat.
Proof.
  unfold split_heap. rewrite length_app, length_insert. reflexivity.
Qed.

Lemma grows_split_heap props h this n :
  h !! this = Some n -> children n = None ->
  grows h (split_heap props h this n).
Proof.
  intros Hn Hleaf l n0 H0. destruct (decide (l = this)) as [E|Hne]; [subst l|].
  - rewrite Hn in H0. injection H0 as <-.
    exists (split_node props n (length h)).
    rewrite split_heap_lookup_this by exact Hn. split_and!; auto.
    intros Hc. congruence.
  - exists n0. rewrite split_heap_lookup_old; eauto using lookup_lt_Some.
Qed.

Lemma NoDup_four (len : nat) : NoDup [len; S len; S (S len); S (S (S len))].
Proof.
  rewrite !NoDup_cons, !not_elem_of_cons.
  split_and!; try lia; try apply not_elem_of_nil. apply NoDup_nil_2.
Qed.

Lemma Shape_split_heap props h this n :
  Shape h -> h !! this = Some n -> children n = None -> items n <> [] ->
  items_within props n ->
  Shape (split_heap props h this n).
Proof.
  intros HS Hn Hleaf Hne Hwithin.
  pose proof (lookup_lt_Some _ _ _ Hn) as Hlt.
  pose proof (grows_keeps _ _ (grows_split_heap props h this n Hn Hleaf)) as Hk.
  destruct (HS _ _ Hn) as [Hpar _].
  intros l n0 H0. destruct (decide (l < length h)%nat) as [Hl|Hl].
  - destruct (decide (l = this)) as [E|Hneq]; [subst l|].
    + rewrite split_heap_lookup_this in H0 by exact Hn. injection H0 as <-.
      split; [exact Hpar|].
      intros cs [= <-]. split_and!.
      * reflexivity.
      * apply NoDup_four.
      * apply (centroid_in_bounds props n Hne Hwithin).
      * intros k c Hkc.
        assert (Hc : c = (length h + k)%nat /\ (k < 4)%nat).
        { destruct k as [|[|[|[|k]]]]; cbn in Hkc; try discriminate;
            injection Hkc as <-; lia. }
        destruct Hc as [-> Hk4]. split; [lia|].
        rewrite split_heap_lookup_new.
        destruct k as [|[|[|[|k]]]]; try lia; cbn;
          eexists; split_and!; reflexivity.
    + rewrite split_heap_lookup_old in H0 by auto.
      eapply node_wf_mono; eauto.
  - assert (exists k, l = (length h + k)%nat) as [k ->] by (exists (l - length h)%nat; lia).
    rewrite split_heap_lookup_new in H0.
    assert (Hn0 : parent n0 = Some this /\ children n0 = None).
    { destruct k as [|[|[|[|k]]]]; cbn in H0; try discriminate;
        injection H0 as <-; auto. }
    destruct Hn0 as (Hp0 & Hc0).
    apply node_wf_leaf; [|exact Hc0]. intros p Hp. rewrite Hp0 in Hp.
    injection Hp as <-. lia.
Qed.

Lemma split_heap_new_node props h this n l n0 :
  (length h <= l)%nat -> split_heap props h this n !! l = Some n0 ->
  parent n0 = Some this /\ children n0 = None /\ items n0 = [] /\
  l ∈ [length h; S (length h); S (S (length h)); S (S (S (length h)))].
Proof.
  intros Hl H0.
  assert (exists k, l = (length h + k)%nat) as [k ->] by (exists (l - length h)%nat; lia).
  rewrite split_heap_lookup_new in H0.
  destruct k as [|[|[|[|k]]]]; cbn in H0; try discriminate;
    injection H0 as <-; split_and!; auto;
    rewrite !elem_of_cons; [left|right; left|right; right; left|right; right; right; left]; lia.
Qed.

Lemma grows_insert_leaf h l n n' :
  h !! l = Some n -> children n = None ->
  parent n' = parent n -> min n' = min n -> max n' = max n ->
  grows h (<[l := n']> h).
Proof.
  intros Hl Hleaf Hp Hmi Hma l0 n0 H0.
  destruct (decide (l0 = l)) as [E|Hne]; [subst l0|].
  - exists n'. rewrite list_lookup_insert_eq by (eapply lookup_lt_Some; eauto).
    rewrite Hl in H0. injection H0 as <-. split_and!; auto. congruence.
  - exists n0. rewrite list_lookup_insert_ne by done. auto.
Qed.


(** *** The store right after the children have been created *)

Section SplitInit.

Variables (props : Props) (s : Store) (this : loc) (n : D2Tree).
Hypothesis Hlive : live_leaf (heap s) this n.
Hypothesis Hne : items n <> [].
Hypothesis Hin : items_within props n.

Local Abbreviation h := (heap s).
Local Abbreviation h' := (split_heap props (heap s) this n).
Local Abbreviation s' := (mkStore (split_heap props (heap s) this n) (itemToTreeMap s)).

Lemma split_heap_attached_old l nl nl' :
  Shape h -> (l < length h)%nat -> h !! l = Some nl -> parent nl' = parent nl ->
  attached h' l nl' <-> attached h l nl.
Proof.
  destruct Hlive as (Hn & _ & Hleaf).
  intros HS Hl Hnl Hp. unfold attached. rewrite Hp.
  destruct (parent nl) as [p|] eqn:Ep; [|tauto].
  destruct (HS _ _ Hnl) as [Hpar _]. specialize (Hpar _ Ep).
  split.
  - intros (np & cs & Hnp & Hcs & Hlcs).
    destruct (decide (p = this)) as [E|Hneq]; [subst p|].
    + rewrite split_heap_lookup_this in Hnp by exact Hn. injection Hnp as <-.
      cbn in Hcs. injection Hcs as <-.
      rewrite !elem_of_cons, elem_of_nil in Hlcs. lia.
    + rewrite split_heap_lookup_old in Hnp by (auto; lia). eauto.
  - intros (np & cs & Hnp & Hcs & Hlcs).
    assert (p <> this) by (intros ->; congruence).
    exists np, cs. rewrite split_heap_lookup_old by (auto; lia). auto.
Qed.

Lemma split_heap_live_leaf l nl :
  Shape h -> live_leaf h' l nl ->
  ((l < length h)%nat /\ l <> this /\ live_leaf h l nl) \/
  ((length h <= l)%nat /\ items nl = []).
Proof.
  destruct Hlive as (Hn & _ & Hleaf).
  intros HS (Hl & Hatt & Hlf). destruct (decide (l < length h)%nat) as [Hlt|Hge].
  - left. destruct (decide (l = this)) as [E|Hneq]; [subst l|].
    + rewrite split_heap_lookup_this in Hl by exact Hn. injection Hl as <-.
      discriminate Hlf.
    + rewrite split_heap_lookup_old in Hl by auto.
      split_and!; auto. split_and!; auto.
      apply (split_heap_attached_old l nl nl HS Hlt Hl eq_refl), Hatt.
  - right. split; [lia|].
    apply (split_heap_new_node props h this n l nl ltac:(lia) Hl).
Qed.

Lemma Links_split_heap : Links h -> Links h'.
Proof.
  destruct Hlive as (Hn & Hatt & Hleaf).
  intros [HS Hint Hroot Horph]. split.
  - apply Shape_split_heap; auto.
  - intros l nl Hl Hch. destruct (decide (l < length h)%nat) as [Hlt|Hge].
    + destruct (decide (l = this)) as [E|Hneq]; [subst l|].
      * rewrite split_heap_lookup_this in Hl by exact Hn. injection Hl as <-.
        apply (split_heap_attached_old this n _ HS Hlt Hn eq_refl), Hatt.
      * rewrite split_heap_lookup_old in Hl by auto.
        apply (split_heap_attached_old l nl nl HS Hlt Hl eq_refl).
        apply (Hint _ _ Hl Hch).
    + destruct (split_heap_new_node props h this n l nl ltac:(lia) Hl)
        as (_ & Hc & _). congruence.
  - eapply is_root_keeps; [|exact Hroot].
    apply grows_keeps, grows_split_heap; auto.
  - intros l nl Hl Hp. destruct (decide (l < length h)%nat) as [Hlt|Hge].
    + destruct (decide (l = this)) as [E|Hneq]; [subst l|].
      * rewrite split_heap_lookup_this in Hl by exact Hn. injection Hl as <-.
        apply (Horph _ _ Hn). exact Hp.
      * rewrite split_heap_lookup_old in Hl by auto. eapply Horph; eauto.
    + destruct (split_heap_new_node props h this n l nl ltac:(lia) Hl)
        as (Hp' & _). congruence.
Qed.

Lemma Inv_split_heap : Inv s -> Inv s'.
Proof.
  destruct Hlive as (Hn & Hatt & Hleaf).
  pose proof (lookup_lt_Some _ _ _ Hn) as Hthis.
  intros HI. pose proof HI as [HL Hidx Hnod Hsound Hvalid].
  pose proof (links_shape _ HL) as HS.
  split; cbn [heap itemToTreeMap].
  - apply Links_split_heap, HL.
  - intros l nl i Hl Hi.
    destruct (split_heap_live_leaf l nl HS Hl) as [(_ & _ & Hl')|(_ & Hemp)].
    + eapply Hidx; eauto.
    + rewrite Hemp in Hi. inversion Hi.
  - intros l nl Hl.
    destruct (split_heap_live_leaf l nl HS Hl) as [(_ & _ & Hl')|(_ & Hemp)].
    + eapply Hnod; eauto.
    + rewrite Hemp. apply NoDup_nil_2.
  - intros i c nc Hm Hc Hi. destruct (decide (c < length h)%nat) as [Hlt|Hge].
    + destruct (decide (c = this)) as [E|Hneq]; [subst c|].
      * rewrite split_heap_lookup_this in Hc by exact Hn. injection Hc as <-.
        apply (split_heap_attached_old this n _ HS Hlt Hn eq_refl), Hatt.
      * rewrite split_heap_lookup_old in Hc by auto.
        apply (split_heap_attached_old c nc nc HS Hlt Hc eq_refl).
        eapply Hsound; eauto.
    + destruct (split_heap_new_node props h this n c nc ltac:(lia) Hc)
        as (_ & _ & Hemp & _). rewrite Hemp in Hi. inversion Hi.
  - intros i c Hm. rewrite split_heap_length. specialize (Hvalid _ _ Hm). lia.
Qed.

Lemma holds_split_heap j :
  Inv s -> holds h' j -> holds h j /\ j ∉ items n.
Proof.
  intros HI (l & nl & Hl & Hj).
  pose proof (links_shape _ (inv_links _ HI)) as HS.
  destruct (split_heap_live_leaf l nl HS Hl) as [(_ & Hneq & Hl')|(_ & Hemp)].
  - split; [exists l, nl; auto|]. intros Hjn.
    pose proof (inv_index _ HI _ _ _ Hl' Hj) as H1.
    pose proof (inv_index _ HI _ _ _ Hlive Hjn) as H2. congruence.
  - rewrite Hemp in Hj. inversion Hj.
Qed.

Lemma Within_split_heap moved :
  Shape h -> Within moved props h -> Within moved props h'.
Proof.
  intros HS HW l nl i Hl Hi Hm.
  destruct (split_heap_live_leaf l nl HS Hl) as [(_ & _ & Hl')|(_ & Hemp)].
  - eapply HW; eauto.
  - rewrite Hemp in Hi. inversion Hi.
Qed.

End SplitInit.

(** ** add keeps the invariants *)

Lemma internal_empty_split_heap props h this n l :
  h !! this = Some n -> l <> this ->
  internal_empty_at h l -> internal_empty_at (split_heap props h this n) l.
Proof.
  intros Hn Hne He n0 H0. destruct (decide (l < length h)%nat) as [Hl|Hl].
  - rewrite split_heap_lookup_old in H0 by auto. apply He, H0.
  - destruct (split_heap_new_node props h this n l n0 ltac:(lia) H0)
      as (_ & Hc & _). congruence.
Qed.

Lemma drop_lookup_cons {A} (l : list A) i x :
  l !! i = Some x -> drop i l = x :: drop (S i) l.
Proof.
  revert i. induction l as [|a l IH]; intros i H; [discriminate|].
  destruct i as [|i]; simplify_eq/=; [reflexivity|]. apply IH. assumption.
Qed.

Lemma readd_items_spec props addf :
  add_spec props addf ->
  forall fuel this i s u s' n,
    Inv s -> Within nobody props (heap s) ->
    heap s !! this = Some n -> children n <> None ->
    items_within props n -> NoDup (drop i (items n)) ->
    (forall j, j ∈ drop i (items n) -> ~ holds (heap s) j) ->
    readd_items addf fuel this i s = Done u s' ->
    Inv s' /\ Within nobody props (heap s') /\ grows (heap s) (heap s') /\
    (forall l, internal_empty_at (heap s) l -> internal_empty_at (heap s') l) /\
    (forall j, holds (heap s') j -> j ∈ drop i (items n) \/ holds (heap s) j).
Proof.
  intros Hadd. induction fuel as [|fuel IH];
    intros this i s u s' n HI HW Hthis Hint Hin Hnd Hfresh H;
    simpl in H; [discriminate|].
  mstep H. apply get_node_Done in Hstep as [Hn ->].
  rewrite Hthis in Hn. injection Hn as <-.
  destruct (items n !! i) as [item|] eqn:Ei.
  - mstep H. rewrite (drop_lookup_cons _ _ _ Ei) in Hnd, Hfresh |- *.
    apply NoDup_cons in Hnd as [Hnotin Hnd].
    assert (Hitem : within n (getItemPosition props item) = true).
    { apply Hin. eapply list_elem_of_lookup_2, Ei. }
    destruct (Hadd _ _ _ _ _ _ HI HW Hthis
                (links_internal _ (inv_links _ HI) _ _ Hthis Hint) Hitem
                (Hfresh item ltac:(left)) Hstep)
      as (HI1 & HW1 & Hg1 & He1 & Hh1).
    destruct (Hg1 _ _ Hthis) as (n1 & Hthis1 & _ & _ & _ & Hsame).
    rewrite (Hsame Hint) in Hthis1.
    assert (Hfresh1 : forall j, j ∈ drop (S i) (items n) -> ~ holds (heap s0) j).
    { intros j Hj Hh. destruct (Hh1 _ Hh) as [->|Hh'].
      - contradiction.
      - apply (Hfresh j); [right; exact Hj|exact Hh']. }
    destruct (IH _ _ _ _ _ _ HI1 HW1 Hthis1 Hint Hin Hnd Hfresh1 H)
      as (HI2 & HW2 & Hg2 & He2 & Hh2).
    split_and!; [exact HI2|exact HW2|eapply grows_trans; eauto|auto|].
    intros j Hh. destruct (Hh2 _ Hh) as [Hj|Hh'].
    + left. right. exact Hj.
    + destruct (Hh1 _ Hh') as [->|Hh'']; [left; left|right; exact Hh''].
  - injection H as _ <-. split_and!; [exact HI|exact HW|apply grows_refl|auto|auto].
Qed.

Lemma split_spec props addf :
  add_spec props addf ->
  forall fuel this s u s' n,
    Inv s -> Within nobody props (heap s) ->
    live_leaf (heap s) this n -> items n <> [] ->
    split props addf fuel this s = Done u s' ->
    Inv s' /\ Within nobody props (heap s') /\ grows (heap s) (heap s') /\
    (forall l, internal_empty_at (heap s) l -> internal_empty_at (heap s') l) /\
    (forall j, holds (heap s') j -> holds (heap s) j) /\
    heap s' !! this =
      Some (with_items [] (split_node props n (length (heap s)))).
Proof.
  intros Hadd fuel this s u s' n HI HW Hlive Hne H.
  pose proof Hlive as (Hn & Hatt & Hleaf).
  pose proof (links_shape _ (inv_links _ HI)) as HS.
  assert (Hin : items_within props n).
  { intros i Hi. apply (HW this n i Hlive Hi). intros []. }
  apply split_unfold in H as (n0 & Hn0 & _ & H).
  rewrite Hn in Hn0. injection Hn0 as <-.
  pose proof (lookup_lt_Some _ _ _ Hn) as Hlt.
  mstep H.
  pose proof (Inv_split_heap props s this n Hlive Hne Hin HI) as HI6.
  pose proof (Within_split_heap props s this n Hlive nobody HS HW) as HW6.
  pose proof (split_heap_lookup_this props _ _ _ Hn) as Hthis6.
  assert (Hfresh6 : forall j, j ∈ drop 0 (items n) ->
            ~ holds (split_heap props (heap s) this n) j).
  { intros j Hj Hh. cbn [drop] in Hj.
    destruct (holds_split_heap props s this n Hlive j HI Hh) as [_ Hnot]. auto. }
  destruct (readd_items_spec props addf Hadd fuel this O
              (mkStore (split_heap props (heap s) this n) (itemToTreeMap s))
              a s0 _ HI6 HW6 Hthis6 ltac:(discriminate) Hin
              (inv_nodup _ HI _ _ Hlive) Hfresh6 Hstep)
    as (HI7 & HW7 & Hg7 & He7 & Hh7).
  cbn [heap] in Hg7, He7, Hh7.
  destruct (Hg7 _ _ Hthis6) as (n7 & Hthis7 & _ & _ & _ & Hsame).
  specialize (Hsame ltac:(discriminate)). subst n7.
  apply update_node_Done in H as (n8 & Hn8 & ->).
  rewrite Hthis7 in Hn8. injection Hn8 as <-.
  pose proof (lookup_lt_Some _ _ _ Hthis7) as Hlt7.
  assert (Hsub : forall i, i ∈ [] -> i ∈ items (split_node props n (length (heap s)))).
  { intros i Hi. inversion Hi. }
  split_and!.
  - apply (Inv_shrink s0 this _ [] Hthis7 Hsub); [|exact HI7].
    intros _. apply NoDup_nil_2.
  - apply (Within_shrink s0 this _ [] Hthis7 Hsub), HW7.
  - cbn [heap]. intros l n0 H0. destruct (decide (l = this)) as [E|Hneq]; [subst l|].
    + rewrite Hn in H0. injection H0 as <-.
      rewrite list_lookup_insert_eq by exact Hlt7.
      eexists. split_and!; try reflexivity. congruence.
    + rewrite list_lookup_insert_ne by done.
      exact (grows_trans _ _ _ (grows_split_heap props _ _ _ Hn Hleaf) Hg7 _ _ H0).
  - cbn [heap]. intros l He n0 H0.
    destruct (decide (l = this)) as [E|Hneq]; [subst l|].
    + rewrite list_lookup_insert_eq in H0 by exact Hlt7. injection H0 as <-.
      reflexivity.
    + rewrite list_lookup_insert_ne in H0 by done. revert n0 H0.
      apply He7. apply internal_empty_split_heap; auto.
  - intros j Hh. apply (holds_shrink s0 this _ [] Hthis7 Hsub) in Hh.
    destruct (Hh7 _ Hh) as [Hj|Hh'].
    + exists this, n. auto.
    + apply (holds_split_heap props s this n Hlive j HI Hh').
  - cbn [heap]. apply list_lookup_insert_eq, Hlt7.
Qed.

Lemma add_keeps_invariants props fuel : add_spec props (add props fuel).
Proof.
  induction fuel as [|fuel IH];
    intros this item s u s' n HI HW Hthis Hatt Hin Hfresh H;
    simpl in H; [discriminate|].
  pose proof (links_shape _ (inv_links _ HI)) as HS.
  mstep H. pose proof (readonly_drill _ _ _ _ _ _ _ Hstep) as ->.
  destruct (drill_spec _ _ _ _ _ _ _ _ HS Hthis Hatt
              ltac:(rewrite <- surjective_pairing; exact Hin) Hstep)
    as (nc & Hlive & Hwin).
  pose proof Hlive as (Hcell & Hcatt & Hleaf).
  rewrite <- surjective_pairing in Hwin. rename a into cell.
  mstep H. apply shouldSplit_Done in Hstep0 as (n0 & Hn0 & -> & ->).
  rewrite Hcell in Hn0. injection Hn0 as <-.
  destruct (shouldSplit_items props (items nc)) eqn:Eshould.
  - mstep H.
    destruct (split_spec props _ IH _ _ _ _ _ _ HI HW Hlive
                (shouldSplit_items_nonempty _ _ Eshould) Hstep0)
      as (HI1 & HW1 & Hg1 & He1 & Hh1 & Hnode).
    assert (Hatt1 : attached (heap s0) cell
                      (with_items [] (split_node props nc (length (heap s))))).
    { apply (links_internal _ (inv_links _ HI1) _ _ Hnode). discriminate. }
    assert (Hfresh1 : ~ holds (heap s0) item) by (intros Hh; apply Hfresh, Hh1, Hh).
    destruct (IH _ _ _ _ _ _ HI1 HW1 Hnode Hatt1 Hwin Hfresh1 H)
      as (HI2 & HW2 & Hg2 & He2 & Hh2).
    split_and!; [exact HI2|exact HW2|eapply grows_trans; eauto|auto|].
    intros j Hh. destruct (Hh2 _ Hh) as [->|Hh']; auto.
  - mstep H. apply update_node_Done in Hstep0 as (n0 & Hn0 & ->).
    rewrite Hcell in Hn0. injection Hn0 as <-.
    injection H as _ <-. cbn [heap].
    pose proof (lookup_lt_Some _ _ _ Hcell) as Hlt.
    split_and!.
    + apply Inv_push; auto.
    + apply Within_push; auto.
    + eapply grows_insert_leaf; eauto.
    + intros l He n0 H0. destruct (decide (l = cell)) as [E|Hneq]; [subst l|].
      * rewrite list_lookup_insert_eq in H0 by exact Hlt. injection H0 as <-.
        cbn. congruence.
      * rewrite list_lookup_insert_ne in H0 by done. apply He, H0.
    + intros j Hh. eapply holds_push; eauto.
Qed.

(** ** collapse and remove *)

Lemma readonly_flatMap_items cs : readonly (flatMap_items cs).
Proof.
  induction cs as [|c cs IH]; simpl; [auto with readonly|].
  apply readonly_bind; [auto with readonly|]. intros n.
  apply readonly_bind; [exact IH|]. auto with readonly.
Qed.

Lemma readonly_every_leaf cs : readonly (every_leaf cs).
Proof.
  induction cs as [|c cs IH]; simpl; [auto with readonly|].
  apply readonly_bind; [auto with readonly|]. intros n.
  destruct (children n); auto with readonly.
Qed.

Lemma readonly_sum_lengths cs : forall sum, readonly (sum_lengths cs sum).
Proof.
  induction cs as [|c cs IH]; intros sum; simpl; [auto with readonly|].
  apply readonly_bind; [auto with readonly|]. intros n. apply IH.
Qed.

#[local] Hint Resolve readonly_flatMap_items readonly_every_leaf
  readonly_sum_lengths readonly_drill : readonly.

Lemma flatMap_items_Done cs : forall s its s1,
  flatMap_items cs s = Done its s1 <->
  s1 = s /\ exists ns, nodes_at (heap s) cs ns /\ its = concat (items <$> ns).
Proof.
  induction cs as [|c cs IH]; intros s its s1; simpl.
  - split.
    + intros [= <- <-]. split; [reflexivity|]. exists []. split; [constructor|reflexivity].
    + intros (-> & ns & Hns & ->). inversion Hns. reflexivity.
  - rewrite bind_Done. split.
    + intros (n & s0 & Hn & H). apply get_node_Done in Hn as [Hn ->].
      mstep H. apply IH in Hstep as (-> & ns & Hns & ->).
      injection H as <- <-. split; [reflexivity|].
      exists (n :: ns). split; [constructor; auto|reflexivity].
    + intros (-> & ns & Hns & ->). inversion Hns as [|c0 n cs0 ns0 Hn Hrest]; subst.
      exists n, s. split; [apply get_node_Done; auto|].
      apply bind_Done. exists (concat (items <$> ns0)), s. split; [|reflexivity].
      apply IH. eauto.
Qed.

Lemma repoint_Done its this : forall s u s1,
  repoint its this s = Done u s1 <->
  s1 = mkStore (heap s) (repointed its this (itemToTreeMap s)).
Proof.
  induction its as [|i its IH]; intros s u s1; simpl.
  - destruct s, u. split; [intros [= <-]|intros ->]; reflexivity.
  - rewrite bind_Done. split.
    + intros (a & s0 & Hs & H). injection Hs as _ <-. apply IH in H. exact H.
    + intros ->. exists tt. eexists. split; [reflexivity|]. apply IH. reflexivity.
Qed.

Lemma repointed_in its this : forall m i,
  i ∈ its -> repointed its this m !! i = Some this.
Proof.
  induction its as [|j its IH]; intros m i Hi; [inversion Hi|].
  cbn [repointed foldl]. destruct (decide (i ∈ its)) as [Hin|Hnot].
  - apply IH, Hin.
  - apply elem_of_cons in Hi as [->|Hi]; [|contradiction].
    clear IH. revert m. induction its as [|k its IH]; intros m.
    + apply lookup_insert_eq.
    + cbn [foldl]. apply not_elem_of_cons in Hnot as [Hne Hnot].
      rewrite insert_insert_ne by done. apply IH, Hnot.
Qed.

Lemma repointed_notin its this : forall m i,
  i ∉ its -> repointed its this m !! i = m !! i.
Proof.
  induction its as [|j its IH]; intros m i Hi; [reflexivity|].
  apply not_elem_of_cons in Hi as [Hne Hi]. cbn [repointed foldl].
  unfold repointed in IH. rewrite IH by exact Hi. apply lookup_insert_ne. done.
Qed.

Lemma collapse_Done this s u s1 :
  collapse this s = Done u s1 <->
  exists n ns,
    heap s !! this = Some n /\
    nodes_at (heap s) (default [] (children n)) ns /\
    s1 = mkStore (<[this := collapsed_node n (concat (items <$> ns))]> (heap s))
                 (repointed (items n ++ concat (items <$> ns)) this (itemToTreeMap s)).
Proof.
  unfold collapse. split.
  - intros H. mstep H. apply get_node_Done in Hstep as [Hn ->]. rename a into n.
    pose proof (lookup_lt_Some _ _ _ Hn) as Hlt.
    mstep H.
    assert (Hmoved : s0 = s /\ exists ns, nodes_at (heap s) (default [] (children n)) ns /\
                                         a = concat (items <$> ns)).
    { destruct (children n) as [cs|].
      - apply flatMap_items_Done in Hstep. exact Hstep.
      - injection Hstep as <- <-. split; [reflexivity|]. exists []. split; [constructor|reflexivity]. }
    destruct Hmoved as (-> & ns & Hns & ->). clear Hstep.
    mstep H. apply update_node_Done in Hstep as (n0 & Hn0 & ->).
    rewrite Hn in Hn0. injection Hn0 as <-.
    mstep H. apply get_node_Done in Hstep as [Hn1 ->]. cbn [heap] in Hn1.
    rewrite list_lookup_insert_eq in Hn1 by exact Hlt. injection Hn1 as <-.
    mstep H. apply repoint_Done in Hstep as ->.
    apply update_node_Done in H as (n2 & Hn2 & ->). cbn [heap itemToTreeMap] in *.
    rewrite list_lookup_insert_eq in Hn2 by exact Hlt. injection Hn2 as <-.
    rewrite list_insert_insert_eq.
    exists n, ns. split_and!; auto.
  - intros (n & ns & Hn & Hns & ->).
    pose proof (lookup_lt_Some _ _ _ Hn) as Hlt.
    apply bind_Done. exists n, s. split; [apply get_node_Done; auto|].
    apply bind_Done. exists (concat (items <$> ns)), s. split.
    { destruct (children n) as [cs|].
      - apply flatMap_items_Done. eauto.
      - inversion Hns. reflexivity. }
    apply bind_Done. eexists tt, _. split.
    { apply update_node_Done. eauto. }
    apply bind_Done. eexists _, _. split.
    { apply get_node_Done. cbn [heap]. split; [|reflexivity].
      apply list_lookup_insert_eq, Hlt. }
    apply bind_Done. eexists tt, _. split.
    { apply repoint_Done. reflexivity. }
    apply update_node_Done. eexists. cbn [heap itemToTreeMap]. split.
    { apply list_lookup_insert_eq, Hlt. }
    rewrite list_insert_insert_eq. destruct u. reflexivity.
Qed.

(** *** What [remove] does, in closed form *)

Lemma nodes_at_items h cs ns :
  nodes_at h cs ns -> items_at h <$> cs = items <$> ns.
Proof.
  induction 1 as [|c n cs ns Hn _ IH]; [reflexivity|].
  cbn [fmap list_fmap]. unfold items_at at 1. rewrite Hn. f_equal. exact IH.
Qed.

(** In a well-shaped arena the children of a node are all there. *)
Lemma Shape_nodes_at h p np cs :
  Shape h -> h !! p = Some np -> children np = Some cs ->
  exists ns, nodes_at h cs ns.
Proof.
  intros HS Hp Hcs.
  assert (Hall : forall c, c ∈ cs -> exists n, h !! c = Some n).
  { intros c Hc. destruct (Shape_children_exist _ _ _ _ HS Hp Hcs c Hc) as (n & Hn & _).
    eauto. }
  clear Hcs. induction cs as [|c cs IH].
  - exists []. constructor.
  - destruct (Hall c ltac:(left)) as [n Hn].
    destruct IH as [ns Hns]; [intros c' Hc'; apply Hall; right; exact Hc'|].
    exists (n :: ns). constructor; auto.
Qed.

Lemma collapse_Done_store s p np ns :
  heap s !! p = Some np -> nodes_at (heap s) (default [] (children np)) ns ->
  collapse p s = Done tt (collapse_store s p).
Proof.
  intros Hp Hns. apply collapse_Done. exists np, ns. split_and!; auto.
  unfold collapse_store. rewrite Hp. cbn zeta.
  rewrite (nodes_at_items _ _ _ Hns). reflexivity.
Qed.

Lemma remove_no_entry props this item s :
  itemToTreeMap s !! item = None -> remove props this item s = Done tt s.
Proof. intros H. unfold remove, bind, map_get. rewrite H. reflexivity. Qed.

Lemma remove_not_held props this item s c nc :
  itemToTreeMap s !! item = Some c -> heap s !! c = Some nc ->
  indexOf item (items nc) = None ->
  remove props this item s = Done tt s.
Proof.
  intros H Hc Hidx. unfold remove, bind, map_get, get_node.
  rewrite H, Hc, Hidx. reflexivity.
Qed.

Lemma every_leaf_total cs ns : forall s,
  nodes_at (heap s) cs ns ->
  every_leaf cs s = Done (forallb (leaf_at (heap s)) cs) s.
Proof.
  intros s H. induction H as [|c n cs ns Hn _ IH]; [reflexivity|].
  cbn [every_leaf forallb]. unfold bind, get_node, leaf_at at 1. rewrite Hn.
  destruct (children n); [reflexivity|exact IH].
Qed.

Lemma sum_lengths_total cs ns : forall s sum,
  nodes_at (heap s) cs ns ->
  sum_lengths cs sum s = Done (sum + sum_list (count_at (heap s) <$> cs))%nat s.
Proof.
  intros s sum H. revert sum. induction H as [|c n cs ns Hn _ IH]; intros sum.
  - cbn. f_equal. lia.
  - cbn [sum_lengths fmap list_fmap sum_list]. unfold bind, get_node, count_at at 1.
    rewrite Hn, IH. unfold id. f_equal. lia.
Qed.

Lemma remove_found props this item s c nc idx :
  Shape (heap s) ->
  itemToTreeMap s !! item = Some c -> heap s !! c = Some nc ->
  indexOf item (items nc) = Some idx ->
  remove props this item s = Done tt (remove_store props s c nc idx).
Proof.
  intros HI H Hc Hidx.
  pose proof (lookup_lt_Some _ _ _ Hc) as Hlt.
  assert (HI1 : Shape (heap (splice_store s c nc idx))).
  { apply Shape_set_items; auto. }
  unfold remove, bind at 1, map_get. rewrite H.
  unfold bind at 1, get_node at 1. rewrite Hc, Hidx.
  unfold bind at 1, update_node, bind at 1, get_node at 1. rewrite Hc.
  unfold set_node. fold (splice_store s c nc idx).
  unfold remove_store. cbn zeta. set (s1 := splice_store s c nc idx) in *.
  unfold eligible. destruct (parent nc) as [p|] eqn:Ep; [|reflexivity].
  assert (exists np, heap s1 !! p = Some np) as [np Hp].
  { destruct (Shape_parent_exists _ _ _ _ HI Hc Ep) as [np0 Hp0].
    apply lookup_lt_is_Some_2. unfold s1, splice_store. cbn [heap].
    rewrite length_insert. eapply lookup_lt_Some, Hp0. }
  unfold bind at 1, get_node at 1. rewrite Hp.
  destruct (children np) as [cs|] eqn:Ecs; [|reflexivity].
  destruct (Shape_nodes_at _ _ _ _ HI1 Hp Ecs) as [ns Hns].
  unfold bind at 1. rewrite (every_leaf_total _ _ _ Hns).
  destruct (forallb (leaf_at (heap s1)) cs); [|reflexivity].
  unfold bind at 1. rewrite (sum_lengths_total _ _ _ _ Hns).
  cbn [andb plus from_option]. unfold below_threshold.
  destruct (Qltb _ _); [|reflexivity].
  eapply collapse_Done_store; [exact Hp|]. rewrite Ecs. exact Hns.
Qed.

(** *** A parent absorbing its four leaves *)

(** A child's bounds lie inside its parent's. *)
Lemma quadrant_sub n nc k p :
  center_in_bounds n ->
  min nc = fst (quadrant_bounds n k) -> max nc = snd (quadrant_bounds n k) ->
  within nc p = true -> within n p = true.
Proof.
  intros (C1 & C2 & C3 & C4) Hmi Hma Hin.
  apply within_spec in Hin as (H1 & H2 & H3 & H4). rewrite Hmi in H1, H3.
  rewrite Hma in H2, H4. apply within_spec.
  destruct k as [|[|[|k]]]; cbn in H1, H2, H3, H4; split_and!;
    eauto using num_le_trans, num_lt_le_trans.
Qed.

Lemma elem_of_concat {A} (x : A) (ls : list (list A)) :
  x ∈ concat ls <-> exists l, x ∈ l /\ l ∈ ls.
Proof.
  induction ls as [|l ls IH]; cbn.
  - split; [intros H; inversion H|intros (l & _ & H); inversion H].
  - rewrite elem_of_app, IH. split.
    + intros [H|(l' & H1 & H2)]; [exists l; split; [exact H|left]|].
      exists l'. split; [exact H1|right; exact H2].
    + intros (l' & H1 & H2). apply elem_of_cons in H2 as [->|H2]; eauto.
Qed.

Lemma elem_of_items_at h cs i :
  i ∈ concat (items_at h <$> cs) <->
  exists c n, c ∈ cs /\ h !! c = Some n /\ i ∈ items n.
Proof.
  rewrite elem_of_concat. split.
  - intros (l & Hil & Hl). apply list_elem_of_fmap in Hl as (c & -> & Hc).
    unfold items_at in Hil. destruct (h !! c) as [n|] eqn:En; [eauto|inversion Hil].
  - intros (c & n & Hc & Hn & Hi). exists (items n). split; [exact Hi|].
    apply list_elem_of_fmap. exists c. split; [|exact Hc].
    unfold items_at. rewrite Hn. reflexivity.
Qed.

Lemma NoDup_concat_items_at h cs :
  NoDup cs ->
  (forall c, c ∈ cs -> NoDup (items_at h c)) ->
  (forall c c' i, c ∈ cs -> c' ∈ cs -> i ∈ items_at h c -> i ∈ items_at h c' -> c = c') ->
  NoDup (concat (items_at h <$> cs)).
Proof.
  induction cs as [|c cs IH]; intros Hnd Hall Hdis; [apply NoDup_nil_2|].
  apply NoDup_cons in Hnd as [Hnotin Hnd]. cbn [fmap list_fmap concat].
  apply NoDup_app. split_and!.
  - apply Hall. left.
  - intros i Hi Hi'. apply elem_of_concat in Hi' as (l & Hil & Hl).
    apply list_elem_of_fmap in Hl as (c' & -> & Hc').
    assert (c = c') by (eapply Hdis; eauto; [left|right; exact Hc']).
    subst c'. contradiction.
  - apply IH; auto.
    + intros c' Hc'. apply Hall. right. exact Hc'.
    + intros c1 c2 i H1 H2. apply Hdis; right; assumption.
Qed.

Section Collapse.

Variables (s : Store) (p : loc) (np : D2Tree) (cs : list loc).
Hypothesis HI : Inv s.
Hypothesis Hemp : internal_empty (heap s).
Hypothesis Hp : heap s !! p = Some np.
Hypothesis Hcs : children np = Some cs.
Hypothesis Hleaves : forallb (leaf_at (heap s)) cs = true.

Local Abbreviation h := (heap s).
Local Abbreviation moved := (concat (items_at (heap s) <$> cs)).
Local Abbreviation h' := (<[p := collapsed_node np moved]> (heap s)).

Lemma collapse_store_eq :
  collapse_store s p =
  mkStore h' (repointed (items np ++ moved) p (itemToTreeMap s)).
Proof. unfold collapse_store. rewrite Hp, Hcs. reflexivity. Qed.

Lemma collapse_child_live c :
  c ∈ cs -> exists n, live_leaf h c n /\ parent n = Some p.
Proof.
  intros Hc.
  destruct (Shape_children_exist _ _ _ _ (links_shape _ (inv_links _ HI)) Hp Hcs c Hc)
    as (n & Hn & Hpar & _).
  exists n. split; [|exact Hpar]. split_and!; [exact Hn| |].
  - unfold attached. rewrite Hpar. eauto.
  - rewrite forallb_forall in Hleaves. specialize (Hleaves c).
    unfold leaf_at in Hleaves. rewrite Hn in Hleaves.
    destruct (children n); [|reflexivity].
    discriminate Hleaves. apply list_elem_of_In, Hc.
Qed.

Lemma collapse_moved_held i :
  i ∈ moved -> exists c n, c ∈ cs /\ live_leaf h c n /\ parent n = Some p /\ i ∈ items n.
Proof.
  intros Hi. apply elem_of_items_at in Hi as (c & n & Hc & Hn & Hi).
  destruct (collapse_child_live c Hc) as (n' & Hlive & Hpar).
  rewrite (proj1 Hlive) in Hn. injection Hn as <-. eauto 8.
Qed.

Lemma collapse_p_lt : (p < length h)%nat.
Proof. eapply lookup_lt_Some, Hp. Qed.

Lemma collapse_attached_back l n :
  l <> p -> h !! l = Some n -> attached h' l n -> attached h l n /\ parent n <> Some p.
Proof.
  intros Hne Hl Hatt. unfold attached in *.
  destruct (parent n) as [q|] eqn:Eq; [|split; [exact I|discriminate]].
  destruct Hatt as (nq & cq & Hq & Hcq & Hlq).
  destruct (decide (q = p)) as [E|Hneq]; [subst q|].
  - rewrite list_lookup_insert_eq in Hq by apply collapse_p_lt.
    injection Hq as <-. discriminate Hcq.
  - rewrite list_lookup_insert_ne in Hq by done.
    split; [eauto|congruence].
Qed.

Lemma collapse_attached_fwd l n :
  attached h l n -> parent n <> Some p -> attached h' l n.
Proof.
  intros Hatt Hpar. unfold attached in *.
  destruct (parent n) as [q|] eqn:Eq; [|exact I].
  destruct Hatt as (nq & cq & Hq & Hcq & Hlq).
  exists nq, cq. rewrite list_lookup_insert_ne by congruence. auto.
Qed.

Lemma collapse_p_attached : attached h' p (collapsed_node np moved).
Proof.
  pose proof (links_internal _ (inv_links _ HI) _ _ Hp ltac:(congruence)) as Hatt.
  apply (collapse_attached_fwd p np) in Hatt.
  - exact Hatt.
  - intros Hpar.
    destruct (links_shape _ (inv_links _ HI) _ _ Hp) as [Hlt _].
    specialize (Hlt _ Hpar). lia.
Qed.

Lemma collapse_live_leaf l n' :
  live_leaf h' l n' ->
  (l = p /\ n' = collapsed_node np moved) \/
  (l <> p /\ live_leaf h l n' /\ parent n' <> Some p).
Proof.
  intros (Hl & Hatt & Hleaf). destruct (decide (l = p)) as [E|Hne]; [subst l|].
  - rewrite list_lookup_insert_eq in Hl by apply collapse_p_lt.
    injection Hl as <-. auto.
  - rewrite list_lookup_insert_ne in Hl by done.
    destruct (collapse_attached_back l n' Hne Hl Hatt) as [Hatt' Hpar].
    right. split_and!; auto. split_and!; auto.
Qed.

Lemma collapse_not_moved l n i :
  live_leaf h l n -> parent n <> Some p -> i ∈ items n ->
  i ∉ items np ++ moved.
Proof.
  intros Hlive Hpar Hi Hin.
  rewrite (Hemp p np Hp ltac:(congruence)) in Hin. cbn [app] in Hin.
  destruct (collapse_moved_held i Hin) as (c & n' & _ & Hlive' & Hpar' & Hi').
  pose proof (inv_index _ HI _ _ _ Hlive Hi) as E1.
  pose proof (inv_index _ HI _ _ _ Hlive' Hi') as E2.
  assert (l = c) by congruence. subst c.
  pose proof (proj1 Hlive) as Hl1. pose proof (proj1 Hlive') as Hl2.
  rewrite Hl1 in Hl2. injection Hl2 as <-. contradiction.
Qed.

Lemma Links_collapse : Links h'.
Proof.
  pose proof (inv_links _ HI) as [HS Hint Hroot Horph]. split.
  - apply (Shape_insert h p np); auto.
    apply node_wf_leaf; [|reflexivity]. apply (HS _ _ Hp).
  - intros l n Hl Hch. destruct (decide (l = p)) as [E|Hne]; [subst l|].
    + rewrite list_lookup_insert_eq in Hl by apply collapse_p_lt.
      injection Hl as <-. cbn in Hch. congruence.
    + rewrite list_lookup_insert_ne in Hl by done.
      apply collapse_attached_fwd; [eapply Hint; eauto|].
      intros Hpar. pose proof (Hint _ _ Hl Hch) as Hatt.
      unfold attached in Hatt. rewrite Hpar in Hatt.
      destruct Hatt as (np' & cs' & Hp' & Hcs' & Hlcs).
      rewrite Hp in Hp'. injection Hp' as <-. rewrite Hcs in Hcs'.
      injection Hcs' as <-.
      destruct (collapse_child_live l Hlcs) as (n' & (Hn' & _ & Hleaf') & _).
      rewrite Hl in Hn'. injection Hn' as <-. congruence.
  - eapply is_root_keeps; [|exact Hroot].
    eapply keeps_readonly_insert; eauto.
  - intros l n Hl Hpar. destruct (decide (l = p)) as [E|Hne]; [subst l|].
    + rewrite list_lookup_insert_eq in Hl by apply collapse_p_lt.
      injection Hl as <-. eapply Horph; eauto.
    + rewrite list_lookup_insert_ne in Hl by done. eapply Horph; eauto.
Qed.

Lemma Inv_collapse : Inv (collapse_store s p).
Proof.
  rewrite collapse_store_eq.
  pose proof HI as [HL Hidx Hnod Hsound Hvalid].
  split; cbn [heap itemToTreeMap].
  - apply Links_collapse.
  - intros l n' i Hl Hi.
    destruct (collapse_live_leaf l n' Hl) as [(-> & ->)|(Hne & Hl' & Hpar)].
    + apply repointed_in. exact Hi.
    + rewrite repointed_notin by (eapply collapse_not_moved; eauto).
      eapply Hidx; eauto.
  - intros l n' Hl.
    destruct (collapse_live_leaf l n' Hl) as [(-> & ->)|(Hne & Hl' & Hpar)].
    + cbn [items collapsed_node].
      rewrite (Hemp p np Hp ltac:(congruence)). cbn [app].
      apply NoDup_concat_items_at.
      * destruct (links_shape _ HL _ _ Hp) as [_ Hwf].
        apply (Hwf _ Hcs).
      * intros c Hc. destruct (collapse_child_live c Hc) as (n & Hlive & _).
        unfold items_at. rewrite (proj1 Hlive). eapply Hnod; eauto.
      * intros c c' i Hc Hc' Hi Hi'.
        destruct (collapse_child_live c Hc) as (n & Hlive & _).
        destruct (collapse_child_live c' Hc') as (n0 & Hlive0 & _).
        unfold items_at in Hi, Hi'. rewrite (proj1 Hlive) in Hi.
        rewrite (proj1 Hlive0) in Hi'.
        pose proof (Hidx _ _ _ Hlive Hi). pose proof (Hidx _ _ _ Hlive0 Hi').
        congruence.
    + eapply Hnod; eauto.
  - intros i c nc Hm Hc Hi. destruct (decide (c = p)) as [E|Hne]; [subst c|].
    + rewrite list_lookup_insert_eq in Hc by apply collapse_p_lt.
      injection Hc as <-. apply collapse_p_attached.
    + rewrite list_lookup_insert_ne in Hc by done.
      destruct (decide (i ∈ items np ++ moved)) as [Hin|Hnot].
      * rewrite repointed_in in Hm by exact Hin. congruence.
      * rewrite repointed_notin in Hm by exact Hnot.
        pose proof (Hsound _ _ _ Hm Hc Hi) as Hatt.
        apply collapse_attached_fwd; [exact Hatt|].
        intros Hpar. apply Hnot. apply elem_of_app. right.
        apply elem_of_items_at. exists c, nc. split_and!; auto.
        unfold attached in Hatt. rewrite Hpar in Hatt.
        destruct Hatt as (np' & cs' & Hp' & Hcs' & Hlcs).
        rewrite Hp in Hp'. injection Hp' as <-. rewrite Hcs in Hcs'.
        injection Hcs' as <-. exact Hlcs.
  - intros i c Hm. rewrite length_insert.
    destruct (decide (i ∈ items np ++ moved)) as [Hin|Hnot].
    + rewrite repointed_in in Hm by exact Hin. injection Hm as <-.
      apply collapse_p_lt.
    + rewrite repointed_notin in Hm by exact Hnot. eauto.
Qed.

Lemma holds_collapse j : holds (heap (collapse_store s p)) j -> holds h j.
Proof.
  rewrite collapse_store_eq. cbn [heap]. intros (l & n' & Hl & Hj).
  destruct (collapse_live_leaf l n' Hl) as [(-> & ->)|(Hne & Hl' & Hpar)].
  - cbn [items collapsed_node] in Hj.
    rewrite (Hemp p np Hp ltac:(congruence)) in Hj. cbn [app] in Hj.
    destruct (collapse_moved_held j Hj) as (c & n & _ & Hlive & _ & Hi).
    exists c, n. auto.
  - exists l, n'. auto.
Qed.

Lemma Within_collapse who props :
  Within who props h -> Within who props (heap (collapse_store s p)).
Proof.
  rewrite collapse_store_eq. cbn [heap]. intros HW l n' i Hl Hi Hm.
  destruct (collapse_live_leaf l n' Hl) as [(-> & ->)|(Hne & Hl' & Hpar)].
  - cbn [items collapsed_node] in Hi.
    rewrite (Hemp p np Hp ltac:(congruence)) in Hi. cbn [app] in Hi.
    apply elem_of_items_at in Hi as (c & n & Hc & Hn & Hi).
    destruct (collapse_child_live c Hc) as (n0 & Hlive & _).
    rewrite (proj1 Hlive) in Hn. injection Hn as <-.
    destruct (links_shape _ (inv_links _ HI) _ _ Hp) as [_ Hwf].
    destruct (Hwf _ Hcs) as (_ & _ & Hcen & Hch).
    apply list_elem_of_lookup in Hc as [k Hk].
    destruct (Hch _ _ Hk) as (_ & n' & Hn' & _ & Hmi & Hma).
    rewrite (proj1 Hlive) in Hn'. injection Hn' as <-.
    change (within np (getItemPosition props i) = true).
    eapply quadrant_sub; eauto.
  - eapply HW; eauto.
Qed.

Lemma internal_empty_collapse : internal_empty (heap (collapse_store s p)).
Proof.
  rewrite collapse_store_eq. cbn [heap]. intros l n Hl Hch.
  destruct (decide (l = p)) as [E|Hne]; [subst l|].
  - rewrite list_lookup_insert_eq in Hl by apply collapse_p_lt.
    injection Hl as <-. cbn in Hch. congruence.
  - rewrite list_lookup_insert_ne in Hl by done. eapply Hemp; eauto.
Qed.

End Collapse.

(** ** remove and update keep the invariants *)

Lemma indexOf_Some item its idx :
  indexOf item its = Some idx -> its !! idx = Some item.
Proof.
  revert idx. induction its as [|i its IH]; intros idx H; [discriminate|].
  cbn in H. destruct (Nat.eqb i item) eqn:E.
  - injection H as <-. apply Nat.eqb_eq in E. subst. reflexivity.
  - destruct (indexOf item its) as [k|]; [|discriminate].
    injection H as <-. cbn. auto.
Qed.

Lemma indexOf_None item its : indexOf item its = None <-> item ∉ its.
Proof.
  induction its as [|i its IH]; cbn.
  - split; [intros _; apply not_elem_of_nil|reflexivity].
  - rewrite not_elem_of_cons. destruct (Nat.eqb i item) eqn:E.
    + apply Nat.eqb_eq in E. split; [discriminate|]. intros [Hne _]. congruence.
    + apply Nat.eqb_neq in E. destruct (indexOf item its); cbn.
      * split; [discriminate|]. intros [_ Hn]. apply IH in Hn. discriminate.
      * split; [|reflexivity]. intros _. split; [congruence|]. apply IH. reflexivity.
Qed.

Lemma NoDup_delete_notin {A} (l : list A) i x :
  NoDup l -> l !! i = Some x -> x ∉ delete i l.
Proof.
  intros Hnd Hi Hin. apply list_elem_of_lookup in Hin as [j Hj].
  destruct (decide (j < i)%nat) as [Hlt|Hge].
  - rewrite list_lookup_delete_lt in Hj by exact Hlt.
    pose proof (NoDup_lookup _ _ _ _ Hnd Hi Hj). lia.
  - rewrite list_lookup_delete_ge in Hj by lia.
    pose proof (NoDup_lookup _ _ _ _ Hnd Hi Hj). lia.
Qed.

(** The three ways a call of [remove] can go. *)
Lemma remove_cases props this item s u s' :
  Shape (heap s) -> remove props this item s = Done u s' ->
  (s' = s /\
   forall c nc, itemToTreeMap s !! item = Some c -> heap s !! c = Some nc ->
                item ∉ items nc) \/
  exists c nc idx,
    itemToTreeMap s !! item = Some c /\ heap s !! c = Some nc /\
    indexOf item (items nc) = Some idx /\ s' = remove_store props s c nc idx.
Proof.
  intros HI H. destruct (itemToTreeMap s !! item) as [c|] eqn:Em.
  - destruct (heap s !! c) as [nc|] eqn:Ec.
    + destruct (indexOf item (items nc)) as [idx|] eqn:Ei.
      * rewrite (remove_found _ _ _ _ _ _ _ HI Em Ec Ei) in H.
        injection H as _ <-. right. eauto 8.
      * rewrite (remove_not_held _ _ _ _ _ _ Em Ec Ei) in H.
        injection H as _ <-. left. split; [reflexivity|].
        intros c' nc' [= <-] Hc'. rewrite Ec in Hc'. injection Hc' as <-.
        apply indexOf_None, Ei.
    + unfold remove, bind, map_get, get_node in H. rewrite Em, Ec in H.
      discriminate.
  - rewrite (remove_no_entry _ _ _ _ Em) in H. injection H as _ <-. left.
    split; [reflexivity|]. intros c nc [=].
Qed.

Lemma eligible_true props h par :
  eligible props h par = true ->
  exists p np cs, par = Some p /\ h !! p = Some np /\ children np = Some cs /\
                  forallb (leaf_at h) cs = true.
Proof.
  unfold eligible. destruct par as [p|]; [|discriminate].
  destruct (h !! p) as [np|] eqn:Hp; [|discriminate].
  destruct (children np) as [cs|] eqn:Hcs; [|discriminate].
  intros H. apply andb_true_iff in H as [H _].
  exists p, np, cs. split_and!; auto.
Qed.

Lemma remove_keeps_invariants props this item s u s' :
  Inv s -> internal_empty (heap s) ->
  remove props this item s = Done u s' ->
  Inv s' /\ internal_empty (heap s') /\
  (forall who props', Within who props' (heap s) -> Within who props' (heap s')) /\
  (forall j, holds (heap s') j -> holds (heap s) j) /\
  ~ holds (heap s') item.
Proof.
  intros HI He H.
  destruct (remove_cases _ _ _ _ _ _ (links_shape _ (inv_links _ HI)) H)
    as [[-> Hnot]|(c & nc & idx & Em & Ec & Ei & ->)].
  - split_and!; auto. intros (l & n & Hlive & Hi).
    pose proof (inv_index _ HI _ _ _ Hlive Hi) as Hm.
    apply (Hnot l n Hm (proj1 Hlive)), Hi.
  - pose proof (indexOf_Some _ _ _ Ei) as Hidx.
    assert (Hsub : forall i, i ∈ delete idx (items nc) -> i ∈ items nc).
    { intros i. apply list_elem_of_delete_inv. }
    assert (Hnd : NoDup (items nc) -> NoDup (delete idx (items nc))).
    { intros Hn. eapply sublist_NoDup; [exact Hn|apply sublist_delete]. }
    pose proof (Inv_shrink s c nc _ Ec Hsub Hnd HI) as HI1.
    pose proof (internal_empty_shrink s c nc _ Ec Hsub Hnd He) as He1.
    assert (Hfresh1 : ~ holds (heap (splice_store s c nc idx)) item).
    { intros (l & n' & Hlive & Hi). cbn [heap splice_store] in Hlive.
      apply (live_leaf_set_items _ _ _ _ Ec) in Hlive
        as [(-> & -> & Hlive)|(Hne & Hlive)].
      - cbn [items with_items] in Hi.
        apply (NoDup_delete_notin _ _ _ (inv_nodup _ HI _ _ Hlive) Hidx), Hi.
      - pose proof (inv_index _ HI _ _ _ Hlive Hi). congruence. }
    unfold remove_store. cbn zeta.
    fold (splice_store s c nc idx) in HI1, He1.
    destruct (eligible props _ (parent nc)) eqn:Eel.
    + apply eligible_true in Eel as (p & np & cs & Epar & Hp & Hcs & Hleaves).
      rewrite Epar. change (default 0%nat (Some p)) with p.
      split_and!.
      * eapply Inv_collapse; eauto.
      * eapply internal_empty_collapse; eauto.
      * intros who props' HW. eapply Within_collapse; eauto.
        apply (Within_shrink s c nc _ Ec Hsub), HW.
      * intros j Hh. apply (holds_shrink s c nc _ Ec Hsub).
        eapply holds_collapse; eauto.
      * intros Hh. apply Hfresh1. eapply holds_collapse; eauto.
    + split_and!; auto.
      * intros who props' HW. apply (Within_shrink s c nc _ Ec Hsub), HW.
      * intros j Hh. apply (holds_shrink s c nc _ Ec Hsub), Hh.
Qed.

Lemma within_root h r n p :
  is_root h r -> h !! r = Some n -> within n p = true.
Proof.
  intros (n' & Hr' & _ & Hmi & Hma) Hr. rewrite Hr in Hr'. injection Hr' as <-.
  unfold within. rewrite Hmi, Hma. reflexivity.
Qed.

Lemma internal_empty_pointwise h h' :
  (forall l, internal_empty_at h l -> internal_empty_at h' l) ->
  internal_empty h -> internal_empty h'.
Proof. intros H He l. apply H, He. Qed.

(** [add] on the root, for an item no leaf holds. *)
Lemma add_root_keeps_invariants props fuel item s u s' :
  Inv s -> internal_empty (heap s) -> Within nobody props (heap s) ->
  ~ holds (heap s) item ->
  add props fuel root item s = Done u s' ->
  Inv s' /\ internal_empty (heap s') /\ Within nobody props (heap s') /\
  (forall j, holds (heap s') j -> j = item \/ holds (heap s) j).
Proof.
  intros HI He HW Hfresh H.
  destruct (links_root _ (inv_links _ HI)) as (r & Hr & Hpar & Hrest).
  assert (Hin : within r (getItemPosition props item) = true).
  { eapply within_root; [exact (links_root _ (inv_links _ HI))|exact Hr]. }
  assert (Hatt : attached (heap s) root r) by (unfold attached; rewrite Hpar; exact I).
  destruct (add_keeps_invariants props fuel _ _ _ _ _ _ HI HW Hr Hatt Hin Hfresh H)
    as (HI' & HW' & _ & He' & Hh).
  split_and!; auto. eapply internal_empty_pointwise; eauto.
Qed.

(** [update] after the position of [item], and of no item the tree holds
    besides, has changed. *)
Lemma update_keeps_invariants props fuel item s u s' :
  Inv s -> internal_empty (heap s) ->
  Within (fun i => i = item) props (heap s) ->
  update props fuel root item s = Done u s' ->
  Inv s' /\ internal_empty (heap s') /\ Within nobody props (heap s').
Proof.
  intros HI He HW H. unfold update in H.
  mstep H. injection Hstep as <- <-.
  assert (Hfull : ~ holds (heap s) item -> Within nobody props (heap s)).
  { intros Hfresh l n i Hlive Hi _. apply (HW l n i Hlive Hi).
    intros ->. apply Hfresh. exists l, n. auto. }
  destruct (itemToTreeMap s !! item) as [c|] eqn:Em.
  - mstep H. apply get_node_Done in Hstep as [Hc ->]. rename a into nc.
    destruct (within nc (getItemPosition props item)) eqn:Ewin.
    + injection H as _ <-. split_and!; auto.
      intros l n i Hlive Hi _. destruct (decide (i = item)) as [->|Hne].
      * pose proof (inv_index _ HI _ _ _ Hlive Hi) as Hm.
        rewrite Em in Hm. injection Hm as <-.
        rewrite (proj1 Hlive) in Hc. injection Hc as <-. exact Ewin.
      * apply (HW l n i Hlive Hi Hne).
    + mstep H.
      destruct (remove_keeps_invariants _ _ _ _ _ _ HI He Hstep)
        as (HI1 & He1 & HW1 & _ & Hfresh1).
      assert (HW1' : Within nobody props (heap s0)).
      { intros l n i Hlive Hi _. apply (HW1 _ _ HW l n i Hlive Hi).
        intros ->. apply Hfresh1. exists l, n. auto. }
      destruct (add_root_keeps_invariants _ _ _ _ _ _ HI1 He1 HW1' Hfresh1 H)
        as (HI2 & He2 & HW2 & _).
      auto.
  - assert (Hfresh : ~ holds (heap s) item).
    { intros (l & n & Hlive & Hi).
      pose proof (inv_index _ HI _ _ _ Hlive Hi). congruence. }
    destruct (add_root_keeps_invariants _ _ _ _ _ _ HI He (Hfull Hfresh) Hfresh H)
      as (HI2 & He2 & HW2 & _).
    auto.
Qed.

(** ** The shape of a well-formed tree *)




(** * The tree a store holds *)

Lemma rep_node h l t : rep h l t -> h !! l = Some (tree_node t) /\ tree_loc t = l.
Proof. destruct 1; auto. Qed.

Lemma rep_exists h :
  Shape h -> forall l, (l < length h)%nat -> exists t, rep h l t.
Proof.
  intros HI.
  assert (Hgen : forall k l, (length h - l <= k)%nat -> (l < length h)%nat ->
                             exists t, rep h l t).
  { induction k as [|k IH]; intros l Hk Hl; [lia|].
    destruct (lookup_lt_is_Some_2 _ _ Hl) as [n Hn].
    destruct (children n) as [cs|] eqn:Ecs.
    - destruct (HI _ _ Hn) as [_ Hwf].
      destruct (Hwf _ Ecs) as (Hlen & _ & _ & Hch).
      destruct cs as [|c0 [|c1 [|c2 [|c3 [|]]]]]; try discriminate Hlen.
      assert (Hsub : forall j c, [c0; c1; c2; c3] !! j = Some c -> exists t, rep h c t).
      { intros j c Hj. destruct (Hch _ _ Hj) as (Hlt & nc & Hnc & _).
        apply IH; [lia|]. eapply lookup_lt_Some, Hnc. }
      destruct (Hsub 0%nat c0 eq_refl) as [t0 H0].
      destruct (Hsub 1%nat c1 eq_refl) as [t1 H1].
      destruct (Hsub 2%nat c2 eq_refl) as [t2 H2].
      destruct (Hsub 3%nat c3 eq_refl) as [t3 H3].
      exists (Branch l n t0 t1 t2 t3). econstructor; eauto.
    - exists (Leaf l n). constructor; auto. }
  intros l Hl. apply (Hgen (length h - l)%nat); auto.
Qed.

(** ** Traversals *)

Lemma bind_ret_omap {A B} (m : M A) (f : A -> B) s :
  (a <- m ;; ret (f a)) s = omap f (m s).
Proof. unfold bind, omap, ret. destruct (m s); reflexivity. Qed.

Lemma omap_omap {A B C} (f : B -> C) (g : A -> B) o :
  omap f (omap g o) = omap (fun a => f (g a)) o.
Proof. destruct o; reflexivity. Qed.

Lemma omap_ext {A B} (f g : A -> B) o :
  (forall a, f a = g a) -> omap f o = omap g o.
Proof. intros H. destruct o; cbn; [rewrite H|..]; reflexivity. Qed.

Lemma get_node_at l s n : heap s !! l = Some n -> get_node l s = Done n s.
Proof. intros H. unfold get_node. rewrite H. reflexivity. Qed.

Lemma iterate_loop_rep s l t :
  rep (heap s) l t ->
  forall fuel rest,
    iterate_loop (tree_size t + fuel) (l :: rest) s =
    omap (app (tree_items t)) (iterate_loop fuel rest s).
Proof.
  induction 1 as [l n Hn Hc|l n c0 c1 c2 c3 t0 t1 t2 t3 Hn Hc _ IH0 _ IH1 _ IH2 _ IH3];
    intros fuel rest.
  - cbn [tree_size plus iterate_loop tree_items]. unfold bind at 1.
    rewrite (get_node_at _ _ _ Hn), Hc. apply bind_ret_omap.
  - cbn [tree_size plus iterate_loop tree_items]. unfold bind at 1.
    rewrite (get_node_at _ _ _ Hn), Hc. cbn [rev app].
    rewrite <- !Nat.add_assoc, IH3, IH2, IH1, IH0, !omap_omap.
    apply omap_ext. intros a. rewrite <- !app_assoc. reflexivity.
Qed.

Lemma iterator_rep s l t fuel :
  rep (heap s) l t -> (tree_size t < fuel)%nat ->
  iterator fuel l s = Done (tree_items t) s.
Proof.
  intros Hrep Hfuel. unfold iterator.
  replace fuel with (tree_size t + S (fuel - tree_size t - 1))%nat by lia.
  rewrite (iterate_loop_rep _ _ _ Hrep). cbn. rewrite app_nil_r. reflexivity.
Qed.

Lemma iterateTrees_loop_rep s l t :
  rep (heap s) l t ->
  forall fuel rest,
    iterateTrees_loop (tree_size t + fuel) true (l :: rest) s =
    omap (app (tree_leaves t)) (iterateTrees_loop fuel true rest s).
Proof.
  induction 1 as [l n Hn Hc|l n c0 c1 c2 c3 t0 t1 t2 t3 Hn Hc _ IH0 _ IH1 _ IH2 _ IH3];
    intros fuel rest.
  - cbn [tree_size plus iterateTrees_loop tree_leaves]. unfold bind at 1.
    rewrite (get_node_at _ _ _ Hn), Hc. apply bind_ret_omap.
  - cbn [tree_size plus iterateTrees_loop tree_leaves]. unfold bind at 1.
    rewrite (get_node_at _ _ _ Hn), Hc. cbn [rev app].
    rewrite bind_ret_omap.
    rewrite <- !Nat.add_assoc, IH3, IH2, IH1, IH0, !omap_omap.
    apply omap_ext. intros a. rewrite <- !app_assoc. reflexivity.
Qed.

Lemma iterateTrees_rep s l t fuel :
  rep (heap s) l t -> (tree_size t < fuel)%nat ->
  iterateTrees fuel l true s = Done (tree_leaves t) s.
Proof.
  intros Hrep Hfuel. unfold iterateTrees.
  replace fuel with (tree_size t + S (fuel - tree_size t - 1))%nat by lia.
  rewrite (iterateTrees_loop_rep _ _ _ Hrep). cbn. rewrite app_nil_r. reflexivity.
Qed.

(** ** iterateBox against the tree *)

Section BoxOnTree.

Variable props : Props.
Variables minX minY maxX maxY : Q.

Local Abbreviation pos := (getItemPosition props).
Local Abbreviation hit := (fun i : Item => in_box minX minY maxX maxY (pos i)).
Local Abbreviation ov := (overlaps minX minY maxX maxY).








End BoxOnTree.




(** ** Queries never write *)

Lemma readonly_out_of_fuel {A} : readonly (@out_of_fuel A).
Proof. intros s a s1 H. discriminate. Qed.

#[local] Hint Resolve readonly_out_of_fuel : readonly.

Lemma readonly_iterate_loop fuel : forall remaining, readonly (iterate_loop fuel remaining).
Proof.
  induction fuel as [|fuel IH]; intros remaining; cbn; [auto with readonly|].
  destruct remaining as [|current rest]; [auto with readonly|].
  apply readonly_bind; [auto with readonly|]. intros n.
  destruct (children n); [apply IH|].
  apply readonly_bind; [apply IH|]. auto with readonly.
Qed.

Lemma readonly_iterator fuel this : readonly (iterator fuel this).
Proof. apply readonly_iterate_loop. Qed.

Lemma readonly_push_overlapping minX minY maxX maxY cs :
  forall cells, readonly (push_overlapping minX minY maxX maxY cs cells).
Proof.
  induction cs as [|c cs IH]; intros cells; cbn; [auto with readonly|].
  apply readonly_bind; [auto with readonly|]. intros n. apply IH.
Qed.

Lemma readonly_iterateBox_loop props fuel minX minY maxX maxY :
  forall cells, readonly (iterateBox_loop props fuel minX minY maxX maxY cells).
Proof.
  induction fuel as [|fuel IH]; intros cells; cbn; [auto with readonly|].
  destruct cells as [|cell rest]; [auto with readonly|].
  apply readonly_bind; [auto with readonly|]. intros n.
  destruct (children n).
  - apply readonly_bind; [apply readonly_push_overlapping|]. intros cells'. apply IH.
  - apply readonly_bind; [apply IH|]. auto with readonly.
Qed.

Lemma readonly_box props fuel this minX minY maxX maxY :
  readonly (box props fuel this minX minY maxX maxY).
Proof. apply readonly_iterateBox_loop. Qed.

Lemma readonly_radius props fuel this x y r : readonly (radius props fuel this x y r).
Proof.
  apply readonly_bind; [apply readonly_iterateBox_loop|]. auto with readonly.
Qed.

Lemma readonly_iterateTrees_loop fuel leaves :
  forall remaining, readonly (iterateTrees_loop fuel leaves remaining).
Proof.
  induction fuel as [|fuel IH]; intros remaining; cbn; [auto with readonly|].
  destruct remaining as [|current rest]; [auto with readonly|].
  apply readonly_bind; [auto with readonly|]. intros n.
  destruct (children n); (apply readonly_bind; [apply IH|]; auto with readonly).
Qed.

Lemma readonly_start_scope cur : readonly (start_scope cur).
Proof.
  apply readonly_bind; [auto with readonly|]. intros n.
  destruct (parent n); [|auto with readonly].
  apply readonly_bind; [auto with readonly|]. intros np.
  destruct (parent np); auto with readonly.
Qed.

Lemma readonly_ring props fuel x y cur closed : readonly (ring props fuel x y cur closed).
Proof.
  apply readonly_bind; [apply readonly_iterateTrees_loop|]. intros trees.
  destruct (filter_closed trees closed) as [fresh closed'].
  apply readonly_bind; [auto with readonly|]. intros its.
  apply readonly_bind; auto with readonly.
Qed.

Lemma readonly_rings_loop props fuel x y :
  forall cur closed, readonly (rings_loop props fuel x y cur closed).
Proof.
  induction fuel as [|fuel IH]; intros cur closed; cbn; [auto with readonly|].
  destruct cur as [c|]; [|auto with readonly].
  apply readonly_bind; [apply readonly_ring|]. intros [[batch closed'] next].
  apply readonly_bind; [apply IH|]. auto with readonly.
Qed.

Lemma readonly_iterateNearest props fuel this x y :
  readonly (iterateNearest props fuel this x y).
Proof.
  apply readonly_bind; [|auto with readonly].
  apply readonly_bind; [auto with readonly|]. intros leaf.
  apply readonly_bind; [apply readonly_start_scope|]. intros cur.
  apply readonly_rings_loop.
Qed.

Lemma readonly_nearest props fuel this x y count :
  readonly (nearest props fuel this x y count).
Proof.
  apply readonly_bind; [apply readonly_iterateNearest|]. auto with readonly.
Qed.

(** ** Sorting a batch *)

Section Sorting.

Variable key : Item -> Q.

Local Abbreviation le_key := (fun a b : Item => key a <= key b).

Lemma insert_by_perm a l : Permutation (insert_by key a l) (a :: l).
Proof.
  induction l as [|b l IH]; cbn; [reflexivity|].
  destruct (Qle_bool (key a) (key b)); [reflexivity|].
  rewrite IH. apply perm_swap.
Qed.

Lemma sort_by_perm l : Permutation (sort_by key l) l.
Proof.
  induction l as [|a l IH]; cbn; [reflexivity|].
  fold (sort_by key l). rewrite insert_by_perm, IH. reflexivity.
Qed.

Lemma insert_by_sorted a l :
  StronglySorted le_key l -> StronglySorted le_key (insert_by key a l).
Proof.
  induction 1 as [|b l Hs IH Hb]; cbn.
  - repeat constructor.
  - destruct (Qle_bool (key a) (key b)) eqn:E.
    + apply Qle_bool_iff in E. constructor; [constructor; auto|].
      constructor; [exact E|].
      eapply Forall_impl; [exact Hb|]. cbn. intros c Hc. lra.
    + apply Qle_bool_false in E. constructor; [exact IH|].
      eapply Permutation_Forall; [symmetry; apply insert_by_perm|].
      constructor; [lra|exact Hb].
Qed.

Lemma sort_by_sorted l : StronglySorted le_key (sort_by key l).
Proof.
  induction l as [|a l IH]; cbn; [constructor|].
  apply insert_by_sorted, IH.
Qed.

End Sorting.

(** ** iterateNearest runs to completion *)

Lemma drill_total s x y :
  Shape (heap s) ->
  forall this, (this < length (heap s))%nat ->
  exists cell, (cell < length (heap s))%nat /\
    forall fuel, (length (heap s) - this <= fuel)%nat ->
                 drill fuel this x y s = Done cell s.
Proof.
  intros HI.
  assert (Hgen : forall k this, (length (heap s) - this <= k)%nat ->
            (this < length (heap s))%nat ->
            exists cell, (cell < length (heap s))%nat /\
              forall fuel, (length (heap s) - this <= fuel)%nat ->
                           drill fuel this x y s = Done cell s).
  { induction k as [|k IH]; intros this Hk Hlt; [lia|].
    destruct (lookup_lt_is_Some_2 _ _ Hlt) as [n Hn].
    destruct (children n) as [cs|] eqn:Ecs.
    - destruct (HI _ _ Hn) as [_ Hwf].
      destruct (Hwf _ Ecs) as (Hlen & _ & _ & Hch).
      assert (Hq : (quadrant (center n) x y < length cs)%nat).
      { rewrite Hlen. unfold quadrant. destruct (Qltb _ _), (Qltb _ _); lia. }
      apply lookup_lt_is_Some_2 in Hq as [c Hc].
      destruct (Hch _ _ Hc) as (Hgt & nc & Hnc & _).
      pose proof (lookup_lt_Some _ _ _ Hnc) as Hclt.
      destruct (IH c ltac:(lia) Hclt) as (cell & Hcell & Hdrill).
      exists cell. split; [exact Hcell|]. intros fuel Hfuel.
      destruct fuel as [|fuel]; [lia|]. cbn [drill]. unfold bind at 1.
      rewrite (get_node_at _ _ _ Hn), Ecs. unfold bind, index. rewrite Hc.
      cbn. apply Hdrill. lia.
    - exists this. split; [exact Hlt|]. intros fuel Hfuel.
      destruct fuel as [|fuel]; [lia|]. cbn [drill]. unfold bind.
      rewrite (get_node_at _ _ _ Hn), Ecs. reflexivity. }
  intros this Hlt. apply (Hgen (length (heap s) - this)%nat); auto.
Qed.


Lemma flatMap_items_total s cs :
  (forall c, c ∈ cs -> is_Some (heap s !! c)) ->
  flatMap_items cs s = Done (concat (items_at (heap s) <$> cs)) s.
Proof.
  induction cs as [|c cs IH]; intros Hall; [reflexivity|].
  destruct (Hall c ltac:(left)) as [n Hn].
  cbn [flatMap_items fmap list_fmap concat]. unfold bind at 1.
  rewrite (get_node_at _ _ _ Hn). unfold bind.
  rewrite IH by (intros c' Hc'; apply Hall; right; exact Hc').
  unfold items_at at 2. rewrite Hn. reflexivity.
Qed.

Lemma tree_leaves_exist h l t :
  rep h l t -> forall c, c ∈ tree_leaves t -> is_Some (h !! c).
Proof.
  induction 1 as [l n Hn Hc|l n c0 c1 c2 c3 t0 t1 t2 t3 Hn Hc _ IH0 _ IH1 _ IH2 _ IH3];
    intros c Hin; cbn [tree_leaves] in Hin.
  - apply list_elem_of_singleton in Hin as ->. eauto.
  - rewrite !elem_of_app in Hin. destruct Hin as [?|[?|[?|?]]]; auto.
Qed.

Lemma filter_closed_subset trees : forall closed c,
  c ∈ (filter_closed trees closed).1 -> c ∈ trees.
Proof.
  induction trees as [|t trees IH]; intros closed c Hc; cbn in Hc; [inversion Hc|].
  destruct (decide (t ∈ closed)).
  - right. eapply IH, Hc.
  - destruct (filter_closed trees ({[t]} ∪ closed)) as [kept closed'] eqn:E.
    cbn in Hc. apply elem_of_cons in Hc as [->|Hc]; [left|right].
    eapply IH. rewrite E. exact Hc.
Qed.

Lemma ring_total props s x y cur t closed fuel n :
  rep (heap s) cur t -> heap s !! cur = Some n -> (tree_size t < fuel)%nat ->
  ring props fuel x y cur closed s =
  Done (ring_batch props (heap s) x y t closed,
        (filter_closed (tree_leaves t) closed).2, parent n) s.
Proof.
  intros Hrep Hn Hfuel. unfold ring, bind at 1.
  rewrite (iterateTrees_rep _ _ _ _ Hrep Hfuel).
  pose proof (filter_closed_subset (tree_leaves t) closed) as Hsub.
  unfold ring_batch.
  destruct (filter_closed (tree_leaves t) closed) as [fresh closed'].
  cbn [fst snd] in *. unfold bind at 1. rewrite flatMap_items_total.
  - unfold bind. rewrite (get_node_at _ _ _ Hn). reflexivity.
  - intros c Hc. eapply tree_leaves_exist; eauto.
Qed.



(** ** The leaves of the tree are the attached leaves of the arena *)

Lemma subtree_items t' t :
  subtree t' t -> forall i, i ∈ tree_items t' -> i ∈ tree_items t.
Proof.
  induction 1 as [t|t' t k Hk _ IH]; intros i Hi; [exact Hi|].
  specialize (IH i Hi). destruct t as [|l n t0 t1 t2 t3]; cbn in Hk; [inversion Hk|].
  cbn [tree_items]. rewrite !elem_of_app.
  rewrite !elem_of_cons, elem_of_nil in Hk.
  destruct Hk as [->|[->|[->|[->|[]]]]]; auto.
Qed.

Lemma subtree_trans t1 t2 t3 : subtree t1 t2 -> subtree t2 t3 -> subtree t1 t3.
Proof.
  intros H12 H23. induction H23 as [t|t2 t k Hk _ IH]; [exact H12|].
  eapply subtree_kid; eauto.
Qed.

Lemma rep_kid h l t n cs c :
  rep h l t -> h !! l = Some n -> children n = Some cs -> c ∈ cs ->
  exists k, k ∈ kids t /\ rep h c k.
Proof.
  intros Hrep Hn Hcs Hc.
  destruct Hrep as [l n' Hn' Hleaf|l n' c0 c1 c2 c3 t0 t1 t2 t3 Hn' Hcs' H0 H1 H2 H3].
  - congruence.
  - rewrite Hn in Hn'. injection Hn' as <-. rewrite Hcs in Hcs'.
    injection Hcs' as ->. cbn [kids].
    rewrite !elem_of_cons, elem_of_nil in Hc.
    destruct Hc as [->|[->|[->|[->|[]]]]];
      eexists; (split; [|eassumption]); rewrite !elem_of_cons; auto.
Qed.

Lemma attached_subtree h t :
  Links h -> rep h root t ->
  forall l n, h !! l = Some n -> attached h l n ->
  exists tl, subtree tl t /\ rep h l tl.
Proof.
  intros [HS Hint _ Horph] Hrep l.
  induction l as [l IH] using lt_wf_ind. intros n Hn Hatt.
  unfold attached in Hatt. destruct (parent n) as [q|] eqn:Eq.
  - destruct Hatt as (nq & cs & Hq & Hcs & Hl).
    destruct (HS _ _ Hn) as [Hlt _]. specialize (Hlt _ Eq).
    destruct (IH q Hlt nq Hq (Hint _ _ Hq ltac:(congruence))) as (tq & Hsub & Hrepq).
    destruct (rep_kid _ _ _ _ _ _ Hrepq Hq Hcs Hl) as (k & Hk & Hrepk).
    exists k. split; [|exact Hrepk].
    eapply subtree_trans; [|exact Hsub]. eapply subtree_kid; [exact Hk|constructor].
  - rewrite (Horph _ _ Hn Eq). exists t. split; [constructor|exact Hrep].
Qed.

Lemma holds_tree_items h t i :
  Links h -> rep h root t -> holds h i -> i ∈ tree_items t.
Proof.
  intros HL Hrep (l & n & (Hn & Hatt & Hleaf) & Hi).
  destruct (attached_subtree h t HL Hrep l n Hn Hatt) as (tl & Hsub & Hrepl).
  apply (subtree_items _ _ Hsub).
  destruct Hrepl as [l n' Hn' _|l n' c0 c1 c2 c3 t0 t1 t2 t3 Hn' Hcs' _ _ _ _].
  - rewrite Hn in Hn'. injection Hn' as <-. exact Hi.
  - congruence.
Qed.

Lemma tree_items_holds h l t i :
  Shape h -> rep h l t -> attached h l (tree_node t) ->
  i ∈ tree_items t -> holds h i.
Proof.
  intros HS. induction 1 as [l n Hn Hc|l n c0 c1 c2 c3 t0 t1 t2 t3 Hn Hc H0 IH0 H1 IH1 H2 IH2 H3 IH3];
    intros Hatt Hi; cbn [tree_items tree_node] in *.
  - exists l, n. split; [split_and!; auto|exact Hi].
  - destruct (HS _ _ Hn) as [_ Hwf].
    destruct (Hwf _ Hc) as (_ & _ & _ & Hch).
    assert (Hkid : forall k c tk, [c0; c1; c2; c3] !! k = Some c -> rep h c tk ->
              attached h c (tree_node tk)).
    { intros k c tk Hk Hrep. destruct (Hch _ _ Hk) as (_ & nk & Hnk & Hpar & _).
      rewrite (proj1 (rep_node _ _ _ Hrep)) in Hnk. injection Hnk as <-.
      unfold attached. rewrite Hpar. exists n, [c0; c1; c2; c3]. split_and!; auto.
      eapply list_elem_of_lookup_2, Hk. }
    rewrite !elem_of_app in Hi. destruct Hi as [Hi|[Hi|[Hi|Hi]]].
    + apply IH3; [apply (Hkid 3%nat c3 t3 eq_refl H3)|exact Hi].
    + apply IH2; [apply (Hkid 2%nat c2 t2 eq_refl H2)|exact Hi].
    + apply IH1; [apply (Hkid 1%nat c1 t1 eq_refl H1)|exact Hi].
    + apply IH0; [apply (Hkid 0%nat c0 t0 eq_refl H0)|exact Hi].
Qed.

Lemma root_attached h : is_root h root -> forall n, h !! root = Some n -> attached h root n.
Proof.
  intros (r & Hr & Hp & _) n Hn. rewrite Hr in Hn. injection Hn as <-.
  unfold attached. rewrite Hp. exact I.
Qed.

(** * The public interface *)

Lemma new_D2Tree_eq props :
  new_D2Tree props =
  if (density props <? 2)%Z then Throw (Error "density must be 2 or more")
  else Done root (mkStore [root_node] ∅).
Proof.
  unfold new_D2Tree, constructor.
  destruct (density props <=? 1)%Z eqn:E1, (density props <? 2)%Z eqn:E2;
    try reflexivity.
  - apply Z.leb_le in E1. apply Z.ltb_ge in E2. lia.
  - apply Z.leb_gt in E1. apply Z.ltb_lt in E2. lia.
Qed.

Lemma holds_is_stored s i : Inv s -> holds (heap s) i -> is_stored s i.
Proof.
  intros HI Hh. pose proof (inv_links _ HI) as HL.
  destruct (links_root _ HL) as (r & Hr & _).
  destruct (rep_exists _ (links_shape _ HL) root (lookup_lt_Some _ _ _ Hr)) as [t Hrep].
  exists (S (tree_size t)), (tree_items t). split.
  - apply iterator_rep; [exact Hrep|lia].
  - eapply holds_tree_items; eauto.
Qed.

Lemma Inv_initial : Inv (mkStore [root_node] ∅).
Proof.
  assert (Hone : forall l n, [root_node] !! l = Some n -> l = root /\ n = root_node).
  { intros l n H. apply list_lookup_singleton_Some in H as [-> <-]. auto. }
  split; cbn [heap itemToTreeMap].
  - split.
    + intros l n H. destruct (Hone _ _ H) as [-> ->].
      apply node_wf_leaf; [discriminate|reflexivity].
    + intros l n H Hc. destruct (Hone _ _ H) as [-> ->]. cbn in Hc. congruence.
    + exists root_node. split_and!; reflexivity.
    + intros l n H _. apply (Hone _ _ H).
  - intros l n i (H & _) Hi. destruct (Hone _ _ H) as [-> ->]. inversion Hi.
  - intros l n (H & _). destruct (Hone _ _ H) as [-> ->]. apply NoDup_nil_2.
  - intros i c nc Hm. rewrite lookup_empty in Hm. discriminate.
  - intros i c Hm. rewrite lookup_empty in Hm. discriminate.
Qed.

Lemma Within_agree who props props' h :
  Within nobody props h ->
  (forall i, holds h i -> ~ who i ->
             getItemPosition props' i = getItemPosition props i) ->
  Within who props' h.
Proof.
  intros HW Hag l n i Hlive Hi Hw.
  rewrite (Hag i ltac:(exists l, n; auto) Hw).
  apply (HW l n i Hlive Hi). intros [].
Qed.

Theorem reachable_invariants props s :
  reachable props s ->
  Inv s /\ internal_empty (heap s) /\ Within nobody props (heap s) /\
  (1 < density props)%Z.
Proof.
  induction 1 as [props s H|props s fuel item s' _ IH Hfresh H
                  |props s item s' _ IH H
                  |props props' s fuel item s' _ IH [Hd _] Hag H
                  |props props' s _ IH [Hd _] Hag].
  - rewrite new_D2Tree_eq in H. destruct (density props <? 2)%Z eqn:E; [discriminate|].
    injection H as <-. apply Z.ltb_ge in E. split_and!.
    + apply Inv_initial.
    + intros l n Hl Hc. apply list_lookup_singleton_Some in Hl as [_ <-].
      reflexivity.
    + intros l n i (Hl & _) Hi. apply list_lookup_singleton_Some in Hl as [_ <-].
      inversion Hi.
    + lia.
  - destruct IH as (HI & He & HW & Hd).
    assert (Hf : ~ holds (heap s) item).
    { intros Hh. apply Hfresh. apply holds_is_stored; auto. }
    destruct (add_root_keeps_invariants _ _ _ _ _ _ HI He HW Hf H) as (HI' & He' & HW' & _).
    auto.
  - destruct IH as (HI & He & HW & Hd).
    destruct (remove_keeps_invariants _ _ _ _ _ _ HI He H) as (HI' & He' & HW' & _).
    auto.
  - destruct IH as (HI & He & HW & Hd0).
    assert (HW' : Within (fun i => i = item) props' (heap s)).
    { apply (Within_agree _ props); [exact HW|].
      intros i Hh Hne. apply Hag; [apply holds_is_stored; auto|exact Hne]. }
    destruct (update_keeps_invariants _ _ _ _ _ _ HI He HW' H) as (HI' & He' & HW'').
    split_and!; auto. lia.
  - destruct IH as (HI & He & HW & Hd0). split_and!; auto; [|lia].
    apply (Within_agree _ props); [exact HW|].
    intros i Hh _. apply Hag. apply holds_is_stored; auto.
Qed.

(** ** What the default iteration yields does not depend on the fuel *)

Lemma iterate_loop_mono : forall fuel fuel' remaining s r s',
  (fuel <= fuel')%nat ->
  iterate_loop fuel remaining s = Done r s' ->
  iterate_loop fuel' remaining s = Done r s'.
Proof.
  induction fuel as [|fuel IH]; intros fuel' remaining s r s' Hle H; [discriminate|].
  destruct fuel' as [|fuel']; [lia|]. cbn [iterate_loop] in *.
  destruct remaining as [|c rest]; [exact H|].
  unfold bind at 1 in H. unfold bind at 1.
  destruct (get_node c s) as [n s1| |]; try discriminate.
  destruct (children n).
  - apply (IH fuel'); [lia|exact H].
  - unfold bind in *.
    destruct (iterate_loop fuel rest s1) as [more s2| |] eqn:E; try discriminate.
    rewrite (IH fuel' _ _ _ _ ltac:(lia) E). exact H.
Qed.

Lemma iterator_deterministic fuel1 fuel2 this s all1 all2 s1 s2 :
  iterator fuel1 this s = Done all1 s1 ->
  iterator fuel2 this s = Done all2 s2 ->
  all1 = all2.
Proof.
  unfold iterator. intros H1 H2.
  apply (iterate_loop_mono _ (Nat.max fuel1 fuel2)) in H1; [|lia].
  apply (iterate_loop_mono _ (Nat.max fuel1 fuel2)) in H2; [|lia].
  congruence.
Qed.

Lemma not_stored_by_run fuel all s item :
  iterator fuel root s = Done all s -> item ∉ all -> ~ is_stored s item.
Proof.
  intros Hrun Hnot (fuel' & all' & Hrun' & Hin).
  rewrite (iterator_deterministic _ _ _ _ _ _ _ _ Hrun' Hrun) in Hin. auto.
Qed.


Lemma part000_descend_stuck s this n cs x y :
  heap s !! this = Some n -> children n = Some cs -> length cs = 4%nat ->
  forall fuel cur, Part000.descend fuel this cur x y s = OutOfFuel.
Proof.
  intros Hn Hcs Hlen. induction fuel as [|fuel IH]; intros cur; [reflexivity|].
  cbn [Part000.descend]. unfold bind at 1. rewrite (get_node_at _ _ _ Hn), Hcs.
  assert (Hq : (quadrant (center n) x y < length cs)%nat).
  { rewrite Hlen. unfold quadrant. destruct (Qltb _ _), (Qltb _ _); lia. }
  apply lookup_lt_is_Some_2 in Hq as [c Hc].
  unfold bind, index. rewrite Hc. cbn. apply IH.
Qed.

(** * A worked example: the tree of the repository's tests *)

Lemma example_add_0 :
  add example_props 3 root 0%nat (mkStore [root_node] ∅) = Done tt (example_leaf [0%nat]).
Proof. vm_compute. reflexivity. Qed.

Lemma example_add_1 :
  add example_props 3 root 1%nat (example_leaf [0%nat]) = Done tt (example_leaf [0; 1]%nat).
Proof. vm_compute. reflexivity. Qed.

Lemma example_add_2 :
  add example_props 3 root 2%nat (example_leaf [0; 1]%nat) =
  Done tt (example_leaf [0; 1; 2]%nat).
Proof. vm_compute. reflexivity. Qed.

Lemma example_add_3 :
  add example_props 6 root 3%nat (example_leaf [0; 1; 2]%nat) = Done tt example_split.
Proof. vm_compute. reflexivity. Qed.

Lemma example_leaf_stored its :
  iterator 2 root (example_leaf its) = Done its (example_leaf its).
Proof.
  unfold iterator. cbn [iterate_loop]. unfold bind, get_node. cbn.
  rewrite app_nil_r. reflexivity.
Qed.

Ltac decide_not_in := rewrite ?elem_of_cons, elem_of_nil; lia.

Lemma example_new_reachable : reachable example_props (mkStore [root_node] ∅).
Proof. apply reachable_new. reflexivity. Defined.

Lemma example_leaf_0_reachable : reachable example_props (example_leaf [0%nat]).
Proof.
  eapply reachable_add; [exact example_new_reachable| |exact example_add_0].
  apply (not_stored_by_run 2 []); [reflexivity|]. decide_not_in.
Defined.

Lemma example_leaf_reachable : reachable example_props (example_leaf [0; 1; 2]%nat).
Proof.
  eapply reachable_add; [| |exact example_add_2].
  - eapply reachable_add; [exact example_leaf_0_reachable| |exact example_add_1].
    apply (not_stored_by_run 2 [0%nat]); [apply example_leaf_stored|]. decide_not_in.
  - apply (not_stored_by_run 2 [0; 1]%nat); [apply example_leaf_stored|]. decide_not_in.
Defined.

Lemma example_split_reachable : reachable example_props example_split.
Proof.
  eapply reachable_add; [exact example_leaf_reachable| |exact example_add_3].
  apply (not_stored_by_run 2 [0; 1; 2]%nat); [apply example_leaf_stored|]. decide_not_in.
Defined.

(** ** When add splits *)

Lemma differs_spec (p q : point) :
  negb (Qeq_bool (fst p) (fst q)) || negb (Qeq_bool (snd p) (snd q)) = false <->
  same_position p q.
Proof.
  unfold same_position. rewrite orb_false_iff, !negb_false_iff, !Qeq_bool_iff.
  reflexivity.
Qed.

Lemma existsb_false {A} (f : A -> bool) (l : list A) :
  existsb f l = false <-> forall a, a ∈ l -> f a = false.
Proof.
  induction l as [|b l IH]; cbn.
  - split; [intros _ a Ha; inversion Ha|reflexivity].
  - rewrite orb_false_iff, IH. split.
    + intros [Hb Hl] a Ha. apply elem_of_cons in Ha as [->|Ha]; auto.
    + intros H. split; [apply H; left|]. intros a Ha. apply H. right. exact Ha.
Qed.

Lemma shouldSplit_items_spec props its :
  shouldSplit_items props its = true <->
  (density props <= Z.of_nat (length its))%Z /\ ~ coincident props its.
Proof.
  unfold shouldSplit_items.
  destruct (Z.of_nat (length its) <? density props)%Z eqn:E.
  - apply Z.ltb_lt in E. split; [discriminate|]. intros [H _]. lia.
  - apply Z.ltb_ge in E. destruct its as [|i0 rest].
    + split; [discriminate|]. intros [_ H]. exfalso. apply H.
      intros i j Hi. inversion Hi.
    + destruct (existsb _ rest) eqn:Ex.
      * split; [|reflexivity]. intros _. split; [exact E|]. intros Hco.
        apply existsb_exists in Ex as (i & Hi & Hd).
        apply list_elem_of_In in Hi.
        assert (Hs : same_position (getItemPosition props i0) (getItemPosition props i)).
        { apply Hco; [left|right; exact Hi]. }
        apply differs_spec in Hs. congruence.
      * split; [discriminate|]. intros [_ Hnot]. exfalso. apply Hnot.
        pose proof (proj1 (existsb_false _ _) Ex) as Hall.
        assert (H0 : forall i, i ∈ i0 :: rest ->
                  same_position (getItemPosition props i0) (getItemPosition props i)).
        { intros i Hi. apply elem_of_cons in Hi as [->|Hi].
          - split; reflexivity.
          - apply differs_spec, Hall, Hi. }
        intros i j Hi Hj. destruct (H0 i Hi) as [A1 A2], (H0 j Hj) as [B1 B2].
        split; [rewrite <- A1, <- B1|rewrite <- A2, <- B2]; reflexivity.
Qed.


Lemma coincident_sublist props its its' :
  (forall i, i ∈ its' -> i ∈ its) -> coincident props its -> coincident props its'.
Proof. intros Hsub H i j Hi Hj. apply H; auto. Qed.

Lemma add_no_split props fuel this item s n :
  heap s !! this = Some n -> children n = None ->
  shouldSplit_items props (items n) = false ->
  add props (S (S fuel)) this item s =
  Done tt (mkStore (<[this := with_items (items n ++ [item]) n]> (heap s))
                   (<[item := this]> (itemToTreeMap s))).
Proof.
  intros Hn Hleaf Hno. cbn [add drill]. unfold bind at 1, bind at 1.
  rewrite (get_node_at _ _ _ Hn), Hleaf. cbn [ret].
  unfold bind at 1, shouldSplit, bind at 1.
  rewrite (get_node_at _ _ _ Hn). cbn [ret]. rewrite Hno.
  unfold bind at 1, update_node, bind at 1.
  rewrite (get_node_at _ _ _ Hn). reflexivity.
Qed.


(** * The mutators run to completion *)

(** ** drill finds the one leaf whose bounds hold the point *)








(** ** The centroid separates items that are not all at one position *)







(** ** A re-added item always lands in a smaller leaf *)



(** ** add completes *)








(** ** remove and update complete *)

Lemma remove_total props this item s :
  Inv s -> exists s', remove props this item s = Done tt s'.
Proof.
  intros HI. destruct (itemToTreeMap s !! item) as [c|] eqn:Em.
  - destruct (lookup_lt_is_Some_2 _ _ (inv_valid _ HI _ _ Em)) as [nc Hc].
    destruct (indexOf item (items nc)) as [idx|] eqn:Eidx.
    + eexists. apply (remove_found props this item s c nc idx); auto.
      exact (links_shape _ (inv_links _ HI)).
    + exists s. eapply remove_not_held; eauto.
  - exists s. apply remove_no_entry, Em.
Qed.




Lemma remove_completes props s item :
  reachable props s ->
  exists s', reachable props s' /\ remove props root item s = Done tt s'.
Proof.
  intros Hreach. destruct (reachable_invariants _ _ Hreach) as (HI & _).
  destruct (remove_total props root item s HI) as [s' Hrm].
  exists s'. split; [|exact Hrm]. eapply reachable_remove; eauto.
Qed.


(** * iterateNearest visits every leaf once *)

(** ** The leaves of a tree are distinct nodes *)

Lemma under_le h a x : Shape h -> under h a x -> (a <= x)%nat.
Proof.
  intros HS. induction 1 as [|x nx p Hx Hp _ IH]; [lia|].
  destruct (HS _ _ Hx) as [Hlt _]. specialize (Hlt _ Hp). lia.
Qed.

Lemma under_up h a x na p :
  under h a x -> h !! a = Some na -> parent na = Some p -> under h p x.
Proof.
  intros H Ha Hp. induction H as [|x nx q Hx Hq _ IH].
  - eapply under_parent; eauto. constructor.
  - eapply under_parent; eauto.
Qed.

Lemma under_linear h a b x :
  under h a x -> under h b x -> under h a b \/ under h b a.
Proof.
  intros Ha. revert b. induction Ha as [|x nx p Hx Hp Ha IH]; intros b Hb.
  - right. exact Hb.
  - inversion Hb as [|x' nx' p' Hx' Hp' Hb']; subst.
    + left. eapply under_parent; eauto.
    + rewrite Hx in Hx'. injection Hx' as <-. rewrite Hp in Hp'.
      injection Hp' as <-. apply IH, Hb'.
Qed.

Lemma siblings_apart h a b na nb p x :
  Shape h -> h !! a = Some na -> h !! b = Some nb ->
  parent na = Some p -> parent nb = Some p ->
  under h a x -> under h b x -> a = b.
Proof.
  intros HS Ha Hb Hpa Hpb Hxa Hxb.
  assert (Hone : forall a b na nb,
            h !! a = Some na -> h !! b = Some nb ->
            parent na = Some p -> parent nb = Some p -> under h a b -> a = b).
  { clear -HS. intros a b na nb Ha Hb Hpa Hpb Hu.
    inversion Hu as [|b' nb' q Hb' Hq Hu']; subst; [reflexivity|].
    rewrite Hb in Hb'. injection Hb' as <-. rewrite Hpb in Hq.
    injection Hq as <-.
    pose proof (under_le _ _ _ HS Hu').
    destruct (HS _ _ Ha) as [Hlt _]. specialize (Hlt _ Hpa). lia. }
  destruct (under_linear h a b x Hxa Hxb) as [H|H].
  - eapply Hone; eauto.
  - symmetry. eapply Hone; eauto.
Qed.

Lemma tree_leaves_under h l t :
  Shape h -> rep h l t -> forall x, x ∈ tree_leaves t -> under h l x.
Proof.
  intros HS.
  induction 1 as [l n Hn Hc|l n c0 c1 c2 c3 t0 t1 t2 t3 Hn Hc H0 IH0 H1 IH1 H2 IH2 H3 IH3];
    intros x Hx; cbn [tree_leaves] in Hx.
  - apply list_elem_of_singleton in Hx as ->. constructor.
  - destruct (HS _ _ Hn) as [_ Hwf].
    destruct (Hwf _ Hc) as (_ & _ & _ & Hch).
    assert (Hup : forall k c, [c0; c1; c2; c3] !! k = Some c ->
              under h c x -> under h l x).
    { intros k c Hk Hu. destruct (Hch _ _ Hk) as (_ & nc & Hnc & Hpar & _).
      eapply under_up; eauto. }
    rewrite !elem_of_app in Hx. destruct Hx as [Hx|[Hx|[Hx|Hx]]].
    + apply (Hup 3%nat c3 eq_refl), IH3, Hx.
    + apply (Hup 2%nat c2 eq_refl), IH2, Hx.
    + apply (Hup 1%nat c1 eq_refl), IH1, Hx.
    + apply (Hup 0%nat c0 eq_refl), IH0, Hx.
Qed.

Lemma tree_leaves_NoDup h l t :
  Shape h -> rep h l t -> NoDup (tree_leaves t).
Proof.
  intros HS.
  induction 1 as [l n Hn Hc|l n c0 c1 c2 c3 t0 t1 t2 t3 Hn Hc H0 IH0 H1 IH1 H2 IH2 H3 IH3];
    cbn [tree_leaves].
  - apply NoDup_singleton.
  - destruct (HS _ _ Hn) as [_ Hwf].
    destruct (Hwf _ Hc) as (_ & Hnd & _ & Hch).
    assert (Hapart : forall j k cj ck tj tk x,
              [c0; c1; c2; c3] !! j = Some cj -> [c0; c1; c2; c3] !! k = Some ck ->
              rep h cj tj -> rep h ck tk ->
              x ∈ tree_leaves tj -> x ∈ tree_leaves tk -> j = k).
    { intros j k cj ck tj tk x Hj Hk Hrj Hrk Hxj Hxk.
      destruct (Hch _ _ Hj) as (_ & nj & Hnj & Hpj & _).
      destruct (Hch _ _ Hk) as (_ & nk & Hnk & Hpk & _).
      pose proof (siblings_apart h cj ck nj nk l x HS Hnj Hnk Hpj Hpk
                    (tree_leaves_under h cj tj HS Hrj x Hxj)
                    (tree_leaves_under h ck tk HS Hrk x Hxk)) as E.
      subst ck. eapply NoDup_lookup; eauto. }
    rewrite !NoDup_app. split_and!; auto.
    + intros x H3x Hx. rewrite !elem_of_app in Hx. destruct Hx as [Hx|[Hx|Hx]].
      * pose proof (Hapart 3%nat 2%nat _ _ _ _ x eq_refl eq_refl H3 H2 H3x Hx). lia.
      * pose proof (Hapart 3%nat 1%nat _ _ _ _ x eq_refl eq_refl H3 H1 H3x Hx). lia.
      * pose proof (Hapart 3%nat 0%nat _ _ _ _ x eq_refl eq_refl H3 H0 H3x Hx). lia.
    + intros x H2x Hx. rewrite !elem_of_app in Hx. destruct Hx as [Hx|Hx].
      * pose proof (Hapart 2%nat 1%nat _ _ _ _ x eq_refl eq_refl H2 H1 H2x Hx). lia.
      * pose proof (Hapart 2%nat 0%nat _ _ _ _ x eq_refl eq_refl H2 H0 H2x Hx). lia.
    + intros x H1x Hx.
      pose proof (Hapart 1%nat 0%nat _ _ _ _ x eq_refl eq_refl H1 H0 H1x Hx). lia.
Qed.

Lemma rep_functional h l t : rep h l t -> forall t', rep h l t' -> t = t'.
Proof.
  induction 1 as [l n Hn Hc|l n c0 c1 c2 c3 t0 t1 t2 t3 Hn Hc _ IH0 _ IH1 _ IH2 _ IH3];
    intros t' H'.
  - destruct H' as [l n' Hn' Hc'|l n' d0 d1 d2 d3 u0 u1 u2 u3 Hn' Hc' _ _ _ _].
    + congruence.
    + rewrite Hn in Hn'. injection Hn' as <-. congruence.
  - destruct H' as [l n' Hn' Hc'|l n' d0 d1 d2 d3 u0 u1 u2 u3 Hn' Hc' G0 G1 G2 G3].
    + rewrite Hn in Hn'. injection Hn' as <-. congruence.
    + rewrite Hn in Hn'. injection Hn' as <-. rewrite Hc in Hc'.
      injection Hc' as <- <- <- <-.
      rewrite (IH0 _ G0), (IH1 _ G1), (IH2 _ G2), (IH3 _ G3). reflexivity.
Qed.

Lemma subtree_leaves t' t :
  subtree t' t -> forall c, c ∈ tree_leaves t' -> c ∈ tree_leaves t.
Proof.
  induction 1 as [t|t' t k Hk _ IH]; intros c Hc; [exact Hc|].
  specialize (IH c Hc). destruct t as [|l n t0 t1 t2 t3]; cbn in Hk; [inversion Hk|].
  cbn [tree_leaves]. rewrite !elem_of_app.
  rewrite !elem_of_cons, elem_of_nil in Hk.
  destruct Hk as [->|[->|[->|[->|[]]]]]; auto.
Qed.

Lemma filter_ext_in {A} (P Q : A -> Prop) `{!forall x, Decision (P x)}
    `{!forall x, Decision (Q x)} (l : list A) :
  (forall x, x ∈ l -> P x <-> Q x) -> filter P l = filter Q l.
Proof.
  induction l as [|a l IH]; intros Hpq; [reflexivity|].
  assert (Hl : forall x, x ∈ l -> P x <-> Q x)
    by (intros x Hx; apply Hpq; right; exact Hx).
  assert (Ha : P a <-> Q a) by (apply Hpq; left).
  destruct (decide (P a)) as [Hp|Hp].
  - rewrite !filter_cons_True by tauto. rewrite IH by exact Hl. reflexivity.
  - rewrite !filter_cons_False by tauto. apply IH, Hl.
Qed.

Lemma filter_closed_NoDup trees : forall closed,
  NoDup trees ->
  (filter_closed trees closed).1 = filter (fun c => c ∉ closed) trees /\
  forall c, c ∈ (filter_closed trees closed).2 <-> c ∈ trees \/ c ∈ closed.
Proof.
  induction trees as [|t trees IH]; intros closed Hnd.
  - cbn. split; [reflexivity|]. intros c. rewrite elem_of_nil. tauto.
  - apply NoDup_cons in Hnd as [Hnotin Hnd]. cbn [filter_closed].
    destruct (decide (t ∈ closed)) as [Hin|Hout].
    + destruct (IH closed Hnd) as [E1 E2]. split.
      * rewrite E1, filter_cons_False by auto. reflexivity.
      * intros c. rewrite E2, elem_of_cons. split; [tauto|].
        intros [[->|?]|?]; auto.
    + destruct (IH ({[t]} ∪ closed) Hnd) as [E1 E2].
      destruct (filter_closed trees ({[t]} ∪ closed)) as [kept closed'].
      cbn [fst snd] in *. split.
      * rewrite filter_cons_True by auto. rewrite E1. f_equal.
        apply filter_ext_in. intros x Hx.
        rewrite elem_of_union, elem_of_singleton. split; [tauto|].
        intros Hxc [->|?]; auto.
      * intros c. rewrite E2, elem_of_cons, elem_of_union, elem_of_singleton.
        tauto.
Qed.

(** ** The batches of iterateNearest, laid end to end *)

Lemma tree_items_leaves h l t :
  rep h l t -> tree_items t = concat (items_at h <$> tree_leaves t).
Proof.
  induction 1 as [l n Hn Hc|l n c0 c1 c2 c3 t0 t1 t2 t3 Hn Hc _ IH0 _ IH1 _ IH2 _ IH3];
    cbn [tree_items tree_leaves].
  - cbn. unfold items_at. rewrite Hn, app_nil_r. reflexivity.
  - rewrite !fmap_app, !concat_app, IH0, IH1, IH2, IH3. reflexivity.
Qed.

Lemma tree_leaves_live h l t :
  Shape h -> rep h l t -> attached h l (tree_node t) ->
  forall c, c ∈ tree_leaves t -> exists n, live_leaf h c n.
Proof.
  intros HS.
  induction 1 as [l n Hn Hc|l n c0 c1 c2 c3 t0 t1 t2 t3 Hn Hc H0 IH0 H1 IH1 H2 IH2 H3 IH3];
    intros Hatt c Hin; cbn [tree_leaves tree_node] in *.
  - apply list_elem_of_singleton in Hin as ->. exists n. split_and!; auto.
  - destruct (HS _ _ Hn) as [_ Hwf].
    destruct (Hwf _ Hc) as (_ & _ & _ & Hch).
    assert (Hkid : forall k c tk, [c0; c1; c2; c3] !! k = Some c -> rep h c tk ->
              attached h c (tree_node tk)).
    { intros k c' tk Hk Hrep. destruct (Hch _ _ Hk) as (_ & nk & Hnk & Hpar & _).
      rewrite (proj1 (rep_node _ _ _ Hrep)) in Hnk. injection Hnk as <-.
      unfold attached. rewrite Hpar. exists n, [c0; c1; c2; c3]. split_and!; auto.
      eapply list_elem_of_lookup_2, Hk. }
    rewrite !elem_of_app in Hin. destruct Hin as [Hi|[Hi|[Hi|Hi]]].
    + apply IH3; [apply (Hkid 3%nat c3 t3 eq_refl H3)|exact Hi].
    + apply IH2; [apply (Hkid 2%nat c2 t2 eq_refl H2)|exact Hi].
    + apply IH1; [apply (Hkid 1%nat c1 t1 eq_refl H1)|exact Hi].
    + apply IH0; [apply (Hkid 0%nat c0 t0 eq_refl H0)|exact Hi].
Qed.

Lemma items_at_perm h l l' :
  l ≡ₚ l' -> concat (items_at h <$> l) ≡ₚ concat (items_at h <$> l').
Proof.
  induction 1 as [|a l l' _ IH|a b l|l1 l2 l3 _ IH1 _ IH2]; cbn.
  - reflexivity.
  - rewrite IH. reflexivity.
  - rewrite !app_assoc. apply Permutation_app_tail, Permutation_app_comm.
  - etransitivity; eauto.
Qed.

Lemma rings_loop_visits props s x y troot :
  Links (heap s) -> rep (heap s) root troot ->
  forall cur closed ncur,
    heap s !! cur = Some ncur -> attached (heap s) cur ncur ->
    exists fuel0 batches,
      Forall (StronglySorted (fun a b => distanceSquared props x y a <=
                                         distanceSquared props x y b)) batches /\
      concat batches ≡ₚ
        concat (items_at (heap s) <$> filter (fun c => c ∉ closed) (tree_leaves troot)) /\
      forall fuel, (fuel0 <= fuel)%nat ->
        rings_loop props fuel x y (Some cur) closed s = Done batches s.
Proof.
  intros HL Hroot. pose proof (links_shape _ HL) as HS.
  pose proof (tree_leaves_NoDup _ _ _ HS Hroot) as Hnd_root.
  intros cur. induction cur as [cur IH] using lt_wf_ind.
  intros closed ncur Hcur Hatt.
  destruct (attached_subtree _ _ HL Hroot cur ncur Hcur Hatt) as (t & Hsub & Hrep).
  pose proof (tree_leaves_NoDup _ _ _ HS Hrep) as Hnd.
  destruct (filter_closed_NoDup (tree_leaves t) closed Hnd) as [E1 E2].
  assert (Hbatch : ring_batch props (heap s) x y t closed ≡ₚ
            concat (items_at (heap s) <$> filter (fun c => c ∉ closed) (tree_leaves t))).
  { unfold ring_batch. rewrite sort_by_perm, E1. reflexivity. }
  set (closed' := (filter_closed (tree_leaves t) closed).2) in *.
  destruct (parent ncur) as [p|] eqn:Ep.
  - pose proof Hatt as Hatt'. unfold attached in Hatt'. rewrite Ep in Hatt'.
    destruct Hatt' as (np & cs & Hp & Hcs & _).
    destruct (HS _ _ Hcur) as [Hpar _]. specialize (Hpar _ Ep).
    assert (Hattp : attached (heap s) p np).
    { apply (links_internal _ HL _ _ Hp). congruence. }
    destruct (IH p Hpar closed' np Hp Hattp) as (fuel1 & batches & Hsorted & Hperm & Hrun).
    exists (S (Nat.max (S (tree_size t)) fuel1)),
           (ring_batch props (heap s) x y t closed :: batches).
    split_and!.
    + constructor; [apply sort_by_sorted|exact Hsorted].
    + cbn [concat]. rewrite Hbatch, Hperm, <- concat_app, <- fmap_app.
      apply items_at_perm, NoDup_Permutation.
      * apply NoDup_app. split_and!; try (apply NoDup_filter; assumption).
        intros c Hc Hc'. apply list_elem_of_filter in Hc as [_ Hc].
        apply list_elem_of_filter in Hc' as [Hc' _]. apply Hc', E2. auto.
      * apply NoDup_filter, Hnd_root.
      * intros c. rewrite elem_of_app, !list_elem_of_filter, E2.
        pose proof (subtree_leaves _ _ Hsub c).
        destruct (decide (c ∈ tree_leaves t)); tauto.
    + intros fuel Hfuel. destruct fuel as [|fuel]; [lia|].
      cbn [rings_loop]. unfold bind at 1.
      rewrite (ring_total props s x y cur t closed fuel ncur Hrep Hcur ltac:(lia)).
      rewrite Ep. unfold bind. fold closed'. rewrite Hrun by lia. reflexivity.
  - assert (cur = root) by (eapply links_orphan; eauto). subst cur.
    pose proof (rep_functional _ _ _ Hrep _ Hroot) as ->.
    exists (S (S (tree_size troot))), [ring_batch props (heap s) x y troot closed].
    split_and!.
    + constructor; [apply sort_by_sorted|constructor].
    + cbn [concat]. rewrite app_nil_r. exact Hbatch.
    + intros fuel Hfuel. destruct fuel as [|fuel]; [lia|].
      cbn [rings_loop]. unfold bind at 1.
      rewrite (ring_total props s x y root troot closed fuel ncur Hrep Hcur ltac:(lia)).
      rewrite Ep. unfold bind. destruct fuel as [|fuel]; [lia|]. reflexivity.
Qed.

Lemma start_scope_attached s cur n :
  Links (heap s) -> heap s !! cur = Some n -> attached (heap s) cur n ->
  exists scope nsc, start_scope cur s = Done scope s /\
    heap s !! scope = Some nsc /\ attached (heap s) scope nsc.
Proof.
  intros HL Hn Hatt. unfold start_scope, bind. rewrite (get_node_at _ _ _ Hn).
  destruct (parent n) as [p|] eqn:Ep; [|eauto].
  pose proof Hatt as Hatt'. unfold attached in Hatt'. rewrite Ep in Hatt'.
  destruct Hatt' as (np & cs & Hp & Hcs & _).
  assert (Hattp : attached (heap s) p np).
  { apply (links_internal _ HL _ _ Hp). congruence. }
  rewrite (get_node_at _ _ _ Hp).
  destruct (parent np) as [g|] eqn:Eg; [|eauto].
  pose proof Hattp as Hattp'. unfold attached in Hattp'. rewrite Eg in Hattp'.
  destruct Hattp' as (ng & gs & Hg & Hgs & _).
  exists g, ng. split_and!; auto.
  apply (links_internal _ HL _ _ Hg). congruence.
Qed.

Lemma tree_items_NoDup s t :
  Inv s -> rep (heap s) root t -> NoDup (tree_items t).
Proof.
  intros HI Hrep. pose proof (inv_links _ HI) as HL.
  pose proof (links_shape _ HL) as HS.
  assert (Hatt : attached (heap s) root (tree_node t)).
  { apply root_attached; [exact (links_root _ HL)|].
    apply (proj1 (rep_node _ _ _ Hrep)). }
  assert (Hlive : forall c, c ∈ tree_leaves t ->
            exists n, live_leaf (heap s) c n /\ items_at (heap s) c = items n).
  { intros c Hc. destruct (tree_leaves_live _ _ _ HS Hrep Hatt c Hc) as [n Hl].
    exists n. split; [exact Hl|]. unfold items_at. rewrite (proj1 Hl). reflexivity. }
  rewrite (tree_items_leaves _ _ _ Hrep). apply NoDup_concat_items_at.
  - eapply tree_leaves_NoDup; eauto.
  - intros c Hc. destruct (Hlive c Hc) as (n & Hl & ->).
    apply (inv_nodup _ HI _ _ Hl).
  - intros c c' i Hc Hc' Hi Hi'.
    destruct (Hlive c Hc) as (n & Hl & E). rewrite E in Hi.
    destruct (Hlive c' Hc') as (n' & Hl' & E'). rewrite E' in Hi'.
    pose proof (inv_index _ HI _ _ _ Hl Hi) as H1.
    pose proof (inv_index _ HI _ _ _ Hl' Hi') as H2. congruence.
Qed.

(** On every store a caller can obtain, iterateNearest of src/mod.ts
    completes and yields every stored item exactly once. *)
Lemma iterateNearest_yields_stored props s x y :
  reachable props s ->
  exists fuel0 found all,
    (forall fuel, (fuel0 <= fuel)%nat ->
       iterateNearest props fuel root x y s = Done found s /\
       iterator fuel root s = Done all s) /\
    found ≡ₚ all /\ NoDup found.
Proof.
  intros Hreach. destruct (reachable_invariants _ _ Hreach) as (HI & _).
  pose proof (inv_links _ HI) as HL. pose proof (links_shape _ HL) as HS.
  pose proof (links_root _ HL) as Hroot. destruct (Hroot) as (r & Hr & _).
  destruct (rep_exists _ HS root (lookup_lt_Some _ _ _ Hr)) as [t Hrep].
  destruct (drill_total s x y HS root (lookup_lt_Some _ _ _ Hr))
    as (leaf & _ & Hdrill).
  destruct (drill_spec _ _ _ _ _ _ _ _ HS Hr (root_attached _ Hroot _ Hr)
              (within_root _ _ _ (x, y) Hroot Hr) (Hdrill _ (Nat.le_refl _)))
    as (nl & (Hl & Hattl & _) & _).
  destruct (start_scope_attached s leaf nl HL Hl Hattl)
    as (scope & nsc & Hstart & Hsc & Hattsc).
  destruct (rings_loop_visits props s x y t HL Hrep scope ∅ nsc Hsc Hattsc)
    as (fuel1 & batches & _ & Hperm & Hrun).
  assert (Hall : concat batches ≡ₚ tree_items t).
  { rewrite Hperm, (tree_items_leaves _ _ _ Hrep).
    apply items_at_perm. rewrite (filter_ext_in _ (fun _ => True)).
    - clear. induction (tree_leaves t) as [|c l IH]; [reflexivity|].
      rewrite filter_cons_True by auto. rewrite IH. reflexivity.
    - intros c _. split; [auto|]. intros _. apply not_elem_of_empty. }
  exists (Nat.max (Nat.max (length (heap s) - root) fuel1) (S (tree_size t))),
         (concat batches), (tree_items t).
  split_and!.
  - intros fuel Hfuel. split.
    + unfold iterateNearest, iterateNearest_rings, bind.
      rewrite Hdrill by lia. rewrite Hstart. rewrite Hrun by lia. reflexivity.
    + apply iterator_rep; [exact Hrep|lia].
  - exact Hall.
  - rewrite Hall. eapply tree_items_NoDup; eauto.
Qed.

(** ** The example after an item has moved *)



(** * What the mutators do to the stored items *)

(** ** add keeps what is stored and stores the item *)

Lemma holds_set_items h c nc its j :
  h !! c = Some nc ->
  (live_leaf h c nc -> j ∈ items nc -> j ∈ its) ->
  holds h j -> holds (<[c := with_items its nc]> h) j.
Proof.
  intros Hc Hkeep (l & n & Hlive & Hj).
  destruct (decide (l = c)) as [E|Hne]; [subst l|].
  - pose proof Hlive as (Hl & _). rewrite Hc in Hl. injection Hl as <-.
    exists c, (with_items its nc). split; [|apply Hkeep; auto].
    apply (live_leaf_set_items h c nc its Hc). left. auto.
  - exists l, n. split; [|exact Hj].
    apply (live_leaf_set_items h c nc its Hc). right. auto.
Qed.




(** ** remove takes the item out and nothing else *)

Lemma elem_of_delete_other {A} (l : list A) idx x j :
  l !! idx = Some x -> j ∈ l -> j <> x -> j ∈ delete idx l.
Proof.
  intros Hx Hj Hne. rewrite <- (take_drop_middle l idx x Hx) in Hj.
  rewrite delete_take_drop. rewrite elem_of_app, elem_of_cons in Hj.
  apply elem_of_app. destruct Hj as [?|[?|?]]; auto. contradiction.
Qed.

Lemma holds_collapse_fwd s p np cs j :
  Inv s -> internal_empty (heap s) ->
  heap s !! p = Some np -> children np = Some cs ->
  forallb (leaf_at (heap s)) cs = true ->
  holds (heap s) j -> holds (heap (collapse_store s p)) j.
Proof.
  intros HI He Hp Hcs Hleaves (l & n & Hlive & Hj).
  rewrite (collapse_store_eq s p np cs Hp Hcs). cbn [heap].
  set (moved := concat (items_at (heap s) <$> cs)).
  pose proof (lookup_lt_Some _ _ _ Hp) as Hlt.
  pose proof Hlive as (Hl & Hatt & Hleaf).
  destruct (decide (parent n = Some p)) as [Epar|Hnpar].
  - exists p, (collapsed_node np moved). split.
    + split_and!.
      * apply list_lookup_insert_eq, Hlt.
      * apply collapse_p_attached; auto.
      * reflexivity.
    + cbn. apply elem_of_app. right. apply elem_of_items_at.
      exists l, n. split_and!; auto.
      unfold attached in Hatt. rewrite Epar in Hatt.
      destruct Hatt as (np' & cs' & Hp' & Hcs' & Hin).
      rewrite Hp in Hp'. injection Hp' as <-. rewrite Hcs in Hcs'.
      injection Hcs' as <-. exact Hin.
  - assert (Hlp : l <> p).
    { intros ->. rewrite Hp in Hl. injection Hl as <-. congruence. }
    exists l, n. split; [|exact Hj]. split_and!.
    + rewrite list_lookup_insert_ne by done. exact Hl.
    + apply collapse_attached_fwd; auto.
    + exact Hleaf.
Qed.

Lemma remove_keeps_others props this item s u s' :
  Inv s -> internal_empty (heap s) ->
  remove props this item s = Done u s' ->
  forall j, holds (heap s) j -> j <> item -> holds (heap s') j.
Proof.
  intros HI He H j Hj Hne.
  destruct (remove_cases _ _ _ _ _ _ (links_shape _ (inv_links _ HI)) H)
    as [[-> _]|(c & nc & idx & Em & Ec & Ei & ->)]; [exact Hj|].
  pose proof (indexOf_Some _ _ _ Ei) as Hidx.
  assert (Hsub : forall i, i ∈ delete idx (items nc) -> i ∈ items nc).
  { intros i. apply list_elem_of_delete_inv. }
  assert (Hnd : NoDup (items nc) -> NoDup (delete idx (items nc))).
  { intros Hn. eapply sublist_NoDup; [exact Hn|apply sublist_delete]. }
  pose proof (Inv_shrink s c nc _ Ec Hsub Hnd HI) as HI1.
  pose proof (internal_empty_shrink s c nc _ Ec Hsub Hnd He) as He1.
  assert (Hj1 : holds (heap (splice_store s c nc idx)) j).
  { cbn [heap splice_store]. apply (holds_set_items _ c nc _ j Ec); [|exact Hj].
    intros _ Hjn. eapply elem_of_delete_other; eauto. }
  unfold remove_store. cbn zeta.
  fold (splice_store s c nc idx) in HI1, He1.
  destruct (eligible props _ (parent nc)) eqn:Eel; [|exact Hj1].
  apply eligible_true in Eel as (p & np & cs & Epar & Hp & Hcs & Hleaves).
  rewrite Epar. change (default 0%nat (Some p)) with p.
  eapply holds_collapse_fwd; eauto.
Qed.

(** ** The stored items before and after a call *)


Lemma remove_held props this item s u s' :
  Inv s -> internal_empty (heap s) ->
  remove props this item s = Done u s' ->
  forall j, holds (heap s') j <-> holds (heap s) j /\ j <> item.
Proof.
  intros HI He H j.
  destruct (remove_keeps_invariants _ _ _ _ _ _ HI He H)
    as (_ & _ & _ & Hdown & Hgone).
  split.
  - intros Hj. split; [apply Hdown, Hj|]. intros ->. auto.
  - intros [Hj Hne]. eapply remove_keeps_others; eauto.
Qed.


(** What the default iteration yields, as a list without repetition. *)
Lemma stored_list s :
  Inv s ->
  exists fuel0 all,
    NoDup all /\ (forall j, j ∈ all <-> holds (heap s) j) /\
    forall fuel, (fuel0 <= fuel)%nat -> iterator fuel root s = Done all s.
Proof.
  intros HI. pose proof (inv_links _ HI) as HL.
  pose proof (links_shape _ HL) as HS.
  pose proof (links_root _ HL) as Hroot. destruct (Hroot) as (r & Hr & _).
  destruct (rep_exists _ HS root (lookup_lt_Some _ _ _ Hr)) as [t Hrep].
  exists (S (tree_size t)), (tree_items t). split_and!.
  - eapply tree_items_NoDup; eauto.
  - intros j. split.
    + apply (tree_items_holds _ root t j HS Hrep).
      apply root_attached; [exact Hroot|]. apply (proj1 (rep_node _ _ _ Hrep)).
    + apply holds_tree_items; auto.
  - intros fuel Hfuel. apply iterator_rep; [exact Hrep|lia].
Qed.

(** ** iterateTrees with [leaves = false] *)



Lemma tree_nodes_length t : length (tree_nodes t) = tree_size t.
Proof.
  induction t as [|l n t0 IH0 t1 IH1 t2 IH2 t3 IH3]; cbn; [reflexivity|].
  rewrite !length_app, IH0, IH1, IH2, IH3. lia.
Qed.






Lemma foldl_insert_lookup (c : loc) (its : list Item) : forall (m : gmap Item loc) i,
  foldl (fun m j => <[j := c]> m) m its !! i =
  if decide (i ∈ its) then Some c else m !! i.
Proof.
  induction its as [|j its IH]; intros m i; cbn [foldl].
  - destruct (decide (i ∈ [])) as [H|_]; [inversion H|reflexivity].
  - rewrite IH. destruct (decide (i ∈ its)) as [Hin|Hout].
    + rewrite decide_True by (right; exact Hin). reflexivity.
    + destruct (decide (i = j)) as [->|Hne].
      * rewrite decide_True by left. apply lookup_insert_eq.
      * rewrite decide_False by (rewrite elem_of_cons; tauto).
        apply lookup_insert_ne. congruence.
Qed.

Lemma with_items_same (n : D2Tree) : with_items (items n) n = n.
Proof. destruct n. reflexivity. Qed.

Lemma add_all_leaf props fuel this : forall its s n,
  heap s !! this = Some n -> children n = None ->
  (Z.of_nat (length (items n ++ its)) <= density props)%Z \/
    coincident props (items n ++ its) ->
  add_all props (S (S fuel)) this its s =
  Done tt (mkStore (<[this := with_items (items n ++ its) n]> (heap s))
                   (foldl (fun m j => <[j := this]> m) (itemToTreeMap s) its)).
Proof.
  induction its as [|item rest IH]; intros s n Hn Hleaf Hcond.
  - cbn [add_all foldl]. rewrite app_nil_r, with_items_same, list_insert_id by exact Hn.
    destruct s. reflexivity.
  - assert (Hno : shouldSplit_items props (items n) = false).
    { destruct (shouldSplit_items props (items n)) eqn:E; [exfalso|reflexivity].
      apply shouldSplit_items_spec in E as [Hlen Hnc]. destruct Hcond as [Hle|Hco].
      - rewrite length_app in Hle. cbn [length] in Hle. lia.
      - apply Hnc. eapply coincident_sublist; [|exact Hco].
        intros i Hi. apply elem_of_app. left. exact Hi. }
    cbn [add_all]. unfold bind at 1.
    rewrite (add_no_split props fuel this item s n Hn Hleaf Hno).
    set (n1 := with_items (items n ++ [item]) n).
    set (s1 := mkStore _ _).
    assert (Hn1 : heap s1 !! this = Some n1).
    { unfold s1. cbn [heap]. apply list_lookup_insert_eq.
      exact (lookup_lt_Some _ _ _ Hn). }
    rewrite (IH s1 n1 Hn1 Hleaf).
    + unfold s1, n1. cbn [heap itemToTreeMap items with_items foldl].
      rewrite list_insert_insert_eq, <- app_assoc. reflexivity.
    + unfold n1. cbn [items with_items]. rewrite <- app_assoc. exact Hcond.
Qed.

Lemma length_concat_items_at h cs :
  length (concat (items_at h <$> cs)) = sum_list (count_at h <$> cs).
Proof.
  induction cs as [|c cs IH]; [reflexivity|].
  cbn [fmap list_fmap concat sum_list sum_list_with]. rewrite length_app, IH.
  unfold items_at, count_at. destruct (h !! c); reflexivity.
Qed.

Lemma eligible_sum props h par :
  eligible props h par = true ->
  exists p np cs, par = Some p /\ h !! p = Some np /\ children np = Some cs /\
    inject_Z (Z.of_nat (sum_list (count_at h <$> cs))) * thrash props <
    inject_Z (density props).
Proof.
  unfold eligible. destruct par as [p|]; [|discriminate].
  destruct (h !! p) as [np|] eqn:Hp; [|discriminate].
  destruct (children np) as [cs|] eqn:Hcs; [|discriminate].
  intros H. apply andb_true_iff in H as [_ H]. apply Qltb_lt in H.
  exists p, np, cs. split_and!; auto.
Qed.



(** ** add of the earlier revision against add *)








(** * The properties of the specification *)






(** C10.  Every query is read-only: when the default iteration, box,
    radius, iterateNearest or nearest (which stops after [count] items)
    completes, the store is the one it started from, whatever the store
    and the arguments are. *)
Theorem queries_leave_the_store_unchanged
    (props : Props) (fuel : nat) (this : loc) (s s' : Store) (found : list Item) :
  (iterator fuel this s = Done found s' -> s' = s) /\
  (forall minX minY maxX maxY,
     box props fuel this minX minY maxX maxY s = Done found s' -> s' = s) /\
  (forall x y r, radius props fuel this x y r s = Done found s' -> s' = s) /\
  (forall x y, iterateNearest props fuel this x y s = Done found s' -> s' = s) /\
  (forall x y count, nearest props fuel this x y count s = Done found s' -> s' = s).
Proof.
  split_and!; intros.
  - eapply readonly_iterator; eauto.
  - eapply readonly_box; eauto.
  - eapply readonly_radius; eauto.
  - eapply readonly_iterateNearest; eauto.
  - eapply readonly_nearest; eauto.
Qed.

Lemma example_box :
  box example_props 6 root 0 0 2 2 example_split = Done [0%nat] example_split.
Proof. vm_compute. reflexivity. Qed.

Lemma queries_leave_the_store_unchanged_witness :
  box example_props 6 root 0 0 2 2 example_split = Done [0%nat] example_split /\
  example_split = example_split.
Proof.
  split; [exact example_box|].
  exact (proj1 (proj2 (queries_leave_the_store_unchanged
                         example_props 6 root example_split example_split [0%nat]))
           0 0 2 2 example_box).
Defined.








Lemma example_remove_0 :
  remove example_props root 0%nat example_split = Done tt example_removed.
Proof. vm_compute. reflexivity. Qed.

Lemma example_removed_reachable : reachable example_props example_removed.
Proof.
  eapply reachable_remove; [exact example_split_reachable|exact example_remove_0].
Defined.





(** C9.  The claim holds for src/mod.ts and fails for the earlier revision
    in src/unnamed/part_000.  In src/mod.ts, on every store a caller can
    obtain, iterateNearest completes and what it yields is, up to order,
    what the default iteration yields: every stored item, exactly once.  In
    the earlier revision, iterateNearest called on a node that has children
    never gets past its first loop: whatever the fuel, the run is cut off
    before it yields anything, and so is [nearest]; the tree of the
    repository's tests, built with the [add] of that revision, is such a
    case. *)
Theorem iterateNearest_completes_except_in_part000 :
  (forall props s x y,
     reachable props s ->
     exists fuel0 found all,
       (forall fuel, (fuel0 <= fuel)%nat ->
          iterateNearest props fuel root x y s = Done found s /\
          iterator fuel root s = Done all s) /\
       found ≡ₚ all /\ NoDup found) /\
  (forall props fuel s this n cs x y count,
     heap s !! this = Some n -> children n = Some cs -> length cs = 4%nat ->
     Part000.iterateNearest props fuel this x y s = OutOfFuel /\
     Part000.nearest props fuel this x y count s = OutOfFuel) /\
  (exists s1 s2 s3 s4,
     Part000.add example_props 7 root 0%nat (mkStore [root_node] ∅) = Done tt s1 /\
     Part000.add example_props 7 root 1%nat s1 = Done tt s2 /\
     Part000.add example_props 7 root 2%nat s2 = Done tt s3 /\
     Part000.add example_props 7 root 3%nat s3 = Done tt s4 /\
     forall fuel, Part000.iterateNearest example_props fuel root 0 0 s4 = OutOfFuel).
Proof.
  assert (Hstuck : forall props fuel s this n cs x y count,
     heap s !! this = Some n -> children n = Some cs -> length cs = 4%nat ->
     Part000.iterateNearest props fuel this x y s = OutOfFuel /\
     Part000.nearest props fuel this x y count s = OutOfFuel).
  { intros props fuel s this n cs x y count Hn Hcs Hlen.
    assert (H : Part000.iterateNearest props fuel this x y s = OutOfFuel).
    { unfold Part000.iterateNearest, Part000.iterateNearest_rings, bind.
      rewrite (part000_descend_stuck s this n cs x y Hn Hcs Hlen). reflexivity. }
    split; [exact H|]. unfold Part000.nearest, bind. rewrite H. reflexivity. }
  split_and!.
  - intros props s x y Hreach. apply iterateNearest_yields_stored, Hreach.
  - exact Hstuck.
  - exists (example_leaf [0%nat]), (example_leaf [0; 1]%nat),
           (example_leaf [0; 1; 2]%nat), example_split.
    split_and!; try (vm_compute; reflexivity).
    intros fuel.
    exact (proj1 (Hstuck example_props fuel example_split root _
                    [1; 2; 3; 4]%nat 0 0 1%nat eq_refl eq_refl eq_refl)).
Qed.

Lemma iterateNearest_completes_except_in_part000_witness :
  (exists fuel0 found all,
     (forall fuel, (fuel0 <= fuel)%nat ->
        iterateNearest example_props fuel root 0 0 example_split =
          Done found example_split /\
        iterator fuel root example_split = Done all example_split) /\
     found ≡ₚ all /\ NoDup found) /\
  Part000.iterateNearest example_props 1000 root 0 0 example_split = OutOfFuel /\
  Part000.nearest example_props 1000 root 0 0 1 example_split = OutOfFuel.
Proof.
  split.
  - exact (proj1 iterateNearest_completes_except_in_part000
             example_props example_split 0 0 example_split_reachable).
  - exact (proj1 (proj2 iterateNearest_completes_except_in_part000)
             example_props 1000%nat example_split root _ [1; 2; 3; 4]%nat 0 0 1%nat
             eq_refl eq_refl eq_refl).
Defined.




(** ** remove and update of an item that is not stored *)

Lemma not_stored_not_in_container props s item c nc :
  reachable props s -> ~ is_stored s item ->
  itemToTreeMap s !! item = Some c -> heap s !! c = Some nc ->
  item ∉ items nc.
Proof.
  intros Hreach Hnot Hm Hc Hin.
  destruct (reachable_invariants _ _ Hreach) as (HI & He & _).
  pose proof (inv_sound _ HI _ _ _ Hm Hc Hin) as Hatt.
  destruct (children nc) as [cs|] eqn:Ecs.
  - rewrite (He c nc Hc) in Hin by congruence. inversion Hin.
  - apply Hnot, holds_is_stored; [exact HI|].
    exists c, nc. split; [split_and!; auto|exact Hin].
Qed.

Lemma remove_not_stored props this s item :
  reachable props s -> ~ is_stored s item ->
  remove props this item s = Done tt s.
Proof.
  intros Hreach Hnot.
  destruct (reachable_invariants _ _ Hreach) as (HI & _).
  destruct (itemToTreeMap s !! item) as [c|] eqn:Em; [|apply remove_no_entry, Em].
  destruct (lookup_lt_is_Some_2 _ _ (inv_valid _ HI _ _ Em)) as [nc Hc].
  apply (remove_not_held props this item s c nc Em Hc).
  apply indexOf_None. eapply not_stored_not_in_container; eauto.
Qed.

(** C5, as amended.  On every store a caller can obtain, [remove] of an
    item that is not stored is a silent no-op: it returns normally and the
    store is unchanged.  [update] of such an item is a no-op only when
    [remove] has left an index entry for it behind and its position lies in
    the bounds of the node that entry names; in every other case, and in
    particular when the item has no index entry, it is exactly
    [add(item)]. *)
Theorem remove_absent_is_noop_update_absent_adds
    (props : Props) (fuel : nat) (item : Item) (s : Store) :
  reachable props s -> ~ is_stored s item ->
  remove props root item s = Done tt s /\
  (itemToTreeMap s !! item = None ->
   update props fuel root item s = add props fuel root item s) /\
  (forall c nc,
     itemToTreeMap s !! item = Some c -> heap s !! c = Some nc ->
     update props fuel root item s =
     if within nc (getItemPosition props item) then Done tt s
     else add props fuel root item s).
Proof.
  intros Hreach Hnot. split_and!.
  - apply remove_not_stored; auto.
  - intros Em. unfold update, bind, map_get. rewrite Em. reflexivity.
  - intros c nc Em Hc. unfold update, bind at 1, map_get. rewrite Em.
    unfold bind at 1. rewrite (get_node_at _ _ _ Hc).
    destruct (within nc (getItemPosition props item)); [reflexivity|].
    unfold bind. rewrite (remove_not_stored props c s item Hreach Hnot).
    reflexivity.
Qed.

Lemma example_7_not_stored : ~ is_stored example_split 7%nat.
Proof.
  apply (not_stored_by_run 6 [0; 1; 2; 3]%nat); [vm_compute; reflexivity|].
  decide_not_in.
Qed.

Lemma remove_absent_is_noop_update_absent_adds_witness :
  remove example_props root 7%nat example_split = Done tt example_split /\
  update example_props 3 root 7%nat example_split =
    add example_props 3 root 7%nat example_split.
Proof.
  destruct (remove_absent_is_noop_update_absent_adds example_props 3 7%nat
              example_split example_split_reachable example_7_not_stored)
    as (Hrm & Hup & _).
  split; [exact Hrm|]. apply Hup. vm_compute. reflexivity.
Defined.

(** C5 as stated fails for [update]: on a new tree, where item 0 is not
    stored, [update(item 0)] stores it. *)
Lemma update_of_absent_item_stores_it :
  reachable example_props (mkStore [root_node] ∅) /\
  ~ is_stored (mkStore [root_node] ∅) 0%nat /\
  update example_props 3 root 0%nat (mkStore [root_node] ∅) =
    Done tt (example_leaf [0%nat]) /\
  is_stored (example_leaf [0%nat]) 0%nat /\
  example_leaf [0%nat] <> mkStore [root_node] ∅.
Proof.
  split_and!.
  - exact example_new_reachable.
  - apply (not_stored_by_run 2 []); [reflexivity|]. apply not_elem_of_nil.
  - vm_compute. reflexivity.
  - exists 2%nat, [0%nat]. split; [apply example_leaf_stored|]. left.
  - intros H. apply (f_equal heap) in H. cbn in H. discriminate.
Qed.

(** * Further properties of the code *)

(** ** The mutators and the stored items *)



(** X2.  [remove] completes whatever the item is, and afterwards the default
    iteration yields exactly the items it yielded before other than the
    removed one, each once: nothing else is lost, also when the parent
    collapses. *)
Theorem remove_takes_out_exactly_the_item (props : Props) (s : Store) (item : Item) :
  reachable props s ->
  exists fuel0 s' all all',
    remove props root item s = Done tt s' /\
    (forall fuel, (fuel0 <= fuel)%nat ->
       iterator fuel root s = Done all s /\
       iterator fuel root s' = Done all' s') /\
    all' ≡ₚ filter (fun j => j <> item) all /\ item ∉ all'.
Proof.
  intros Hreach.
  destruct (reachable_invariants _ _ Hreach) as (HI & He & _).
  destruct (remove_completes props s item Hreach) as (s' & Hreach' & Hrm).
  destruct (reachable_invariants _ _ Hreach') as (HI' & _).
  pose proof (remove_held props root item s tt s' HI He Hrm) as Hheld.
  destruct (stored_list s HI) as (F1 & all & Hnd & Hall & Hrun).
  destruct (stored_list s' HI') as (F2 & all' & Hnd' & Hall' & Hrun').
  exists (Nat.max F1 F2), s', all, all'. split_and!.
  - exact Hrm.
  - intros fuel Hfuel. split; [apply Hrun|apply Hrun']; lia.
  - apply NoDup_Permutation; [exact Hnd'|apply NoDup_filter, Hnd|].
    intros j. rewrite Hall', Hheld, list_elem_of_filter, Hall. tauto.
  - rewrite Hall', Hheld. tauto.
Qed.

Lemma remove_takes_out_exactly_the_item_witness :
  exists fuel0 s' all all',
    remove example_props root 0%nat example_split = Done tt s' /\
    (forall fuel, (fuel0 <= fuel)%nat ->
       iterator fuel root example_split = Done all example_split /\
       iterator fuel root s' = Done all' s') /\
    all' ≡ₚ filter (fun j => j <> 0%nat) all /\ 0%nat ∉ all'.
Proof.
  exact (remove_takes_out_exactly_the_item example_props example_split 0%nat
           example_split_reachable).
Defined.



(** ** Walking the tree *)





(** ** nearest *)





(** ** Adding without a split *)

(** X8.  The first [density] items added to a new tree, or any number of
    items that all sit at one position, stay in the root: no add splits it,
    its items are the added ones in the order they were added, the index
    sends exactly these items to the root, and iterating yields them in that
    order. *)
Theorem first_items_stay_in_the_root
    (props : Props) (its : list Item) (r : loc) (s0 : Store) (fuel : nat) :
  new_D2Tree props = Done r s0 ->
  (Z.of_nat (length its) <= density props)%Z \/ coincident props its ->
  (2 <= fuel)%nat ->
  exists s',
    add_all props fuel r its s0 = Done tt s' /\
    heap s' = [with_items its root_node] /\
    (forall i, itemToTreeMap s' !! i = if decide (i ∈ its) then Some r else None) /\
    iterator fuel r s' = Done its s'.
Proof.
  intros Hnew Hcond Hfuel. rewrite new_D2Tree_eq in Hnew.
  destruct (density props <? 2)%Z; [discriminate|]. injection Hnew as <- <-.
  destruct fuel as [|[|fuel]]; [lia|lia|].
  eexists. split_and!.
  - apply (add_all_leaf props fuel root its (mkStore [root_node] ∅) root_node);
      [reflexivity|reflexivity|exact Hcond].
  - reflexivity.
  - intros i. cbn [itemToTreeMap]. rewrite foldl_insert_lookup.
    destruct (decide (i ∈ its)); [reflexivity|apply lookup_empty].
  - apply (iterator_rep _ root (Leaf root (with_items its root_node))); [|cbn; lia].
    constructor; reflexivity.
Qed.

Lemma first_items_stay_in_the_root_witness :
  exists s',
    add_all example_props 2 root [0; 1; 2]%nat (mkStore [root_node] ∅) = Done tt s' /\
    heap s' = [with_items [0; 1; 2]%nat root_node] /\
    (forall i, itemToTreeMap s' !! i =
               if decide (i ∈ [0; 1; 2]%nat) then Some root else None) /\
    iterator 2 root s' = Done [0; 1; 2]%nat s'.
Proof.
  apply (first_items_stay_in_the_root example_props [0; 1; 2]%nat root
           (mkStore [root_node] ∅) 2).
  - reflexivity.
  - left. vm_compute. discriminate.
  - lia.
Defined.

(** ** Collapsing leaves room *)

(** X9.  With [thrash] at least 1, a node that [remove] turns from an
    internal node into a leaf ends up with fewer than [density] items, so
    that [shouldSplit] is false on it: the next add into the collapsed node
    does not split it again. *)
Theorem collapsed_node_is_below_density
    (props : Props) (s s' : Store) (item : Item) (p : loc) (np np' : D2Tree) :
  reachable props s -> 1 <= thrash props ->
  remove props root item s = Done tt s' ->
  heap s !! p = Some np -> children np <> None ->
  heap s' !! p = Some np' -> children np' = None ->
  (Z.of_nat (length (items np')) < density props)%Z /\
  shouldSplit_items props (items np') = false.
Proof.
  intros Hreach Hth Hrm Hp Hint Hp' Hleaf.
  destruct (reachable_invariants _ _ Hreach) as (HI & He & _ & _).
  pose proof (links_shape _ (inv_links _ HI)) as HS.
  assert (Hlen : (Z.of_nat (length (items np')) < density props)%Z).
  { destruct (remove_cases _ _ _ _ _ _ HS Hrm)
      as [[-> _]|(c & nc & idx & Hm & Hc & Hidx & ->)].
    { rewrite Hp in Hp'. injection Hp' as <-. contradiction. }
    assert (Hpc : p <> c).
    { intros ->. rewrite Hp in Hc. injection Hc as <-.
      rewrite (He _ _ Hp Hint) in Hidx. discriminate. }
    set (s1 := splice_store s c nc idx) in *.
    assert (Hp1 : heap s1 !! p = Some np).
    { unfold s1, splice_store. cbn [heap].
      rewrite list_lookup_insert_ne by congruence. exact Hp. }
    unfold remove_store in Hp'. cbn zeta in Hp'. fold s1 in Hp'.
    destruct (eligible props (heap s1) (parent nc)) eqn:Eel.
    2:{ rewrite Hp1 in Hp'. injection Hp' as <-. contradiction. }
    apply eligible_sum in Eel as (q & nq & cs & Epar & Hq & Hcs & Hsum).
    rewrite Epar in Hp'. change (default 0%nat (Some q)) with q in Hp'.
    unfold collapse_store in Hp'. rewrite Hq, Hcs in Hp'.
    change (default [] (Some cs)) with cs in Hp'. cbn [heap] in Hp'.
    destruct (decide (p = q)) as [<-|Hpq].
    2:{ rewrite list_lookup_insert_ne in Hp' by congruence.
        rewrite Hp1 in Hp'. injection Hp' as <-. contradiction. }
    rewrite list_lookup_insert_eq in Hp' by exact (lookup_lt_Some _ _ _ Hq).
    injection Hp' as <-. rewrite Hp1 in Hq. injection Hq as <-.
    cbn [items collapsed_node]. rewrite (He _ _ Hp Hint). cbn [app].
    rewrite length_concat_items_at.
    set (n := sum_list (count_at (heap s1) <$> cs)) in *.
    assert (Hn : inject_Z (Z.of_nat n) < inject_Z (density props)).
    { eapply Qle_lt_trans; [|exact Hsum].
      assert (H0 : 0 <= inject_Z (Z.of_nat n)).
      { change 0 with (inject_Z 0). rewrite <- Zle_Qle. lia. }
      nra. }
    rewrite <- Zlt_Qlt in Hn. exact Hn. }
  split; [exact Hlen|].
  unfold shouldSplit_items. apply Z.ltb_lt in Hlen. rewrite Hlen. reflexivity.
Qed.

Lemma collapsed_node_is_below_density_witness :
  (Z.of_nat (length [3; 2]%nat) < density example_props)%Z /\
  shouldSplit_items example_props [3; 2]%nat = false.
Proof.
  apply (collapsed_node_is_below_density example_props example_removed
           (remove_store example_props example_removed 3
              (mkD2Tree (Some root) [1%nat] None (Infinity, Fin (1 # 3))
                 (Fin (1 # 3), NegInfinity) (0, 0)) 0)
           1%nat root
           (mkD2Tree None [] (Some [1; 2; 3; 4]%nat) (Infinity, Infinity)
              (NegInfinity, NegInfinity) (1 # 3, 1 # 3))
           (mkD2Tree None [3; 2]%nat None (Infinity, Infinity)
              (NegInfinity, NegInfinity) (1 # 3, 1 # 3))).
  - exact example_removed_reachable.
  - vm_compute. discriminate.
  - vm_compute. reflexivity.
  - reflexivity.
  - discriminate.
  - vm_compute. reflexivity.
  - reflexivity.
Defined.

(** ** Empty query regions *)



(** ** update of an item that stays in its cell *)

(** X11.  [update] changes nothing when the item is stored and its position
    is unchanged, or has changed but still lies in the half-open bounds of
    the leaf that holds it: the store is left as it was, whatever fuel is
    given. *)
Theorem update_inside_the_cell_changes_nothing
    (props props' : Props) (s : Store) (item : Item) (l : loc) (n : D2Tree)
    (fuel : nat) :
  reachable props s ->
  live_leaf (heap s) l n -> item ∈ items n ->
  within n (getItemPosition props' item) = true \/
    getItemPosition props' item = getItemPosition props item ->
  update props' fuel root item s = Done tt s.
Proof.
  intros Hreach Hleaf Hin Hpos.
  destruct (reachable_invariants _ _ Hreach) as (HI & _ & HW & _).
  assert (Hw : within n (getItemPosition props' item) = true).
  { destruct Hpos as [Hw | ->]; [exact Hw|].
    apply (HW l n item Hleaf Hin). intros []. }
  unfold update, bind, map_get.
  rewrite (inv_index _ HI l n item Hleaf Hin).
  rewrite (get_node_at _ _ _ (proj1 Hleaf)), Hw. reflexivity.
Qed.

Lemma update_inside_the_cell_changes_nothing_witness :
  update example_props 0 root 2%nat example_split = Done tt example_split.
Proof.
  apply (update_inside_the_cell_changes_nothing example_props example_props
           example_split 2%nat 2%nat
           (mkD2Tree (Some root) [2%nat] None (Fin (1 # 3), Infinity)
              (NegInfinity, Fin (1 # 3)) (0, 0)) 0
           example_split_reachable).
  - split_and!; [reflexivity| |reflexivity].
    exists (mkD2Tree None [] (Some [1; 2; 3; 4]%nat) (Infinity, Infinity)
              (NegInfinity, NegInfinity) (1 # 3, 1 # 3)), [1; 2; 3; 4]%nat.
    split_and!; [reflexivity|reflexivity|].
    apply elem_of_cons. right. apply elem_of_cons. left. reflexivity.
  - apply elem_of_cons. left. reflexivity.
  - right. reflexivity.
Defined.

(** ** add followed by remove *)



(** ** The earlier revision of add *)



(** ** The index, drill and the leaves *)



(** X15.  No stored item is kept twice: the default iteration yields no item
    more than once, and an item is in the items of one leaf of the tree
    only. *)
Theorem each_item_is_stored_once (props : Props) (s : Store) :
  reachable props s ->
  (exists fuel0 all,
     (forall fuel, (fuel0 <= fuel)%nat -> iterator fuel root s = Done all s) /\
     NoDup all) /\
  (forall i l n l' n',
     live_leaf (heap s) l n -> i ∈ items n ->
     live_leaf (heap s) l' n' -> i ∈ items n' -> l = l').
Proof.
  intros Hreach. destruct (reachable_invariants _ _ Hreach) as (HI & _).
  split.
  - destruct (stored_list s HI) as (F & all & Hnd & _ & Hrun).
    exists F, all. split; [exact Hrun|exact Hnd].
  - intros i l n l' n' Hl Hi Hl' Hi'.
    pose proof (inv_index _ HI _ _ _ Hl Hi) as H1.
    pose proof (inv_index _ HI _ _ _ Hl' Hi') as H2. congruence.
Qed.

Lemma each_item_is_stored_once_witness :
  (exists fuel0 all,
     (forall fuel, (fuel0 <= fuel)%nat ->
        iterator fuel root example_split = Done all example_split) /\
     NoDup all) /\
  (forall i l n l' n',
     live_leaf (heap example_split) l n -> i ∈ items n ->
     live_leaf (heap example_split) l' n' -> i ∈ items n' -> l = l').
Proof.
  exact (each_item_is_stored_once example_props example_split
           example_split_reachable).
Defined.


